(** * The event log store of bolt.diy (LogStore): a shallow embedding

    The store keeps a JavaScript object [Record<string, LogEntry>] in a
    nanostores [map], trims it to [MAX_LOGS] entries after every insertion,
    writes it as JSON into the cookie [eventLogs] and reads it back when the
    store is constructed.

    Conventions of the embedding.
    - A JavaScript number is a [number]: an integer, a fraction given by its
      decimal digits, -0, NaN or an infinity. A finite number is held by
      the decimal numeral that [Number::toString] prints for it, the
      shortest one that identifies the double; reading that numeral gives
      the number back. A numeral of a JSON text denotes the number it
      spells, where the engine would round it to the nearest double. Time
      values (clock readings, timestamps) and the [order] of a tab are
      integers and are held as [Z].
    - JavaScript strings are [string], held in UTF-8: a character is one
      byte or several. A surrogate without its partner, for which UTF-8
      has no encoding, is held in the three-byte form of the same scheme
      when a JSON escape names it; [JSON.stringify] would write it as an
      escape again, [QuoteJSONString] writes its bytes. [toLowerCase] maps
      the capital letters of Basic Latin and of Latin-1 Supplement; capital
      letters of other blocks are outside its table and are left as they
      are.
    - A JavaScript object is the list of its own properties in enumeration
      order (array-index keys ascending, then the other keys in creation
      order); every construction goes through [obj_set], which keeps that
      order.
    - [timestamp] holds the time value (milliseconds since the epoch) of the
      instant; [toISOString] renders it and [Date_parse] reads it back.
    - An operation is a function [World -> outcome A * World]: it may throw,
      and it threads the store, the cookie, the diagnostic log and the
      readings of the clock and of [Math.random]. *)

From Stdlib Require Import ZArith List String Ascii Bool Lia.
From Stdlib Require Import Permutation Sorted.
From Stdlib Require Import DecimalString DecimalZ.
From Stdlib Require DecimalPos DecimalFacts.
Import ListNotations.

Local Open Scope string_scope.
Local Open Scope Z_scope.

Set Warnings "-register-all".

(** ** JavaScript values, errors and outcomes *)

(** Numbers: [Frac m f] is [m / 10^f], for [m] not a multiple of 10. *)
Inductive number : Type :=
| Int (n : Z)
| Frac (m : Z) (f : positive)
| NegZero
| NaN
| Inf (negative : bool).

Inductive value : Type :=
| VUndefined
| VNull
| VBool (b : bool)
| VNum (x : number)
| VBigInt (n : Z)
| VStr (s : string)
| VArr (elems : list value)
| VObj (props : list (string * value)).

Inductive exception : Type :=
| TypeError (msg : string)
| SyntaxError (msg : string).

Inductive outcome (A : Type) : Type :=
| Return (a : A)
| Throw (e : exception).

Arguments Return {A} a.
Arguments Throw {A} e.

(** ** Numbers and strings *)

(** The decimal numeral of an integer. *)
Definition integer_text (n : Z) : string :=
  NilZero.string_of_int (Z.to_int n).

Fixpoint take (n : nat) (s : string) : string :=
  match n, s with
  | S n', String c r => String c (take n' r)
  | _, _ => EmptyString
  end.

Fixpoint drop (n : nat) (s : string) : string :=
  match n, s with
  | S n', String c r => drop n' r
  | _, _ => s
  end.

Fixpoint zeros (n : nat) : string :=
  match n with
  | O => EmptyString
  | S n' => String "0" (zeros n')
  end.

(** The digits of a numeral without its trailing zeros. *)
Fixpoint significant (s : string) : string :=
  match s with
  | EmptyString => EmptyString
  | String c r =>
      match significant r with
      | EmptyString => if Ascii.eqb c "0" then EmptyString else String c EmptyString
      | String c' r' => String c (String c' r')
      end
  end.

(** [d.ddde+x]: the digits [ds] with the point after the first one, for the
    number whose first digit has the weight [10^(n-1)]. *)
Definition exponent_text (ds : string) (n : Z) : string :=
  match ds with
  | EmptyString => EmptyString
  | String d rest =>
      String d (match rest with
                | EmptyString => EmptyString
                | String _ _ => "." ++ rest
                end)
        ++ "e" ++ (if 0 <=? n - 1 then "+" else "-")
        ++ integer_text (Z.abs (n - 1))
  end.

(** [Number::toString], radix 10. With [k] digits and the point [n]
    places behind the first digit: the digits and zeros up to the point for
    [k <= n <= 21]; the point inside the digits for [0 < n <= 21]; zeros
    between the point and the digits for [-6 < n <= 0]; and exponent
    notation otherwise. *)
Definition Number_toString (x : number) : string :=
  match x with
  | NaN => "NaN"
  | Inf false => "Infinity"
  | Inf true => "-Infinity"
  | NegZero => "0"
  | Int n =>
      if Z.abs n <? 1000000000000000000000 then integer_text n
      else
        let ds := integer_text (Z.abs n) in
        (if n <? 0 then "-" else "")
          ++ exponent_text (significant ds) (Z.of_nat (String.length ds))
  | Frac m f =>
      let ds := integer_text (Z.abs m) in
      let n := Z.of_nat (String.length ds) - Zpos f in
      (if m <? 0 then "-" else "")
        ++ (if 21 <? n then exponent_text ds n
            else if 0 <? n
                 then take (Z.to_nat n) ds ++ "." ++ drop (Z.to_nat n) ds
                 else if -6 <? n then "0." ++ zeros (Z.to_nat (- n)) ++ ds
                      else exponent_text ds n)
  end.

(** Whether [JSON.stringify] writes the number: NaN and the infinities are
    written as null. *)
Definition finite (x : number) : bool :=
  match x with
  | NaN | Inf _ => false
  | _ => true
  end.

(** [x >= c] for an integer [c]. *)
Definition at_least (c : Z) (x : number) : bool :=
  match x with
  | Int n => c <=? n
  | Frac m f => c * 10 ^ Zpos f <=? m
  | NegZero => c <=? 0
  | NaN => false
  | Inf negative => negb negative
  end.

(** [String.prototype.toLowerCase]: A .. Z, and the capital letters
    U+00C0 .. U+00DE (the sign U+00D7 apart), whose encoding is the byte C3
    followed by 80 .. 9E. *)
Definition lower_unit (c : ascii) : ascii :=
  let n := N_of_ascii c in
  if ((65 <=? n) && (n <=? 90))%N then ascii_of_N (n + 32) else c.

Definition lower_latin1 (c : ascii) : ascii :=
  let n := N_of_ascii c in
  if ((128 <=? n) && (n <=? 158) && negb (n =? 151))%N
  then ascii_of_N (n + 32) else c.

Fixpoint toLowerCase (s : string) : string :=
  match s with
  | EmptyString => EmptyString
  | String c r =>
      if (N_of_ascii c =? 195)%N then
        match r with
        | String c' r' => String c (String (lower_latin1 c') (toLowerCase r'))
        | EmptyString => String c EmptyString
        end
      else String (lower_unit c) (toLowerCase r)
  end.

(** [String.prototype.includes]. *)
Definition includes (s q : string) : bool :=
  match String.index 0 q s with
  | Some _ => true
  | None => false
  end.

(** ** Objects: own properties in enumeration order *)

(** A key is an array index when it is the canonical numeral of an integer
    below 2^32 - 1. *)
Definition array_index (k : string) : option Z :=
  match NilZero.uint_of_string k with
  | Some d =>
      let n := Z.of_uint d in
      if (integer_text n =? k)%string && (n <? 4294967295)
      then Some n else None
  | None => None
  end.

(** Whether a key created now is enumerated before the resident key [k2]. *)
Definition enumerated_before (k1 k2 : string) : bool :=
  match array_index k1, array_index k2 with
  | Some i, Some j => i <? j
  | Some _, None => true
  | None, _ => false
  end.

Fixpoint obj_get {A : Type} (k : string) (o : list (string * A)) : option A :=
  match o with
  | [] => None
  | (k', v) :: o' => if (k =? k')%string then Some v else obj_get k o'
  end.

Definition obj_has {A : Type} (k : string) (o : list (string * A)) : bool :=
  match obj_get k o with
  | Some _ => true
  | None => false
  end.

Fixpoint obj_replace {A : Type} (k : string) (v : A) (o : list (string * A))
  : list (string * A) :=
  match o with
  | [] => []
  | (k', v') :: o' =>
      if (k =? k')%string then (k', v) :: o' else (k', v') :: obj_replace k v o'
  end.

Fixpoint obj_create {A : Type} (k : string) (v : A) (o : list (string * A))
  : list (string * A) :=
  match o with
  | [] => [(k, v)]
  | (k', v') :: o' =>
      if enumerated_before k k' then (k, v) :: o
      else (k', v') :: obj_create k v o'
  end.

(** [o[k] = v] on a fresh copy of [o]: an existing key keeps its place. *)
Definition obj_set {A : Type} (k : string) (v : A) (o : list (string * A))
  : list (string * A) :=
  if obj_has k o then obj_replace k v o else obj_create k v o.

(** An object literal [{ k1: v1, ... }], a spread [{ ...o, k: v }] and
    [Object.fromEntries]: the properties are defined one after the other. *)
Definition obj_define {A : Type} (o : list (string * A))
  (entries : list (string * A)) : list (string * A) :=
  fold_left (fun acc kv => obj_set (fst kv) (snd kv) acc) entries o.

Definition Object_fromEntries {A : Type} (entries : list (string * A))
  : list (string * A) :=
  obj_define [] entries.

Definition Object_entries {A : Type} (o : list (string * A))
  : list (string * A) := o.

Definition Object_values {A : Type} (o : list (string * A)) : list A :=
  map snd o.

(** [{ ...details, <rest> }] where [details] may be [undefined]. *)
Definition spread (details : option (list (string * value)))
  (rest : list (string * value)) : list (string * value) :=
  obj_define [] (match details with Some d => d | None => [] end ++ rest).

(** ** [Array.prototype.sort] with a comparator

    The sort is stable; an element moves behind another one only when the
    comparator is positive on the pair. *)
Fixpoint sort_insert {A : Type} (cmp : A -> A -> Z) (x : A) (l : list A)
  : list A :=
  match l with
  | [] => [x]
  | y :: r => if 0 <? cmp x y then y :: sort_insert cmp x r else x :: l
  end.

Definition Array_sort {A : Type} (cmp : A -> A -> Z) (l : list A) : list A :=
  fold_right (sort_insert cmp) [] l.

(** ** [JSON.stringify] *)

Definition hex_digit (n : N) : ascii :=
  if (n <? 10)%N then ascii_of_N (48 + n) else ascii_of_N (87 + n).

(** [\u00XX] for a control character. *)
Definition unicode_escape (c : ascii) : string :=
  let n := N_of_ascii c in
  String "\" (String "u" (String "0" (String "0"
    (String (hex_digit (n / 16)) (String (hex_digit (n mod 16)) ""))))).

Definition quote_unit (c : ascii) : string :=
  let n := N_of_ascii c in
  if (n =? 8)%N then "\b"
  else if (n =? 9)%N then "\t"
  else if (n =? 10)%N then "\n"
  else if (n =? 12)%N then "\f"
  else if (n =? 13)%N then "\r"
  else if (n =? 34)%N then String "\" (String c "")
  else if (n =? 92)%N then String "\" (String c "")
  else if (n <? 32)%N then unicode_escape c
  else String c "".

Fixpoint quote_units (s : string) : string :=
  match s with
  | EmptyString => EmptyString
  | String c r => quote_unit c ++ quote_units r
  end.

Definition quotation_mark : ascii := ascii_of_N 34.

Definition QuoteJSONString (s : string) : string :=
  String quotation_mark (quote_units s ++ String quotation_mark "").

(** [SerializeJSONProperty]: [None] is the result [undefined]. *)
Fixpoint SerializeJSONProperty (v : value) : outcome (option string) :=
  match v with
  | VUndefined => Return None
  | VNull => Return (Some "null")
  | VBool true => Return (Some "true")
  | VBool false => Return (Some "false")
  | VNum x => Return (Some (if finite x then Number_toString x else "null"))
  | VBigInt _ => Throw (TypeError "Do not know how to serialize a BigInt")
  | VStr s => Return (Some (QuoteJSONString s))
  | VArr elems =>
      let fix items (l : list value) : outcome (list string) :=
        match l with
        | [] => Return []
        | x :: r =>
            match SerializeJSONProperty x with
            | Throw e => Throw e
            | Return sx =>
                match items r with
                | Throw e => Throw e
                | Return sr =>
                    Return (match sx with Some t => t | None => "null" end :: sr)
                end
            end
        end in
      match items elems with
      | Throw e => Throw e
      | Return parts => Return (Some ("[" ++ String.concat "," parts ++ "]"))
      end
  | VObj props =>
      let fix members (l : list (string * value)) : outcome (list string) :=
        match l with
        | [] => Return []
        | (k, x) :: r =>
            match SerializeJSONProperty x with
            | Throw e => Throw e
            | Return sx =>
                match members r with
                | Throw e => Throw e
                | Return sr =>
                    Return (match sx with
                            | Some t => (QuoteJSONString k ++ ":" ++ t) :: sr
                            | None => sr
                            end)
                end
            end
        end in
      match members props with
      | Throw e => Throw e
      | Return parts => Return (Some ("{" ++ String.concat "," parts ++ "}"))
      end
  end.

Definition JSON_stringify (v : value) : outcome (option string) :=
  SerializeJSONProperty v.

(** ** Dates: [Date.prototype.toISOString]

    The proleptic Gregorian calendar, by 400-year eras of 146097 days that
    start on the first of March. *)

Definition msPerDay : Z := 86400000.

Definition civil_from_days (days : Z) : Z * Z * Z :=
  let z := days + 719468 in
  let era := z / 146097 in
  let doe := z mod 146097 in
  let yoe := (doe - doe / 1460 + doe / 36524 - doe / 146096) / 365 in
  let doy := doe - (365 * yoe + yoe / 4 - yoe / 100) in
  let mp := (5 * doy + 2) / 153 in
  let d := doy - (153 * mp + 2) / 5 + 1 in
  let m := if mp <? 10 then mp + 3 else mp - 9 in
  let y := yoe + era * 400 + (if m <=? 2 then 1 else 0) in
  (y, m, d).

Definition days_from_civil (y m d : Z) : Z :=
  let y' := y - (if m <=? 2 then 1 else 0) in
  let era := y' / 400 in
  let yoe := y' mod 400 in
  let doy := (153 * (if 2 <? m then m - 3 else m + 9) + 2) / 5 + d - 1 in
  let doe := yoe * 365 + yoe / 4 - yoe / 100 + doy in
  era * 146097 + doe - 719468.

Definition digit_char (n : Z) : ascii := ascii_of_N (48 + Z.to_N n).

Definition char_digit (c : ascii) : option Z :=
  let n := N_of_ascii c in
  if ((48 <=? n) && (n <=? 57))%N then Some (Z.of_N n - 48) else None.

(** [n] on [w] decimal digits, zero padded. *)
Fixpoint fixed (w : nat) (n : Z) : string :=
  match w with
  | O => ""
  | S w' => fixed w' (n / 10) ++ String (digit_char (n mod 10)) ""
  end.

Definition year_text (y : Z) : string :=
  if (0 <=? y) && (y <=? 9999) then fixed 4 y
  else if y <? 0 then "-" ++ fixed 6 (- y)
       else "+" ++ fixed 6 y.

Definition toISOString (t : Z) : string :=
  let '(y, m, d) := civil_from_days (t / msPerDay) in
  let ms := t mod msPerDay in
  year_text y ++ "-" ++ fixed 2 m ++ "-" ++ fixed 2 d ++ "T"
    ++ fixed 2 (ms / 3600000) ++ ":" ++ fixed 2 (ms / 60000 mod 60) ++ ":"
    ++ fixed 2 (ms / 1000 mod 60) ++ "." ++ fixed 3 (ms mod 1000) ++ "Z".

(** ** Dates: reading the text of [toISOString] back *)

Definition obind {A B : Type} (o : option A) (k : A -> option B) : option B :=
  match o with
  | Some a => k a
  | None => None
  end.

Fixpoint read_digits (w : nat) (acc : Z) (s : string) : option (Z * string) :=
  match w with
  | O => Some (acc, s)
  | S w' =>
      match s with
      | EmptyString => None
      | String c r =>
          obind (char_digit c) (fun d => read_digits w' (10 * acc + d) r)
      end
  end.

Definition expect (c : ascii) (s : string) : option string :=
  match s with
  | EmptyString => None
  | String c' r => if Ascii.eqb c c' then Some r else None
  end.

Definition read_year (s : string) : option (Z * string) :=
  match s with
  | EmptyString => None
  | String c r =>
      if Ascii.eqb c "+" then read_digits 6 0 r
      else if Ascii.eqb c "-"
           then obind (read_digits 6 0 r) (fun yr => Some (- fst yr, snd yr))
           else read_digits 4 0 s
  end.

(** The time value of a text in the format of [toISOString]; any other text
    is no timestamp of the data model. *)
Definition Date_parse (s : string) : option Z :=
  obind (read_year s) (fun '(y, s1) =>
  obind (expect "-" s1) (fun s2 =>
  obind (read_digits 2 0 s2) (fun '(m, s3) =>
  obind (expect "-" s3) (fun s4 =>
  obind (read_digits 2 0 s4) (fun '(d, s5) =>
  obind (expect "T" s5) (fun s6 =>
  obind (read_digits 2 0 s6) (fun '(hh, s7) =>
  obind (expect ":" s7) (fun s8 =>
  obind (read_digits 2 0 s8) (fun '(mi, s9) =>
  obind (expect ":" s9) (fun s10 =>
  obind (read_digits 2 0 s10) (fun '(ss, s11) =>
  obind (expect "." s11) (fun s12 =>
  obind (read_digits 3 0 s12) (fun '(ms, s13) =>
  obind (expect "Z" s13) (fun s14 =>
    let t := days_from_civil y m d * msPerDay
             + hh * 3600000 + mi * 60000 + ss * 1000 + ms in
    match s14 with
    | EmptyString => if (toISOString t =? s)%string then Some t else None
    | String _ _ => None
    end)))))))))))))).

(** ** [JSON.parse] *)

Definition is_ws (c : ascii) : bool :=
  let n := N_of_ascii c in
  ((n =? 32) || (n =? 9) || (n =? 10) || (n =? 13))%N.

Fixpoint skip_ws (s : string) : string :=
  match s with
  | EmptyString => EmptyString
  | String c r => if is_ws c then skip_ws r else s
  end.

Definition hex_value (c : ascii) : option N :=
  let n := N_of_ascii c in
  if ((48 <=? n) && (n <=? 57))%N then Some (n - 48)%N
  else if ((97 <=? n) && (n <=? 102))%N then Some (n - 87)%N
  else if ((65 <=? n) && (n <=? 70))%N then Some (n - 55)%N
  else None.

(** The character an escape [\c] stands for ([\u] apart). *)
Definition simple_escape (c : ascii) : option ascii :=
  let n := N_of_ascii c in
  if (n =? 34)%N || (n =? 92)%N || (n =? 47)%N then Some c
  else if (n =? 98)%N then Some (ascii_of_N 8)
  else if (n =? 102)%N then Some (ascii_of_N 12)
  else if (n =? 110)%N then Some (ascii_of_N 10)
  else if (n =? 114)%N then Some (ascii_of_N 13)
  else if (n =? 116)%N then Some (ascii_of_N 9)
  else None.

(** The code unit four hexadecimal digits name. *)
Definition hex4 (h1 h2 h3 h4 : ascii) : option N :=
  match hex_value h1, hex_value h2, hex_value h3, hex_value h4 with
  | Some a, Some b, Some c, Some d => Some (4096 * a + 256 * b + 16 * c + d)%N
  | _, _, _, _ => None
  end.

(** The encoding of a code point. *)
Definition utf8 (cp : N) : string :=
  if (cp <? 128)%N then String (ascii_of_N cp) ""
  else if (cp <? 2048)%N then
    String (ascii_of_N (192 + cp / 64))
      (String (ascii_of_N (128 + cp mod 64)) "")
  else if (cp <? 65536)%N then
    String (ascii_of_N (224 + cp / 4096))
      (String (ascii_of_N (128 + (cp / 64) mod 64))
         (String (ascii_of_N (128 + cp mod 64)) ""))
  else
    String (ascii_of_N (240 + cp / 262144))
      (String (ascii_of_N (128 + (cp / 4096) mod 64))
         (String (ascii_of_N (128 + (cp / 64) mod 64))
            (String (ascii_of_N (128 + cp mod 64)) ""))).

(** The low surrogate that an escape names at the head of [s], and what
    follows the escape. *)
Definition low_surrogate_escape (s : string) : option (N * string) :=
  match s with
  | String b (String u (String l1 (String l2 (String l3 (String l4 r))))) =>
      if ((N_of_ascii b =? 92) && (N_of_ascii u =? 117))%N then
        match hex4 l1 l2 l3 l4 with
        | Some lo =>
            if ((56320 <=? lo) && (lo <? 57344))%N then Some (lo, r) else None
        | None => None
        end
      else None
  | _ => None
  end.

(** The characters of a string literal after its opening quotation mark.
    Two escapes that name a high and a low surrogate stand for one
    character. *)
Fixpoint parse_string (s : string) : option (string * string) :=
  match s with
  | EmptyString => None
  | String c r =>
      let n := N_of_ascii c in
      if (n =? 34)%N then Some (EmptyString, r)
      else if (n =? 92)%N then
        match r with
        | EmptyString => None
        | String e r1 =>
            if (N_of_ascii e =? 117)%N then
              match r1 with
              | String h1 (String h2 (String h3 (String h4 r2))) =>
                  match hex4 h1 h2 h3 h4 with
                  | Some cu =>
                      if ((55296 <=? cu) && (cu <? 56320))%N then
                        match r2 with
                        | String _ (String _ (String _ (String _
                            (String _ (String _ r3))))) =>
                            match low_surrogate_escape r2 with
                            | Some (lo, _) =>
                                obind (parse_string r3) (fun '(t, rest) =>
                                  Some (utf8 (65536 + (cu - 55296) * 1024
                                              + (lo - 56320)) ++ t, rest))
                            | None =>
                                obind (parse_string r2) (fun '(t, rest) =>
                                  Some (utf8 cu ++ t, rest))
                            end
                        | _ =>
                            obind (parse_string r2) (fun '(t, rest) =>
                              Some (utf8 cu ++ t, rest))
                        end
                      else
                        obind (parse_string r2) (fun '(t, rest) =>
                          Some (utf8 cu ++ t, rest))
                  | None => None
                  end
              | _ => None
              end
            else
              match simple_escape e with
              | Some c' =>
                  obind (parse_string r1) (fun '(t, rest) =>
                    Some (String c' t, rest))
              | None => None
              end
        end
      else if (n <? 32)%N then None
      else obind (parse_string r) (fun '(t, rest) => Some (String c t, rest))
  end.

(** The digits of a numeral, most significant first. *)
Fixpoint read_numeral (acc : Z) (s : string) : Z * string :=
  match s with
  | EmptyString => (acc, s)
  | String c r =>
      match char_digit c with
      | Some d => read_numeral (10 * acc + d) r
      | None => (acc, s)
      end
  end.

(** The digits of a fraction, counted. *)
Fixpoint read_fraction (acc : Z) (count : nat) (s : string)
  : Z * nat * string :=
  match s with
  | EmptyString => (acc, count, s)
  | String c r =>
      match char_digit c with
      | Some d => read_fraction (10 * acc + d) (S count) r
      | None => (acc, count, s)
      end
  end.

Definition starts_with_digit (s : string) : bool :=
  match s with
  | String c _ => match char_digit c with Some _ => true | None => false end
  | EmptyString => false
  end.

(** [int]: 0, or a digit from 1 to 9 followed by digits. *)
Definition parse_int (s : string) : option (Z * string) :=
  match s with
  | EmptyString => None
  | String c r =>
      match char_digit c with
      | None => None
      | Some d => Some (if d =? 0 then (0, r) else read_numeral d r)
      end
  end.

(** [frac]: a point followed by one digit at least. *)
Definition parse_frac (int : Z) (s : string) : option (Z * nat * string) :=
  match s with
  | String c r =>
      if Ascii.eqb c "."
      then if starts_with_digit r then Some (read_fraction int 0 r) else None
      else Some (int, 0%nat, s)
  | EmptyString => Some (int, 0%nat, s)
  end.

(** [exp]: e or E, a sign or none, and one digit at least. *)
Definition parse_exp (s : string) : option (Z * string) :=
  match s with
  | String c r =>
      if Ascii.eqb c "e" || Ascii.eqb c "E" then
        let '(negative, digits) :=
          match r with
          | String sign r' =>
              if Ascii.eqb sign "+" then (false, r')
              else if Ascii.eqb sign "-" then (true, r')
                   else (false, r)
          | EmptyString => (false, r)
          end in
        if starts_with_digit digits then
          let '(e, rest) := read_numeral 0 digits in
          Some (if negative then - e else e, rest)
        else None
      else Some (0, s)
  | EmptyString => Some (0, s)
  end.

(** The number [m / 10^f] for [m] not zero. *)
Fixpoint reduce (f : nat) (m : Z) : number :=
  match f with
  | O => Int m
  | S f' =>
      if m mod 10 =? 0 then reduce f' (m / 10)
      else Frac m (Pos.of_succ_nat f')
  end.

(** The number [(-1)^negative * m * 10^(e - f)]. *)
Definition make_number (negative : bool) (m : Z) (f : nat) (e : Z) : number :=
  if m =? 0 then (if negative then NegZero else Int 0)
  else
    let m' := if negative then - m else m in
    let x := e - Z.of_nat f in
    if 0 <=? x then Int (m' * 10 ^ x) else reduce (Z.to_nat (- x)) m'.

(** A numeral: a sign or none, [int], and [frac] and [exp] or none. *)
Definition parse_unsigned (negative : bool) (s : string)
  : option (number * string) :=
  obind (parse_int s) (fun '(int, r1) =>
  obind (parse_frac int r1) (fun '(m, f, r2) =>
  obind (parse_exp r2) (fun '(e, rest) =>
    Some (make_number negative m f e, rest)))).

Definition parse_number (s : string) : option (number * string) :=
  match s with
  | EmptyString => None
  | String c r =>
      if Ascii.eqb c "-" then parse_unsigned true r
      else parse_unsigned false s
  end.


Fixpoint expect_word (word s : string) : option string :=
  match word with
  | EmptyString => Some s
  | String c word' =>
      match s with
      | EmptyString => None
      | String c' r => if Ascii.eqb c c' then expect_word word' r else None
      end
  end.

Fixpoint parse_value (fuel : nat) (s : string) : option (value * string) :=
  match fuel with
  | O => None
  | S fuel' =>
      match skip_ws s with
      | EmptyString => None
      | String c r =>
          let n := N_of_ascii c in
          if (n =? 110)%N then
            obind (expect_word "ull" r) (fun rest => Some (VNull, rest))
          else if (n =? 116)%N then
            obind (expect_word "rue" r) (fun rest => Some (VBool true, rest))
          else if (n =? 102)%N then
            obind (expect_word "alse" r) (fun rest => Some (VBool false, rest))
          else if (n =? 34)%N then
            obind (parse_string r) (fun '(t, rest) => Some (VStr t, rest))
          else if (n =? 91)%N then
            match skip_ws r with
            | String c' r' =>
                if (N_of_ascii c' =? 93)%N then Some (VArr [], r')
                else obind (parse_elements fuel' r)
                       (fun '(vs, rest) => Some (VArr vs, rest))
            | EmptyString => None
            end
          else if (n =? 123)%N then
            match skip_ws r with
            | String c' r' =>
                if (N_of_ascii c' =? 125)%N then Some (VObj [], r')
                else obind (parse_members fuel' r)
                       (fun '(ms, rest) => Some (VObj (obj_define [] ms), rest))
            | EmptyString => None
            end
          else
            obind (parse_number (String c r))
              (fun '(z, rest) => Some (VNum z, rest))
      end
  end

with parse_elements (fuel : nat) (s : string) : option (list value * string) :=
  match fuel with
  | O => None
  | S fuel' =>
      obind (parse_value fuel' s) (fun '(v, r) =>
        match skip_ws r with
        | EmptyString => None
        | String c r' =>
            let n := N_of_ascii c in
            if (n =? 44)%N then
              obind (parse_elements fuel' r')
                (fun '(vs, rest) => Some (v :: vs, rest))
            else if (n =? 93)%N then Some ([v], r')
            else None
        end)
  end

with parse_members (fuel : nat) (s : string)
  : option (list (string * value) * string) :=
  match fuel with
  | O => None
  | S fuel' =>
      match skip_ws s with
      | EmptyString => None
      | String q r =>
          if (N_of_ascii q =? 34)%N then
            obind (parse_string r) (fun '(k, r1) =>
              match skip_ws r1 with
              | EmptyString => None
              | String colon r2 =>
                  if (N_of_ascii colon =? 58)%N then
                    obind (parse_value fuel' r2) (fun '(v, r3) =>
                      match skip_ws r3 with
                      | EmptyString => None
                      | String c r4 =>
                          let n := N_of_ascii c in
                          if (n =? 44)%N then
                            obind (parse_members fuel' r4)
                              (fun '(ms, rest) => Some ((k, v) :: ms, rest))
                          else if (n =? 125)%N then Some ([(k, v)], r4)
                          else None
                      end)
                  else None
              end)
          else None
      end
  end.

Definition JSON_parse (text : string) : outcome value :=
  match parse_value (S (String.length text)) text with
  | Some (v, rest) =>
      match skip_ws rest with
      | EmptyString => Return v
      | String _ _ =>
          Throw (SyntaxError "Unexpected non-whitespace character after JSON")
      end
  | None => Throw (SyntaxError "Unexpected token in JSON")
  end.

(** ** The data model

    The levels 'info', 'warning', 'error' and 'debug', the eight
    categories, and [LogEntry] with its optional fields. *)

Inductive Level : Type := LInfo | LWarning | LError | LDebug.

Inductive Category : Type :=
| CSystem | CProvider | CUser | CError | CApi | CAuth | CDatabase | CNetwork.

Definition level_name (l : Level) : string :=
  match l with
  | LInfo => "info" | LWarning => "warning" | LError => "error"
  | LDebug => "debug"
  end.

Definition category_name (c : Category) : string :=
  match c with
  | CSystem => "system" | CProvider => "provider" | CUser => "user"
  | CError => "error" | CApi => "api" | CAuth => "auth"
  | CDatabase => "database" | CNetwork => "network"
  end.

Definition level_eqb (a b : Level) : bool :=
  (level_name a =? level_name b)%string.

Definition category_eqb (a b : Category) : bool :=
  (category_name a =? category_name b)%string.

Module LogEntry.
Record t : Type := {
  id : string;
  timestamp : Z;
  level : Level;
  message : string;
  details : option (list (string * value));
  category : Category;
  subCategory : option string;
  duration : option number;
  statusCode : option number
}.
End LogEntry.

Abbreviation LogEntry := LogEntry.t.

Definition MAX_LOGS : nat := 1000.

(** The entry as a JavaScript object; an absent optional field reads
    [undefined]. *)
Definition optional {A : Type} (f : A -> value) (o : option A) : value :=
  match o with
  | Some a => f a
  | None => VUndefined
  end.

Definition value_of_entry (e : LogEntry) : value :=
  VObj [ ("id", VStr (LogEntry.id e));
         ("timestamp", VStr (toISOString (LogEntry.timestamp e)));
         ("level", VStr (level_name (LogEntry.level e)));
         ("message", VStr (LogEntry.message e));
         ("details", optional VObj (LogEntry.details e));
         ("category", VStr (category_name (LogEntry.category e)));
         ("subCategory", optional VStr (LogEntry.subCategory e));
         ("duration", optional VNum (LogEntry.duration e));
         ("statusCode", optional VNum (LogEntry.statusCode e)) ].

Definition value_of_logs (logs : list (string * LogEntry)) : value :=
  VObj (map (fun kv => (fst kv, value_of_entry (snd kv))) logs).

(** ** The world an operation runs in

    [_logs] is the object held by [this._logs] and [showLogs] the flag of
    that name; [cookie] is the cookie [eventLogs] ([None] when absent);
    [diagnostics] lists the calls of [logger.error], oldest first; [clock]
    gives the successive readings of the clock and [ticks] counts those
    taken so far; [random] and [draws] do the same for the suffix drawn
    from [Math.random]. *)

Record World : Type := {
  _logs : list (string * LogEntry);
  showLogs : bool;
  cookie : option string;
  diagnostics : list (string * exception);
  clock : nat -> Z;
  ticks : nat;
  random : nat -> string;
  draws : nat
}.

Definition M (A : Type) : Type := World -> outcome A * World.

Definition ret {A : Type} (a : A) : M A := fun w => (Return a, w).

Definition bind {A B : Type} (m : M A) (k : A -> M B) : M B :=
  fun w =>
    match m w with
    | (Return a, w') => k a w'
    | (Throw e, w') => (Throw e, w')
    end.

Definition try_catch {A : Type} (m : M A) (handler : exception -> M A) : M A :=
  fun w =>
    match m w with
    | (Return a, w') => (Return a, w')
    | (Throw e, w') => handler e w'
    end.

Definition lift {A : Type} (r : outcome A) : M A := fun w => (r, w).

Notation "x <- m ;; k" := (bind m (fun x => k))
  (at level 61, m at next level, right associativity).
Notation "m ;;; k" := (bind m (fun _ => k))
  (at level 61, right associativity).

Definition with_logs (logs : list (string * LogEntry)) (w : World) : World :=
  {| _logs := logs; showLogs := showLogs w; cookie := cookie w;
     diagnostics := diagnostics w; clock := clock w; ticks := ticks w;
     random := random w; draws := draws w |}.

Definition with_showLogs (b : bool) (w : World) : World :=
  {| _logs := _logs w; showLogs := b; cookie := cookie w;
     diagnostics := diagnostics w; clock := clock w; ticks := ticks w;
     random := random w; draws := draws w |}.

Definition with_cookie (c : option string) (w : World) : World :=
  {| _logs := _logs w; showLogs := showLogs w; cookie := c;
     diagnostics := diagnostics w; clock := clock w; ticks := ticks w;
     random := random w; draws := draws w |}.

Definition with_diagnostics (d : list (string * exception)) (w : World)
  : World :=
  {| _logs := _logs w; showLogs := showLogs w; cookie := cookie w;
     diagnostics := d; clock := clock w; ticks := ticks w;
     random := random w; draws := draws w |}.

(** The world after [n] readings of the clock and [k] draws. *)
Definition advance (n k : nat) (w : World) : World :=
  {| _logs := _logs w; showLogs := showLogs w; cookie := cookie w;
     diagnostics := diagnostics w; clock := clock w;
     ticks := (n + ticks w)%nat; random := random w;
     draws := (k + draws w)%nat |}.

Definition logs_get : M (list (string * LogEntry)) :=
  fun w => (Return (_logs w), w).

Definition logs_set (logs : list (string * LogEntry)) : M unit :=
  fun w => (Return tt, with_logs logs w).

Definition logs_setKey (key : string) (entry : LogEntry) : M unit :=
  fun w => logs_set (obj_set key entry (_logs w)) w.

Definition showLogs_set (b : bool) : M unit :=
  fun w => (Return tt, with_showLogs b w).

Definition Cookies_get : M (option string) :=
  fun w => (Return (cookie w), w).

Definition Cookies_set (blob : string) : M unit :=
  fun w => (Return tt, with_cookie (Some blob) w).

Definition logger_error (msg : string) (e : exception) : M unit :=
  fun w => (Return tt, with_diagnostics (diagnostics w ++ [(msg, e)]) w).

(** [Date.now()], and the time value of [new Date()]. *)
Definition Date_now : M Z :=
  fun w => (Return (clock w (ticks w)), advance 1 0 w).

(** [Math.random().toString(36).substr(2, 9)]. *)
Definition Math_random_suffix : M string :=
  fun w => (Return (random w (draws w)), advance 0 1 w).

(** ** The operations of [LogStore] *)

(** The map is an object, so its serialization is a string; js-cookie
    would write the text of any other value. *)
Definition _saveLogs : M unit :=
  currentLogs <- logs_get ;;
  blob <- lift (JSON_stringify (value_of_logs currentLogs)) ;;
  Cookies_set (match blob with Some s => s | None => "undefined" end).

Definition _generateId : M string :=
  now <- Date_now ;;
  suffix <- Math_random_suffix ;;
  ret (Number_toString (Int now) ++ "-" ++ suffix).

(** The comparator of both sorts: the more recent entry comes first. *)
Definition by_timestamp_desc (a b : LogEntry) : Z :=
  LogEntry.timestamp b - LogEntry.timestamp a.

Definition _trimLogs : M unit :=
  logs <- logs_get ;;
  let currentLogs := Object_entries logs in
  if (MAX_LOGS <? List.length currentLogs)%nat then
    let sortedLogs :=
      Array_sort (fun x y => by_timestamp_desc (snd x) (snd y)) currentLogs in
    let newLogs := Object_fromEntries (firstn MAX_LOGS sortedLogs) in
    logs_set newLogs
  else ret tt.

Definition default {A : Type} (d : A) (o : option A) : A :=
  match o with
  | Some a => a
  | None => d
  end.

Definition addLog (message : string) (level : option Level)
  (category : option Category) (details : option (list (string * value)))
  : M string :=
  id <- _generateId ;;
  now <- Date_now ;;
  let entry :=
    {| LogEntry.id := id;
       LogEntry.timestamp := now;
       LogEntry.level := default LInfo level;
       LogEntry.message := message;
       LogEntry.details := details;
       LogEntry.category := default CSystem category;
       LogEntry.subCategory := None;
       LogEntry.duration := None;
       LogEntry.statusCode := None |} in
  logs_setKey id entry ;;;
  _trimLogs ;;;
  _saveLogs ;;;
  ret id.

Definition logSystem (message : string) details : M string :=
  addLog message (Some LInfo) (Some CSystem) details.

Definition logProvider (message : string) details : M string :=
  addLog message (Some LInfo) (Some CProvider) details.

Definition logUserAction (message : string) details : M string :=
  addLog message (Some LInfo) (Some CUser) details.

Definition logAPIRequest (endpoint method : string)
  (duration statusCode : number)
  (details : option (list (string * value))) : M string :=
  let message :=
    method ++ " " ++ endpoint ++ " - " ++ Number_toString statusCode
      ++ " (" ++ Number_toString duration ++ "ms)" in
  let level :=
    if at_least 400 statusCode then LError
    else if at_least 300 statusCode then LWarning else LInfo in
  now <- Date_now ;;
  addLog message (Some level) (Some CApi)
    (Some (spread details
             [ ("endpoint", VStr endpoint); ("method", VStr method);
               ("duration", VNum duration); ("statusCode", VNum statusCode);
               ("timestamp", VStr (toISOString now)) ])).

Inductive AuthAction : Type := login | logout | token_refresh | key_validation.

Definition action_name (a : AuthAction) : string :=
  match a with
  | login => "login" | logout => "logout"
  | token_refresh => "token_refresh" | key_validation => "key_validation"
  end.

Definition logAuth (action : AuthAction) (success : bool)
  (details : option (list (string * value))) : M string :=
  let message :=
    "Auth " ++ action_name action ++ " - "
      ++ (if success then "Success" else "Failed") in
  let level := if success then LInfo else LError in
  now <- Date_now ;;
  addLog message (Some level) (Some CAuth)
    (Some (spread details
             [ ("action", VStr (action_name action));
               ("success", VBool success);
               ("timestamp", VStr (toISOString now)) ])).

Inductive NetworkStatus : Type := online | offline | reconnecting | connected.

Definition status_name (s : NetworkStatus) : string :=
  match s with
  | online => "online" | offline => "offline"
  | reconnecting => "reconnecting" | connected => "connected"
  end.

Definition logNetworkStatus (status : NetworkStatus)
  (details : option (list (string * value))) : M string :=
  let message := "Network " ++ status_name status in
  let level :=
    match status with
    | offline => LError
    | reconnecting => LWarning
    | _ => LInfo
    end in
  now <- Date_now ;;
  addLog message (Some level) (Some CNetwork)
    (Some (spread details
             [ ("status", VStr (status_name status));
               ("timestamp", VStr (toISOString now)) ])).

Definition logDatabase (operation : string) (success : bool)
  (duration : number)
  (details : option (list (string * value))) : M string :=
  let message :=
    "DB " ++ operation ++ " - " ++ (if success then "Success" else "Failed")
      ++ " (" ++ Number_toString duration ++ "ms)" in
  let level := if success then LInfo else LError in
  now <- Date_now ;;
  addLog message (Some level) (Some CDatabase)
    (Some (spread details
             [ ("operation", VStr operation); ("success", VBool success);
               ("duration", VNum duration);
               ("timestamp", VStr (toISOString now)) ])).

(** The second argument of [logError]: an [Error] object or anything else. *)
Inductive caught : Type :=
| AnError (name message : string) (stack : option string)
| NotAnError (v : value).

Definition logError (message : string) (error : caught)
  (details : option (list (string * value))) : M string :=
  let errorDetails :=
    match error with
    | AnError name msg stack =>
        obj_define []
          ([ ("name", VStr name); ("message", VStr msg);
             ("stack", optional VStr stack) ]
             ++ default [] details)
    | NotAnError v => obj_define [] (("error", v) :: default [] details)
    end in
  addLog message (Some LError) (Some CError) (Some errorDetails).

Definition logWarning (message : string) details : M string :=
  addLog message (Some LWarning) (Some CSystem) details.

Definition logDebug (message : string) details : M string :=
  addLog message (Some LDebug) (Some CSystem) details.

Definition clearLogs : M unit :=
  logs_set [] ;;;
  _saveLogs.

Definition getLogs : M (list LogEntry) :=
  logs <- logs_get ;;
  ret (Array_sort by_timestamp_desc (Object_values logs)).

(** [Array.prototype.filter] with a callback that may throw. *)
Fixpoint Array_filter {A : Type} (f : A -> outcome bool) (l : list A)
  : outcome (list A) :=
  match l with
  | [] => Return []
  | x :: r =>
      match f x with
      | Throw e => Throw e
      | Return keep =>
          match Array_filter f r with
          | Throw e => Throw e
          | Return r' => Return (if keep then x :: r' else r')
          end
      end
  end.

(** A string is falsy when it is empty; [undefined] is falsy. *)
Definition falsy_string (s : option string) : bool :=
  match s with
  | Some (String _ _) => false
  | _ => true
  end.

(** [s.toLowerCase()] where [s] may be [undefined]. *)
Definition method_toLowerCase (s : option string) : outcome string :=
  match s with
  | Some t => Return (toLowerCase t)
  | None =>
      Throw (TypeError
               "Cannot read properties of undefined (reading 'toLowerCase')")
  end.

Definition matches (level : option Level) (category : option Category)
  (searchQuery : option string) (log : LogEntry) : outcome bool :=
  let matchesLevel :=
    match level with
    | None => true
    | Some l => level_eqb l LDebug || level_eqb (LogEntry.level log) l
    end in
  let matchesCategory :=
    match category with
    | None => true
    | Some c => category_eqb (LogEntry.category log) c
    end in
  match
    (if falsy_string searchQuery then Return true
     else
       let q := toLowerCase (default "" searchQuery) in
       if includes (toLowerCase (LogEntry.message log)) q then Return true
       else
         match JSON_stringify (optional VObj (LogEntry.details log)) with
         | Throw e => Throw e
         | Return text =>
             match method_toLowerCase text with
             | Throw e => Throw e
             | Return lowered => Return (includes lowered q)
             end
         end)
  with
  | Throw e => Throw e
  | Return matchesSearch =>
      Return (matchesLevel && matchesCategory && matchesSearch)
  end.

Definition getFilteredLogs (level : option Level) (category : option Category)
  (searchQuery : option string) : M (list LogEntry) :=
  logs <- getLogs ;;
  lift (Array_filter (matches level category searchQuery) logs).

(** ** Loading: the parsed blob as a [Record<string, LogEntry>]

    [JSON.parse] returns a value of any shape and the store takes it as it
    is. A value is a map of entries when it is the object [value_of_logs]
    writes, absent optional fields left out. *)

Definition level_of_name (s : string) : option Level :=
  if (s =? "info")%string then Some LInfo
  else if (s =? "warning")%string then Some LWarning
  else if (s =? "error")%string then Some LError
  else if (s =? "debug")%string then Some LDebug
  else None.

Definition category_of_name (s : string) : option Category :=
  if (s =? "system")%string then Some CSystem
  else if (s =? "provider")%string then Some CProvider
  else if (s =? "user")%string then Some CUser
  else if (s =? "error")%string then Some CError
  else if (s =? "api")%string then Some CApi
  else if (s =? "auth")%string then Some CAuth
  else if (s =? "database")%string then Some CDatabase
  else if (s =? "network")%string then Some CNetwork
  else None.

Definition as_string (v : value) : option string :=
  match v with
  | VStr s => Some s
  | _ => None
  end.

Definition as_number (v : value) : option number :=
  match v with
  | VNum x => Some x
  | _ => None
  end.

Definition as_object (v : value) : option (list (string * value)) :=
  match v with
  | VObj props => Some props
  | _ => None
  end.

(** The next property when it is named [k]. *)
Definition take_field (k : string) (fields : list (string * value))
  : option value * list (string * value) :=
  match fields with
  | (k', v) :: r => if (k =? k')%string then (Some v, r) else (None, fields)
  | [] => (None, [])
  end.

Definition required {A : Type} (read : value -> option A) (v : option value)
  : option A :=
  obind v read.

Definition possible {A : Type} (read : value -> option A) (v : option value)
  : option (option A) :=
  match v with
  | None => Some None
  | Some x => obind (read x) (fun a => Some (Some a))
  end.

Definition entry_of_value (v : value) : option LogEntry :=
  obind (as_object v) (fun f0 =>
  let '(v_id, f1) := take_field "id" f0 in
  let '(v_timestamp, f2) := take_field "timestamp" f1 in
  let '(v_level, f3) := take_field "level" f2 in
  let '(v_message, f4) := take_field "message" f3 in
  let '(v_details, f5) := take_field "details" f4 in
  let '(v_category, f6) := take_field "category" f5 in
  let '(v_subCategory, f7) := take_field "subCategory" f6 in
  let '(v_duration, f8) := take_field "duration" f7 in
  let '(v_statusCode, f9) := take_field "statusCode" f8 in
  match f9 with
  | _ :: _ => None
  | [] =>
      obind (required as_string v_id) (fun id =>
      obind (obind (required as_string v_timestamp) Date_parse)
        (fun timestamp =>
      obind (obind (required as_string v_level) level_of_name) (fun level =>
      obind (required as_string v_message) (fun message =>
      obind (possible as_object v_details) (fun details =>
      obind (obind (required as_string v_category) category_of_name)
        (fun category =>
      obind (possible as_string v_subCategory) (fun subCategory =>
      obind (possible as_number v_duration) (fun duration =>
      obind (possible as_number v_statusCode) (fun statusCode =>
        Some {| LogEntry.id := id;
                LogEntry.timestamp := timestamp;
                LogEntry.level := level;
                LogEntry.message := message;
                LogEntry.details := details;
                LogEntry.category := category;
                LogEntry.subCategory := subCategory;
                LogEntry.duration := duration;
                LogEntry.statusCode := statusCode |})))))))))
  end).

Fixpoint entries_of_props (props : list (string * value))
  : option (list (string * LogEntry)) :=
  match props with
  | [] => Some []
  | (k, v) :: r =>
      obind (entry_of_value v) (fun e =>
      obind (entries_of_props r) (fun r' => Some ((k, e) :: r')))
  end.

Definition logs_of_value (v : value) : option (list (string * LogEntry)) :=
  obind (as_object v) entries_of_props.

(** What [this._logs] holds after loading: a map of entries, kept in
    [_logs]; or a value [v] of another shape, which the operations below
    are not about ([_logs] is then left as it was). *)
Inductive held : Type :=
| Typed
| Foreign (v : value).

Definition _loadLogs : M held :=
  savedLogs <- Cookies_get ;;
  if falsy_string savedLogs then ret Typed
  else
    try_catch
      (parsedLogs <- lift (JSON_parse (default "" savedLogs)) ;;
       match logs_of_value parsedLogs with
       | Some logs => logs_set logs ;;; ret Typed
       | None => ret (Foreign parsedLogs)
       end)
      (fun error =>
         logger_error "Failed to parse logs from cookies:" error ;;;
         ret Typed).

(** [new LogStore()]: the field initialisers, then the constructor body. *)
Definition new_LogStore : M held :=
  logs_set [] ;;;
  showLogs_set true ;;;
  _loadLogs.

(** ** Vocabulary of the statements *)

(** What [addLog] does with the entry it has built. *)
Definition insert (entry : LogEntry) : M string :=
  logs_setKey (LogEntry.id entry) entry ;;;
  _trimLogs ;;;
  _saveLogs ;;;
  ret (LogEntry.id entry).

(** The map [_trimLogs] leaves. *)
Definition trimmed (logs : list (string * LogEntry))
  : list (string * LogEntry) :=
  let currentLogs := Object_entries logs in
  if (MAX_LOGS <? List.length currentLogs)%nat then
    Object_fromEntries
      (firstn MAX_LOGS
         (Array_sort (fun x y => by_timestamp_desc (snd x) (snd y))
            currentLogs))
  else logs.

(** The timestamp of a property of the map. *)
Definition ts (x : string * LogEntry) : Z := LogEntry.timestamp (snd x).

(** The arguments of one call of [addLog]. *)
Definition call : Type :=
  (string * option Level * option Category
   * option (list (string * value)))%type.

(** The entry [addLog] builds for a call in the world [w]. *)
Definition entry_built (c : call) (w : World) : LogEntry :=
  let '(message, level, category, details) := c in
  {| LogEntry.id :=
       Number_toString (Int (clock w (ticks w))) ++ "-" ++ random w (draws w);
     LogEntry.timestamp := clock w (S (ticks w));
     LogEntry.level := default LInfo level;
     LogEntry.message := message;
     LogEntry.details := details;
     LogEntry.category := default CSystem category;
     LogEntry.subCategory := None;
     LogEntry.duration := None;
     LogEntry.statusCode := None |}.

(** The calls run one after the other; the caller catches what a call
    throws and goes on. *)
Fixpoint addLog_all (calls : list call) (w : World)
  : list (outcome string) * World :=
  match calls with
  | [] => ([], w)
  | (message, level, category, details) :: rest =>
      let '(r, w1) := addLog message level category details w in
      let '(rs, w2) := addLog_all rest w1 in
      (r :: rs, w2)
  end.

(** The entries the calls build, in order. *)
Fixpoint built (calls : list call) (w : World) : list LogEntry :=
  match calls with
  | [] => []
  | c :: rest => entry_built c w :: built rest (advance 2 1 w)
  end.

(** A fresh session: nothing stored, a clock that advances by one
    millisecond per reading, and a constant random suffix. *)
Definition session : World :=
  {| _logs := []; showLogs := true; cookie := None; diagnostics := [];
     clock := fun n => Z.of_nat n + 1700000000000; ticks := 0;
     random := fun _ => "k3x9q2m1z"; draws := 0 |}.

(** A burst of 1001 calls, and a store that already holds 1000 entries. *)
Definition burst : list call := repeat ("event", None, None, None) 1001.

Definition crowded : World :=
  with_logs
    (map (fun e => (LogEntry.id e, e))
       (built (repeat ("event", None, None, None) 1000) session))
    (advance 2000 1000 session).

Fixpoint distinct (l : list string) : bool :=
  match l with
  | [] => true
  | x :: r => negb (existsb (String.eqb x) r) && distinct r
  end.

(** A session whose cookie holds a truncated blob. *)
Definition corrupted : World := with_cookie (Some "{oops") session.

(** The items of an array and the members of an object, serialized. *)
Fixpoint serialize_items (l : list value) : outcome (list string) :=
  match l with
  | [] => Return []
  | x :: r =>
      match SerializeJSONProperty x with
      | Throw e => Throw e
      | Return sx =>
          match serialize_items r with
          | Throw e => Throw e
          | Return sr =>
              Return (match sx with Some t => t | None => "null" end :: sr)
          end
      end
  end.

Fixpoint serialize_members (l : list (string * value))
  : outcome (list string) :=
  match l with
  | [] => Return []
  | (k, x) :: r =>
      match SerializeJSONProperty x with
      | Throw e => Throw e
      | Return sx =>
          match serialize_members r with
          | Throw e => Throw e
          | Return sr =>
              Return (match sx with
                      | Some t => (QuoteJSONString k ++ ":" ++ t) :: sr
                      | None => sr
                      end)
          end
      end
  end.

(** A string of digits, and the number it spells after [acc]. *)
Fixpoint all_digits (s : string) : bool :=
  match s with
  | EmptyString => true
  | String c r =>
      match char_digit c with Some _ => all_digits r | None => false end
  end.

Fixpoint value_of_digits (acc : Z) (s : string) : Z :=
  match s with
  | EmptyString => acc
  | String c r =>
      match char_digit c with
      | Some d => value_of_digits (10 * acc + d) r
      | None => acc
      end
  end.

(** What may follow a numeral: nothing, or a character that continues
    neither its digits nor a fraction nor an exponent. *)
Definition numeral_stops (rest : string) : bool :=
  match rest with
  | EmptyString => true
  | String c _ =>
      negb (starts_with_digit rest || Ascii.eqb c "." || Ascii.eqb c "e"
            || Ascii.eqb c "E")
  end.

(** The numbers a JSON text can hold: the finite ones, -0 apart; a fraction
    is given by digits that do not end in 0. *)
Definition json_number (x : number) : Prop :=
  match x with
  | Int _ => True
  | Frac m _ => m mod 10 <> 0
  | _ => False
  end.

(** The values JSON has: null, booleans, numbers, strings, arrays and
    objects of such values; an object is the enumeration of its own
    properties. *)
Fixpoint json_value (v : value) : Prop :=
  match v with
  | VUndefined => False
  | VBigInt _ => False
  | VNull => True
  | VBool _ => True
  | VNum x => json_number x
  | VStr _ => True
  | VArr elems =>
      (fix all (l : list value) : Prop :=
         match l with
         | [] => True
         | x :: r => json_value x /\ all r
         end) elems
  | VObj props =>
      obj_define [] props = props
      /\ (fix all (l : list (string * value)) : Prop :=
            match l with
            | [] => True
            | (_, x) :: r => json_value x /\ all r
            end) props
  end.

(** The text of a JSON value. *)
Fixpoint print (v : value) : string :=
  match v with
  | VUndefined => "null"
  | VNull => "null"
  | VBool true => "true"
  | VBool false => "false"
  | VNum x => Number_toString x
  | VBigInt n => integer_text n
  | VStr s => QuoteJSONString s
  | VArr elems => "[" ++ String.concat "," (map print elems) ++ "]"
  | VObj props =>
      "{" ++ String.concat ","
               (map (fun kv => QuoteJSONString (fst kv) ++ ":"
                                 ++ print (snd kv)) props)
          ++ "}"
  end.

(** A bound on the recursion depth of the parser on the text of a value. *)
Fixpoint size (v : value) : nat :=
  match v with
  | VArr elems => S (list_sum (map (fun x => S (size x)) elems))
  | VObj props => S (list_sum (map (fun kv => S (size (snd kv))) props))
  | _ => 1
  end.

(** The characters a numeral starts with. *)
Definition number_start (c : ascii) : Prop :=
  c = "-"%char \/ char_digit c <> None.

(** What may follow a value inside a JSON text: nothing, or one of the
    characters [,] []] and [}]. *)
Definition value_end (rest : string) : Prop :=
  match rest with
  | EmptyString => True
  | String c _ => c = ","%char \/ c = "]"%char \/ c = "}"%char
  end.

(** The place of a key in the enumeration of an object: its index, or past
    every index; and the lists that are such an enumeration. *)
Definition key_rank (k : string) : Z :=
  match array_index k with
  | Some i => i
  | None => 4294967295
  end.

Definition enumerated {A : Type} (o : list (string * A)) : Prop :=
  NoDup (map fst o)
  /\ StronglySorted (fun a b => key_rank (fst a) <= key_rank (fst b)) o.

(** The parser reads the text of [v] back, given fuel beyond its size. *)
Definition parses_back (v : value) : Prop :=
  json_value v ->
  forall fuel rest,
    (size v < fuel)%nat -> value_end rest ->
    parse_value fuel (print v ++ rest) = Some (v, rest).

(** What [JSON.stringify] leaves of an entry and of the map: a property
    whose value is [undefined] is not written. *)
Definition defined (v : value) : bool :=
  match v with
  | VUndefined => false
  | _ => true
  end.

Definition stored_entry (e : LogEntry) : value :=
  VObj (filter (fun kv => defined (snd kv))
          (match value_of_entry e with VObj fields => fields | _ => [] end)).

Definition stored_logs (logs : list (string * LogEntry)) : value :=
  VObj (map (fun kv => (fst kv, stored_entry (snd kv))) logs).

(** The maps the round trip is about: an object of entries whose timestamp
    is a time value and whose details, when present, are JSON. *)
Definition storable_entry (e : LogEntry) : Prop :=
  -8640000000000000 <= LogEntry.timestamp e <= 8640000000000000
  /\ match LogEntry.details e with
     | Some d => json_value (VObj d)
     | None => True
     end
  /\ match LogEntry.duration e with
     | Some x => json_number x
     | None => True
     end
  /\ match LogEntry.statusCode e with
     | Some x => json_number x
     | None => True
     end.

Definition storable (logs : list (string * LogEntry)) : Prop :=
  obj_define [] logs = logs
  /\ Forall (fun kv => storable_entry (snd kv)) logs.

(** The session after an entry whose details hold an array with an
    [undefined] item. *)
Definition measured : World :=
  snd (addLog "sizes" None None (Some [("sizes", VArr [VUndefined])]) session).

(** The details of a caller: an array with a string of two characters
    outside Basic Latin (U+00E9 and U+1F600), null, a boolean and the
    fraction -0.005; and the session after an API request of 12.5
    milliseconds with these details. *)
Definition tagged : list (string * value) :=
  [("tags", VArr [VStr (utf8 233 ++ utf8 128512); VNull; VBool true;
                  VNum (Frac (-5) 3)])].

Definition timed : World :=
  snd (logAPIRequest ("/users/zo" ++ utf8 235) "GET" (Frac 125 1) (Int 404)
         (Some tagged) session).

(** The sessions after an entry whose details hold NaN, -0, and a property
    whose value is [undefined]. *)
Definition rated : World :=
  snd (addLog "rate" None None (Some [("rate", VNum NaN)]) session).

Definition settled : World :=
  snd (addLog "delta" None None (Some [("delta", VNum NegZero)]) session).

Definition noted : World :=
  snd (addLog "note" None None (Some [("note", VUndefined)]) session).

(** ** Vocabulary of the further properties *)

(** Every key of the map is the id of its entry. *)
Definition keyed_by_id (logs : list (string * LogEntry)) : Prop :=
  Forall (fun kv => fst kv = LogEntry.id (snd kv)) logs.

(** The level and category conditions of [getFilteredLogs]. *)
Definition passes (level : option Level) (category : option Category)
  (log : LogEntry) : bool :=
  match level with
  | None => true
  | Some l => level_eqb l LDebug || level_eqb (LogEntry.level log) l
  end
  && match category with
     | None => true
     | Some c => category_eqb (LogEntry.category log) c
     end.

(** The session after one entry has been logged without details. *)
Definition greeted : World := snd (addLog "hello" None None None session).

(** Two calls, the second one at the level error. *)
Definition two_events : list call :=
  [("first", None, None, None); ("second", Some LError, None, None)].

(** A full store whose clock stands still, at a time before every stored
    timestamp. *)
Definition stalled : World :=
  {| _logs := _logs crowded; showLogs := true; cookie := None;
     diagnostics := []; clock := fun _ => 1700000000000; ticks := 0;
     random := fun _ => "a0b1c2d3e"; draws := 0 |}.

(** A session whose clock stands still and whose random source repeats:
    every call generates the same id. *)
Definition frozen : World :=
  {| _logs := []; showLogs := true; cookie := None; diagnostics := [];
     clock := fun _ => 1700000000000; ticks := 0;
     random := fun _ => "k3x9q2m1z"; draws := 0 |}.

(** ** The settings window (UsersWindow.tsx)

    The declarations of [TabType] and [TabVisibilityConfig] are not among
    the sources. The tab types are the keys of [TAB_DESCRIPTIONS]; a tab is
    the properties the window reads ([id], [window], [visible], [order],
    which may be missing) and the list of its other properties, which a
    spread carries over. [updateTabConfiguration] is not among the sources
    either: [moveTab] returns the arguments of its calls, in order. *)

Module UsersWindow.

Inductive TabType : Type :=
| profile | settings | notifications | features | data | providers
| connection | debug | event_logs | update.

Record TabVisibilityConfig : Type := {
  id : TabType;
  visible : bool;
  window : string;
  order : option Z;
  others : list (string * value)
}.

(** [tab.order || 0]. *)
Definition order_or_zero (tab : TabVisibilityConfig) : Z :=
  match order tab with
  | Some n => if n =? 0 then 0 else n
  | None => 0
  end.

(** [tabConfiguration.userTabs.filter(...).sort(...)]. *)
Definition visibleUserTabs (userTabs : list TabVisibilityConfig)
  : list TabVisibilityConfig :=
  Array_sort (fun a b => order_or_zero a - order_or_zero b)
    (filter (fun tab => (window tab =? "user")%string && visible tab)
       userTabs).

(** [array[index]]: [undefined] outside the array. *)
Definition Array_get {A : Type} (l : list A) (index : Z) : option A :=
  if index <? 0 then None else nth_error l (Z.to_nat index).

(** [{ ...tab, order: order }]. *)
Definition with_order (tab : TabVisibilityConfig) (o : option Z)
  : TabVisibilityConfig :=
  {| id := id tab; visible := visible tab; window := window tab;
     order := o; others := others tab |}.

(** Reading [order] of an index outside the array throws: the target is
    read first (for the update of the dragged tab), then the dragged tab. *)
Definition moveTab (visibleUserTabs : list TabVisibilityConfig)
  (dragIndex hoverIndex : Z) : outcome (list TabVisibilityConfig) :=
  let draggedTab := Array_get visibleUserTabs dragIndex in
  let targetTab := Array_get visibleUserTabs hoverIndex in
  match targetTab with
  | None =>
      Throw (TypeError
               "Cannot read properties of undefined (reading 'order')")
  | Some target =>
      match draggedTab with
      | None =>
          Throw (TypeError
                   "Cannot read properties of undefined (reading 'order')")
      | Some dragged =>
          let updatedDraggedTab := with_order dragged (order target) in
          let updatedTargetTab := with_order target (order dragged) in
          Return [updatedDraggedTab; updatedTargetTab]
      end
  end.

(** The [hover] handler of the tile at [index], for the dragged item whose
    [index] property holds [item_index]: the updates [moveTab] makes, and
    the value of [item.index] afterwards. *)
Definition hover (visibleUserTabs : list TabVisibilityConfig)
  (index item_index : Z) : outcome (list TabVisibilityConfig) * Z :=
  if item_index =? index then (Return [], item_index)
  else
    match moveTab visibleUserTabs item_index index with
    | Throw e => (Throw e, item_index)
    | Return updates => (Return updates, index)
    end.

End UsersWindow.

(** Three tabs of the user window, in the order the window shows them. *)
Definition profile_tab : UsersWindow.TabVisibilityConfig :=
  {| UsersWindow.id := UsersWindow.profile; UsersWindow.visible := true;
     UsersWindow.window := "user"; UsersWindow.order := Some 1;
     UsersWindow.others := [] |}.

Definition settings_tab : UsersWindow.TabVisibilityConfig :=
  {| UsersWindow.id := UsersWindow.settings; UsersWindow.visible := true;
     UsersWindow.window := "user"; UsersWindow.order := Some 2;
     UsersWindow.others := [] |}.

Definition data_tab : UsersWindow.TabVisibilityConfig :=
  {| UsersWindow.id := UsersWindow.data; UsersWindow.visible := true;
     UsersWindow.window := "user"; UsersWindow.order := Some 3;
     UsersWindow.others := [] |}.

Definition three_tabs : list UsersWindow.TabVisibilityConfig :=
  [profile_tab; settings_tab; data_tab].

(** * Properties *)

(** ** Objects *)

Lemma obj_get_replace {A : Type} (k k' : string) (v : A) o :
  obj_get k (obj_replace k' v o)
  = if (k =? k')%string
    then match obj_get k o with Some _ => Some v | None => None end
    else obj_get k o.
Proof.
  induction o as [|[k0 v0] o IH]; simpl.
  - destruct (k =? k')%string; reflexivity.
  - destruct (String.eqb_spec k' k0) as [->|Hne]; simpl.
    + destruct (String.eqb_spec k k0); reflexivity.
    + rewrite IH. destruct (String.eqb_spec k k0) as [->|Hne'].
      * destruct (String.eqb_spec k0 k'); [congruence | reflexivity].
      * reflexivity.
Qed.

Lemma obj_get_create {A : Type} (k k' : string) (v : A) o :
  obj_get k' o = None ->
  obj_get k (obj_create k' v o)
  = if (k =? k')%string then Some v else obj_get k o.
Proof.
  induction o as [|[k0 v0] o IH]; simpl; intros Hfresh.
  - reflexivity.
  - destruct (String.eqb_spec k' k0) as [->|Hne]; [discriminate|].
    destruct (enumerated_before k' k0); simpl.
    + reflexivity.
    + rewrite (IH Hfresh).
      destruct (String.eqb_spec k k0) as [->|]; [|reflexivity].
      destruct (String.eqb_spec k0 k'); [congruence | reflexivity].
Qed.

Lemma obj_get_set {A : Type} (k k' : string) (v : A) o :
  obj_get k (obj_set k' v o)
  = if (k =? k')%string then Some v else obj_get k o.
Proof.
  unfold obj_set, obj_has.
  destruct (obj_get k' o) eqn:Hk'.
  - rewrite obj_get_replace.
    destruct (String.eqb_spec k k') as [->|]; [rewrite Hk'|]; reflexivity.
  - apply obj_get_create; assumption.
Qed.

Lemma obj_get_define_other {A : Type} (k : string) (l o : list (string * A)) :
  ~ In k (map fst l) -> obj_get k (obj_define o l) = obj_get k o.
Proof.
  unfold obj_define. revert o.
  induction l as [|[k0 v0] l IH]; simpl; intros o Hk; [reflexivity|].
  rewrite IH by tauto. rewrite obj_get_set.
  destruct (String.eqb_spec k k0); [subst; tauto | reflexivity].
Qed.

Lemma obj_define_app {A : Type} (o l1 l2 : list (string * A)) :
  obj_define o (l1 ++ l2) = obj_define (obj_define o l1) l2.
Proof. unfold obj_define. apply fold_left_app. Qed.

Lemma obj_get_None {A : Type} (k : string) (o : list (string * A)) :
  obj_get k o = None <-> ~ In k (map fst o).
Proof.
  induction o as [|[k0 v0] o IH]; simpl.
  - tauto.
  - destruct (String.eqb_spec k k0) as [->|Hne].
    + split; [discriminate | tauto].
    + rewrite IH. split; [intros H [Heq|Hin]; [congruence | tauto] | tauto].
Qed.

Lemma obj_get_define {A : Type} (k : string) (l : list (string * A)) :
  forall o,
    obj_get k (obj_define o l)
    = match obj_get k (obj_define [] l) with
      | Some v => Some v
      | None => obj_get k o
      end.
Proof.
  unfold obj_define.
  induction l as [|[k0 v0] l IH]; intros o; simpl; [reflexivity|].
  rewrite IH. rewrite (IH (obj_set k0 v0 [])).
  destruct (obj_get k (fold_left _ l [])); [reflexivity|].
  rewrite !obj_get_set. simpl.
  destruct (k =? k0)%string; reflexivity.
Qed.

(** In an object no key occurs twice: the properties defined from the list of
    its own properties are these properties. *)
Lemma obj_get_define_object {A : Type} (k : string) (l : list (string * A)) :
  NoDup (map fst l) -> obj_get k (obj_define [] l) = obj_get k l.
Proof.
  induction l as [|[k0 v0] l IH]; intros Hnd; [reflexivity|].
  inversion Hnd as [|? ? Hk0 Hl]; subst.
  change (obj_define [] ((k0, v0) :: l))
    with (obj_define (obj_set k0 v0 []) l).
  rewrite obj_get_define, (IH Hl). simpl.
  destruct (String.eqb_spec k k0) as [->|Hne].
  - apply obj_get_None in Hk0. rewrite Hk0. reflexivity.
  - destruct (obj_get k l); reflexivity.
Qed.

(** ** The monad *)

Lemma bind_unfold {A B : Type} (m : M A) (k : A -> M B) (w : World) :
  bind m k w
  = match m w with
    | (Return a, w') => k a w'
    | (Throw e, w') => (Throw e, w')
    end.
Proof. reflexivity. Qed.

Lemma addLog_insert message level category details w :
  addLog message level category details w
  = insert (entry_built (message, level, category, details) w)
      (advance 2 1 w).
Proof. reflexivity. Qed.

(** ** The typed helpers *)

Lemma spread_get (details : option (list (string * value))) rest k :
  obj_get k (spread details rest)
  = obj_get k (obj_define (spread details []) rest).
Proof.
  unfold spread. rewrite obj_define_app, app_nil_r. reflexivity.
Qed.

Lemma obj_get_set_same {A : Type} (k : string) (v : A) o :
  obj_get k (obj_set k v o) = Some v.
Proof. rewrite obj_get_set, String.eqb_refl. reflexivity. Qed.

(** What a spread takes over from the caller's details. *)
Lemma spread_caller (details : option (list (string * value))) k :
  match details with
  | Some caller => NoDup (map fst caller)
  | None => True
  end ->
  obj_get k (spread details [])
  = match details with
    | Some caller => obj_get k caller
    | None => None
    end.
Proof.
  unfold spread. rewrite List.app_nil_r.
  destruct details as [caller|]; [apply obj_get_define_object | reflexivity].
Qed.

Lemma logs_setKey_resident k e w :
  obj_get k (_logs (snd (logs_setKey k e w))) = Some e.
Proof. apply obj_get_set_same. Qed.

Ltac get_defined :=
  rewrite spread_get; unfold obj_define; simpl fold_left;
  repeat (rewrite obj_get_set; simpl String.eqb); try reflexivity.

Ltac get_other k :=
  rewrite spread_get; unfold obj_define; simpl fold_left;
  repeat (rewrite obj_get_set;
          match goal with
          | |- context [String.eqb k ?s] =>
              destruct (String.eqb_spec k s); [subst; simpl in *; tauto|]
          end);
  reflexivity.

Ltac get_caller k details Hobject :=
  transitivity (obj_get k (spread details []));
  [get_other k | apply spread_caller, Hobject].

(** C2. [logAPIRequest] inserts an entry whose message is
    "{method} {endpoint} - {statusCode} ({duration}ms)", whose level is
    error from status 400 on, warning from 300 on and info below, whose
    category is api, and whose details hold endpoint, method, duration,
    statusCode and a timestamp and, under every other key, what the
    caller's details hold under it (nothing when the caller gave no details
    or none under that key). The caller's details are an object: no key
    occurs twice among its properties. In particular
    [logAPIRequest "/users" "GET" 120 404] gives the message
    "GET /users - 404 (120ms)", level error, category api and
    details.statusCode = 404. *)
Theorem logAPIRequest_entry :
  (forall (endpoint method : string) (duration statusCode : number)
          (details : option (list (string * value))) (w : World),
      match details with
      | Some caller => NoDup (map fst caller)
      | None => True
      end ->
      exists (e : LogEntry) (w1 : World) (d : list (string * value)),
        logAPIRequest endpoint method duration statusCode details w
        = insert e w1
        /\ obj_get (LogEntry.id e)
             (_logs (snd (logs_setKey (LogEntry.id e) e w1))) = Some e
        /\ LogEntry.message e
           = method ++ " " ++ endpoint ++ " - " ++ Number_toString statusCode
               ++ " (" ++ Number_toString duration ++ "ms)"
        /\ (forall n : Z,
              statusCode = Int n ->
              (400 <= n -> LogEntry.level e = LError)
              /\ (300 <= n < 400 -> LogEntry.level e = LWarning)
              /\ (n < 300 -> LogEntry.level e = LInfo))
        /\ LogEntry.level e
           = (if at_least 400 statusCode then LError
              else if at_least 300 statusCode then LWarning else LInfo)
        /\ LogEntry.category e = CApi
        /\ LogEntry.details e = Some d
        /\ obj_get "endpoint" d = Some (VStr endpoint)
        /\ obj_get "method" d = Some (VStr method)
        /\ obj_get "duration" d = Some (VNum duration)
        /\ obj_get "statusCode" d = Some (VNum statusCode)
        /\ obj_get "timestamp" d
           = Some (VStr (toISOString (clock w (ticks w))))
        /\ (forall k,
              ~ In k ["endpoint"; "method"; "duration"; "statusCode";
                      "timestamp"] ->
              obj_get k d
              = match details with
                | Some caller => obj_get k caller
                | None => None
                end))
  /\ (forall (w : World),
        exists (e : LogEntry) (w1 : World) (d : list (string * value)),
          logAPIRequest "/users" "GET" (Int 120) (Int 404) None w
          = insert e w1
          /\ LogEntry.message e = "GET /users - 404 (120ms)"
          /\ LogEntry.level e = LError
          /\ LogEntry.category e = CApi
          /\ LogEntry.details e = Some d
          /\ obj_get "statusCode" d = Some (VNum (Int 404))).
Proof.
  split.
  - intros endpoint method duration statusCode details w Hobject.
    eexists. exists (advance 3 1 w). eexists.
    split; [unfold logAPIRequest; rewrite bind_unfold; simpl;
            rewrite addLog_insert; reflexivity|].
    split; [apply logs_setKey_resident|].
    simpl LogEntry.message; simpl LogEntry.level; simpl LogEntry.category;
      simpl LogEntry.details.
    split; [reflexivity|].
    split.
    { intros n ->. cbn [at_least].
      destruct (Z.leb_spec 400 n); [repeat split; intros; (reflexivity || lia)|].
      destruct (Z.leb_spec 300 n); repeat split; intros; (reflexivity || lia). }
    split; [reflexivity|].
    split; [reflexivity|].
    split; [reflexivity|].
    split; [get_defined|].
    split; [get_defined|].
    split; [get_defined|].
    split; [get_defined|].
    split; [get_defined|].
    intros k Hk. get_caller k details Hobject.
  - intros w. eexists. exists (advance 3 1 w). eexists.
    split; [unfold logAPIRequest; rewrite bind_unfold; simpl;
            rewrite addLog_insert; reflexivity|].
    repeat split; reflexivity.
Qed.

Lemma logAPIRequest_entry_witness :
  NoDup (map fst [("requestId", VStr "r-17"); ("statusCode", VNum (Int 200))])
  /\ 400 <= 404
  /\ exists (e : LogEntry) (w1 : World) (d : list (string * value)),
       logAPIRequest "/users" "GET" (Frac 1205 1) (Int 404)
         (Some [("requestId", VStr "r-17"); ("statusCode", VNum (Int 200))])
         session
       = insert e w1
       /\ LogEntry.message e = "GET /users - 404 (120.5ms)"
       /\ LogEntry.level e = LError
       /\ LogEntry.details e = Some d
       /\ obj_get "statusCode" d = Some (VNum (Int 404))
       /\ obj_get "requestId" d = Some (VStr "r-17").
Proof.
  assert (Hobject : NoDup (map fst [("requestId", VStr "r-17");
                                    ("statusCode", VNum (Int 200))])).
  { repeat constructor; simpl; intuition discriminate. }
  split; [exact Hobject|]. split; [lia|].
  destruct (proj1 logAPIRequest_entry "/users" "GET" (Frac 1205 1) (Int 404)
              (Some [("requestId", VStr "r-17");
                     ("statusCode", VNum (Int 200))])
              session Hobject)
    as (e & w1 & d & Hrun & _ & Hmessage & Hlevel & _ & _ & Hdetails & _ & _
        & _ & Hstatus & _ & Hcaller).
  exists e, w1, d. split; [exact Hrun|]. split; [exact Hmessage|].
  split; [apply (Hlevel 404 eq_refl); lia|].
  split; [exact Hdetails|]. split; [exact Hstatus|].
  rewrite (Hcaller "requestId"); [reflexivity|].
  simpl. intuition discriminate.
Defined.

(** C9, as the code has it. [logAPIRequest] and [logDatabase] leave the
    fields [duration] and [statusCode] of the entry unset; the duration and
    the status code are properties of its [details]. *)
Theorem api_and_database_measurements_in_details :
  (forall (endpoint method : string) (duration statusCode : number)
          (details : option (list (string * value))) (w : World),
      exists (e : LogEntry) (w1 : World) (d : list (string * value)),
        logAPIRequest endpoint method duration statusCode details w
        = insert e w1
        /\ LogEntry.duration e = None
        /\ LogEntry.statusCode e = None
        /\ LogEntry.subCategory e = None
        /\ LogEntry.details e = Some d
        /\ obj_get "duration" d = Some (VNum duration)
        /\ obj_get "statusCode" d = Some (VNum statusCode))
  /\ (forall (operation : string) (success : bool) (duration : number)
             (details : option (list (string * value))) (w : World),
        exists (e : LogEntry) (w1 : World) (d : list (string * value)),
          logDatabase operation success duration details w = insert e w1
          /\ LogEntry.duration e = None
          /\ LogEntry.statusCode e = None
          /\ LogEntry.subCategory e = None
          /\ LogEntry.details e = Some d
          /\ obj_get "duration" d = Some (VNum duration)).
Proof.
  split.
  - intros endpoint method duration statusCode details w.
    eexists. exists (advance 3 1 w). eexists.
    split; [unfold logAPIRequest; rewrite bind_unfold; simpl;
            rewrite addLog_insert; reflexivity|].
    simpl LogEntry.duration; simpl LogEntry.statusCode;
      simpl LogEntry.subCategory; simpl LogEntry.details.
    repeat (split; [reflexivity|]).
    split; get_defined.
  - intros operation success duration details w.
    eexists. exists (advance 3 1 w). eexists.
    split; [unfold logDatabase; rewrite bind_unfold; simpl;
            rewrite addLog_insert; reflexivity|].
    simpl LogEntry.duration; simpl LogEntry.statusCode;
      simpl LogEntry.subCategory; simpl LogEntry.details.
    repeat (split; [reflexivity|]).
    get_defined.
Qed.

(** C9 as stated fails: after [logAPIRequest "/users" "GET" 120 404] in a
    fresh session the entry resident under the returned id has neither a
    [duration] nor a [statusCode] field. *)
Lemma logAPIRequest_fields_unset :
  exists (key : string) (e : LogEntry),
    fst (logAPIRequest "/users" "GET" (Int 120) (Int 404) None session)
    = Return key
    /\ obj_get key
         (_logs (snd (logAPIRequest "/users" "GET" (Int 120) (Int 404) None
                        session)))
       = Some e
    /\ LogEntry.duration e <> Some (Int 120)
    /\ LogEntry.statusCode e <> Some (Int 404).
Proof.
  eexists. eexists.
  split; [vm_compute; reflexivity|].
  split; [vm_compute; reflexivity|].
  split; simpl; discriminate.
Qed.

(** ** Sorting *)

Lemma sort_insert_perm {A : Type} (cmp : A -> A -> Z) x l :
  Permutation (sort_insert cmp x l) (x :: l).
Proof.
  induction l as [|y l IH]; simpl.
  - apply Permutation_refl.
  - destruct (0 <? cmp x y).
    + eapply perm_trans; [apply perm_skip, IH | apply perm_swap].
    + apply Permutation_refl.
Qed.

Lemma Array_sort_perm {A : Type} (cmp : A -> A -> Z) l :
  Permutation (Array_sort cmp l) l.
Proof.
  induction l as [|x l IH]; simpl.
  - apply perm_nil.
  - eapply perm_trans; [apply sort_insert_perm | apply perm_skip, IH].
Qed.

Section Descending.
Context {A : Type} (key : A -> Z) (cmp : A -> A -> Z).
Hypothesis cmp_key : forall x y, cmp x y = key y - key x.

Lemma sort_insert_descending x l :
  StronglySorted (fun a b => key b <= key a) l ->
  StronglySorted (fun a b => key b <= key a) (sort_insert cmp x l).
Proof.
  induction 1 as [|y l Hl IH Hy]; simpl.
  - constructor; constructor.
  - rewrite cmp_key. destruct (Z.ltb_spec 0 (key y - key x)).
    + constructor; [exact IH|].
      eapply Permutation_Forall;
        [apply Permutation_sym, sort_insert_perm|].
      constructor; [lia | exact Hy].
    + constructor; [constructor; assumption|].
      constructor; [lia|].
      eapply Forall_impl; [|exact Hy]. simpl. intros; lia.
Qed.

Lemma Array_sort_descending l :
  StronglySorted (fun a b => key b <= key a) (Array_sort cmp l).
Proof.
  induction l as [|x l IH]; simpl.
  - constructor.
  - apply sort_insert_descending, IH.
Qed.
End Descending.

(** ** Reading *)

Lemma getLogs_run w :
  getLogs w
  = (Return (Array_sort by_timestamp_desc (Object_values (_logs w))), w).
Proof. reflexivity. Qed.

Lemma getFilteredLogs_run level category searchQuery w :
  getFilteredLogs level category searchQuery w
  = (Array_filter (matches level category searchQuery)
       (Array_sort by_timestamp_desc (Object_values (_logs w))), w).
Proof. reflexivity. Qed.

Lemma Array_filter_all {A : Type} (f : A -> outcome bool) l :
  (forall x, In x l -> f x = Return true) -> Array_filter f l = Return l.
Proof.
  induction l as [|x l IH]; simpl; intros Hall; [reflexivity|].
  rewrite (Hall x) by (left; reflexivity).
  rewrite IH by (intros y Hy; apply Hall; right; exact Hy).
  reflexivity.
Qed.

(** C6. [getLogs] returns all resident entries, the most recent first: its
    result lists the entry of every key of the map, each entry as often as
    the map holds it and nothing else, and is non-increasing in
    [timestamp]. *)
Theorem getLogs_sorted (w : World) :
  exists l : list LogEntry,
    getLogs w = (Return l, w)
    /\ (forall k e, In (k, e) (_logs w) -> In e l)
    /\ (forall e, In e l -> exists k, In (k, e) (_logs w))
    /\ Permutation l (map snd (_logs w))
    /\ List.length l = List.length (_logs w)
    /\ StronglySorted
         (fun a b => LogEntry.timestamp b <= LogEntry.timestamp a) l.
Proof.
  assert (Hperm : Permutation
                    (Array_sort by_timestamp_desc (Object_values (_logs w)))
                    (map snd (_logs w)))
    by apply Array_sort_perm.
  eexists. split; [apply getLogs_run|]. split; [|split; [|split; [|split]]].
  - intros k e Hin.
    apply (Permutation_in _ (Permutation_sym Hperm)).
    apply (in_map snd _ _ Hin).
  - intros e Hin. apply (Permutation_in _ Hperm), in_map_iff in Hin.
    destruct Hin as ([k e'] & He & Hin). simpl in He. subst e'.
    exists k. exact Hin.
  - exact Hperm.
  - rewrite (Permutation_length Hperm). apply length_map.
  - apply (Array_sort_descending LogEntry.timestamp). reflexivity.
Qed.


(** C10. [getLogs] and [getFilteredLogs] change nothing: the map, the
    cookie, the flag [showLogs] and the rest of the world are the same
    after the call, whatever the arguments and whether or not it throws. *)
Theorem reads_change_nothing (w : World) :
  snd (getLogs w) = w
  /\ forall level category searchQuery,
       snd (getFilteredLogs level category searchQuery w) = w.
Proof.
  split.
  - rewrite getLogs_run. reflexivity.
  - intros. rewrite getFilteredLogs_run. reflexivity.
Qed.

(** C4, at a payload that cannot be serialized. [addLog] with a BigInt in
    [details] throws the TypeError of [JSON.stringify] out of [_saveLogs];
    the entry has been inserted, the cookie is not written, and the next
    [addLog] throws as well, whatever its payload. *)
Theorem addLog_throws_on_bigint :
  let call := addLog "synced" None None (Some [("count", VBigInt 10)]) in
  fst (call session)
  = Throw (TypeError "Do not know how to serialize a BigInt")
  /\ List.length (_logs (snd (call session))) = 1%nat
  /\ cookie (snd (call session)) = None
  /\ fst (addLog "next" None None None (snd (call session)))
     = Throw (TypeError "Do not know how to serialize a BigInt").
Proof. vm_compute. repeat split. Qed.

(** C5, at an entry without details. In a store that holds one entry logged
    without details, a search that the message does not match makes
    [getFilteredLogs] throw: the serialized form of the absent details is
    [undefined], which has no [toLowerCase]. *)
Theorem getFilteredLogs_throws_without_details :
  let w := snd (addLog "hello" None None None session) in
  fst (addLog "hello" None None None session) = Return "1700000000000-k3x9q2m1z"
  /\ fst (getFilteredLogs (Some LInfo) (Some CSystem) (Some "users") w)
     = Throw (TypeError
                "Cannot read properties of undefined (reading 'toLowerCase')").
Proof. vm_compute. split; reflexivity. Qed.

(** ** Trimming *)

Lemma obj_create_perm {A : Type} (k : string) (v : A) o :
  Permutation (obj_create k v o) ((k, v) :: o).
Proof.
  induction o as [|[k0 v0] o IH]; simpl.
  - apply Permutation_refl.
  - destruct (enumerated_before k k0).
    + apply Permutation_refl.
    + eapply perm_trans; [apply perm_skip, IH | apply perm_swap].
Qed.

Lemma obj_set_fresh {A : Type} (k : string) (v : A) o :
  ~ In k (map fst o) -> Permutation (obj_set k v o) ((k, v) :: o).
Proof.
  intros Hk. unfold obj_set, obj_has.
  rewrite (proj2 (obj_get_None k o) Hk). apply obj_create_perm.
Qed.

Lemma obj_replace_keys {A : Type} (k : string) (v : A) o :
  map fst (obj_replace k v o) = map fst o.
Proof.
  induction o as [|[k0 v0] o IH]; simpl; [reflexivity|].
  destruct (k =? k0)%string; simpl; [reflexivity | rewrite IH; reflexivity].
Qed.

Lemma obj_set_NoDup {A : Type} (k : string) (v : A) o :
  NoDup (map fst o) -> NoDup (map fst (obj_set k v o)).
Proof.
  intros Ho. unfold obj_set, obj_has.
  destruct (obj_get k o) eqn:Hk.
  - rewrite obj_replace_keys. exact Ho.
  - eapply Permutation_NoDup;
      [apply Permutation_map, Permutation_sym, obj_create_perm|].
    simpl. constructor; [apply obj_get_None, Hk | exact Ho].
Qed.

Lemma obj_define_perm {A : Type} (l o : list (string * A)) :
  NoDup (map fst (o ++ l)%list) -> Permutation (obj_define o l) (o ++ l)%list.
Proof.
  unfold obj_define. revert o.
  induction l as [|[k v] l IH]; simpl; intros o Hnd.
  - rewrite app_nil_r. apply Permutation_refl.
  - assert (Hk : ~ In k (map fst o)).
    { rewrite map_app in Hnd. simpl in Hnd.
      apply NoDup_remove_2 in Hnd. rewrite in_app_iff in Hnd. tauto. }
    assert (Hp : Permutation (obj_set k v o ++ l)%list (o ++ (k, v) :: l)%list).
    { eapply perm_trans;
        [apply Permutation_app_tail, obj_set_fresh, Hk|].
      simpl. apply Permutation_middle. }
    eapply perm_trans; [apply IH | exact Hp].
    eapply Permutation_NoDup;
      [apply Permutation_map, Permutation_sym, Hp | exact Hnd].
Qed.

Lemma sorted_app_order {A : Type} (R : A -> A -> Prop) l1 l2 :
  StronglySorted R (l1 ++ l2)%list ->
  forall a b, In a l1 -> In b l2 -> R a b.
Proof.
  induction l1 as [|x l1 IH]; simpl; intros Hs a b Ha Hb; [tauto|].
  inversion Hs as [|? ? Hs' Hx]; subst.
  destruct Ha as [->|Ha].
  - rewrite Forall_forall in Hx. apply Hx, in_or_app. right; exact Hb.
  - eapply IH; eassumption.
Qed.

Lemma trimmed_small o :
  (List.length o <= MAX_LOGS)%nat -> trimmed o = o.
Proof.
  intros H. unfold trimmed, Object_entries.
  destruct (Nat.ltb_spec MAX_LOGS (List.length o)); [lia | reflexivity].
Qed.

Lemma trimmed_large o :
  NoDup (map fst o) -> (MAX_LOGS < List.length o)%nat ->
  List.length (trimmed o) = MAX_LOGS
  /\ NoDup (map fst (trimmed o))
  /\ (forall x, In x (trimmed o) -> In x o)
  /\ (exists y, In y o /\ ~ In y (trimmed o))
  /\ (forall x r, In x o -> ~ In x (trimmed o) -> In r (trimmed o) ->
        LogEntry.timestamp (snd x) <= LogEntry.timestamp (snd r)).
Proof.
  intros Hnd Hlen. unfold trimmed, Object_entries, Object_fromEntries.
  destruct (Nat.ltb_spec MAX_LOGS (List.length o)) as [_|]; [|lia].
  set (s := Array_sort
              (fun x y => by_timestamp_desc (snd x) (snd y)) o).
  assert (Hperm : Permutation s o) by apply Array_sort_perm.
  assert (Hsorted : StronglySorted
            (fun a b => LogEntry.timestamp (snd b)
                        <= LogEntry.timestamp (snd a)) s).
  { apply (Array_sort_descending (fun p => LogEntry.timestamp (snd p))).
    reflexivity. }
  assert (Hsplit : (firstn MAX_LOGS s ++ skipn MAX_LOGS s)%list = s)
    by apply firstn_skipn.
  assert (Hslen : List.length s = List.length o)
    by (apply Permutation_length, Hperm).
  assert (Hnds : NoDup (map fst s)).
  { eapply Permutation_NoDup;
      [apply Permutation_map, Permutation_sym, Hperm | exact Hnd]. }
  assert (Hndf : NoDup (map fst (firstn MAX_LOGS s))).
  { rewrite <- Hsplit, map_app in Hnds.
    apply NoDup_app_remove_r in Hnds. exact Hnds. }
  assert (Hpf : Permutation (obj_define [] (firstn MAX_LOGS s))
                  (firstn MAX_LOGS s)).
  { apply (obj_define_perm (firstn MAX_LOGS s) []). exact Hndf. }
  assert (Hpairs : NoDup s).
  { eapply NoDup_map_inv. exact Hnds. }
  split.
  { rewrite (Permutation_length Hpf), length_firstn. lia. }
  split.
  { eapply Permutation_NoDup;
      [apply Permutation_map, Permutation_sym, Hpf | exact Hndf]. }
  split.
  { intros x Hx. apply (Permutation_in _ Hperm). rewrite <- Hsplit.
    apply in_or_app. left. apply (Permutation_in _ Hpf), Hx. }
  split.
  { destruct (skipn MAX_LOGS s) as [|y sk] eqn:Hsk.
    - apply (f_equal (@List.length _)) in Hsk. rewrite length_skipn in Hsk.
      simpl in Hsk. lia.
    - exists y. split.
      + apply (Permutation_in _ Hperm). rewrite <- Hsplit.
        apply in_or_app. right. left. reflexivity.
      + intros Hy. apply (Permutation_in _ Hpf) in Hy.
        rewrite <- Hsplit in Hpairs.
        apply NoDup_remove_2 in Hpairs. apply Hpairs.
        apply in_or_app. left. exact Hy. }
  intros x r Hx Hnx Hr.
  apply (Permutation_in _ (Permutation_sym Hperm)) in Hx.
  rewrite <- Hsplit in Hx. apply in_app_or in Hx.
  destruct Hx as [Hx|Hx].
  - exfalso. apply Hnx. apply (Permutation_in _ (Permutation_sym Hpf)), Hx.
  - apply (Permutation_in _ Hpf) in Hr. rewrite <- Hsplit in Hsorted.
    apply (sorted_app_order _ _ _ Hsorted r x Hr Hx).
Qed.

(** ** Insertion *)

Lemma bind_Return {A B : Type} (m : M A) (k : A -> M B) w a w' :
  m w = (Return a, w') -> bind m k w = k a w'.
Proof. intros H. unfold bind. rewrite H. reflexivity. Qed.

Lemma bind_Throw {A B : Type} (m : M A) (k : A -> M B) w e w' :
  m w = (Throw e, w') -> bind m k w = (Throw e, w').
Proof. intros H. unfold bind. rewrite H. reflexivity. Qed.

Lemma with_logs_same w : with_logs (_logs w) w = w.
Proof. destruct w; reflexivity. Qed.

Lemma _trimLogs_run w :
  _trimLogs w = (Return tt, with_logs (trimmed (_logs w)) w).
Proof.
  unfold _trimLogs, trimmed, Object_entries.
  rewrite (bind_Return logs_get _ w (_logs w) w eq_refl).
  destruct (MAX_LOGS <? List.length (_logs w))%nat.
  - reflexivity.
  - rewrite with_logs_same. reflexivity.
Qed.

Lemma _saveLogs_run w :
  _saveLogs w
  = match JSON_stringify (value_of_logs (_logs w)) with
    | Return blob =>
        (Return tt,
         with_cookie
           (Some (match blob with Some s => s | None => "undefined" end)) w)
    | Throw e => (Throw e, w)
    end.
Proof.
  unfold _saveLogs.
  rewrite (bind_Return logs_get _ w (_logs w) w eq_refl).
  unfold bind, lift. destruct (JSON_stringify _); reflexivity.
Qed.

Lemma insert_run e w :
  insert e w
  = let w1 := with_logs (trimmed (obj_set (LogEntry.id e) e (_logs w))) 
                (with_logs (obj_set (LogEntry.id e) e (_logs w)) w) in
    match JSON_stringify (value_of_logs (_logs w1)) with
    | Return blob =>
        (Return (LogEntry.id e),
         with_cookie
           (Some (match blob with Some s => s | None => "undefined" end)) w1)
    | Throw err => (Throw err, w1)
    end.
Proof.
  unfold insert.
  rewrite (bind_Return (logs_setKey _ _) _ w tt _ eq_refl).
  rewrite (bind_Return _trimLogs _ _ tt _ (_trimLogs_run _)).
  unfold bind. rewrite _saveLogs_run. cbv zeta.
  destruct (JSON_stringify _); reflexivity.
Qed.

Lemma insert_logs e w :
  _logs (snd (insert e w)) = trimmed (obj_set (LogEntry.id e) e (_logs w)).
Proof.
  rewrite insert_run. cbv zeta. destruct (JSON_stringify _); reflexivity.
Qed.

Lemma insert_env e w :
  let w' := snd (insert e w) in
  clock w' = clock w /\ ticks w' = ticks w
  /\ random w' = random w /\ draws w' = draws w.
Proof.
  rewrite insert_run. cbv zeta.
  destruct (JSON_stringify _); repeat split.
Qed.

Lemma entry_built_env c w w' :
  clock w' = clock w -> ticks w' = ticks w ->
  random w' = random w -> draws w' = draws w ->
  entry_built c w' = entry_built c w.
Proof.
  intros Hc Ht Hr Hd. destruct c as [[[message level] category] details].
  unfold entry_built. rewrite Hc, Ht, Hr, Hd. reflexivity.
Qed.

Lemma built_env calls : forall w w',
  clock w' = clock w -> ticks w' = ticks w ->
  random w' = random w -> draws w' = draws w ->
  built calls w' = built calls w.
Proof.
  induction calls as [|c calls IH]; simpl; intros w w' Hc Ht Hr Hd.
  - reflexivity.
  - rewrite (entry_built_env c w w') by assumption. f_equal.
    apply IH; simpl; congruence.
Qed.

Lemma keys_functional {A : Type} (l : list (string * A)) k v v' :
  NoDup (map fst l) -> In (k, v) l -> In (k, v') l -> v = v'.
Proof.
  induction l as [|[k0 v0] l IH]; simpl; intros Hnd H1 H2; [tauto|].
  inversion Hnd as [|? ? Hk0 Hnd']; subst.
  assert (Hkey : forall u, In (k0, u) l -> False).
  { intros u Hu. apply Hk0. apply in_map_iff. exists (k0, u). tauto. }
  destruct H1 as [H1|H1], H2 as [H2|H2].
  - congruence.
  - inversion H1; subst. exfalso. eapply Hkey; eassumption.
  - inversion H2; subst. exfalso. eapply Hkey; eassumption.
  - eapply IH; eassumption.
Qed.

Lemma insertion_step (o seen : list (string * LogEntry)) k e :
  ~ In k (map fst seen) ->
  NoDup (map fst seen) ->
  NoDup (map fst o) ->
  incl o seen ->
  Permutation o seen \/ List.length o = MAX_LOGS ->
  (forall x r, In x seen -> ~ In x o -> In r o -> ts x <= ts r) ->
  let o' := trimmed (obj_set k e o) in
  let seen' := (seen ++ [(k, e)])%list in
  NoDup (map fst o')
  /\ incl o' seen'
  /\ (Permutation o' seen' \/ List.length o' = MAX_LOGS)
  /\ (forall x r, In x seen' -> ~ In x o' -> In r o' -> ts x <= ts r)
  /\ (List.length o' <= MAX_LOGS)%nat.
Proof.
  intros Hk Hnds Hnd Hincl Hfull Hold o' seen'.
  assert (Hko : ~ In k (map fst o)).
  { intros Hin. apply Hk. apply in_map_iff in Hin.
    destruct Hin as (x & Hx & Hin). apply in_map_iff.
    exists x. split; [exact Hx | apply Hincl, Hin]. }
  set (o1 := obj_set k e o) in *.
  assert (Hp1 : Permutation o1 ((k, e) :: o)) by (apply obj_set_fresh, Hko).
  assert (Hnd1 : NoDup (map fst o1)) by (apply obj_set_NoDup, Hnd).
  assert (Hlen1 : List.length o1 = S (List.length o))
    by (apply (Permutation_length Hp1)).
  assert (Hin1 : forall x, In x o1 <-> x = (k, e) \/ In x o).
  { intros x. split; intros Hx.
    - apply (Permutation_in _ Hp1) in Hx. destruct Hx; [left; congruence|tauto].
    - apply (Permutation_in _ (Permutation_sym Hp1)).
      destruct Hx; [left; congruence | right; assumption]. }
  assert (Hseen' : forall x, In x seen' <-> In x seen \/ x = (k, e)).
  { intros x. unfold seen'. rewrite in_app_iff. simpl. intuition congruence. }
  destruct (Nat.le_gt_cases (List.length o1) MAX_LOGS) as [Hsmall|Hlarge].
  - unfold o'. rewrite (trimmed_small o1 Hsmall).
    destruct Hfull as [Hperm|Hlen]; [|lia].
    assert (Hperm' : Permutation o1 seen').
    { eapply perm_trans; [exact Hp1|]. unfold seen'.
      eapply perm_trans; [|apply Permutation_app_comm]. simpl.
      apply perm_skip, Hperm. }
    split; [exact Hnd1|].
    split; [intros x Hx; apply (Permutation_in _ Hperm'), Hx|].
    split; [left; exact Hperm'|].
    split; [|exact Hsmall].
    intros x r Hx Hnx _. exfalso. apply Hnx.
    apply (Permutation_in _ (Permutation_sym Hperm')), Hx.
  - destruct (trimmed_large o1 Hnd1 Hlarge)
      as (Hlen' & Hnd' & Hsub & (y & Hy & Hny) & Hrecent).
    fold o' in Hlen', Hnd', Hsub, Hny, Hrecent.
    split; [exact Hnd'|].
    split.
    { intros x Hx. apply Hseen'. apply Hsub, Hin1 in Hx.
      destruct Hx; [right; assumption | left; apply Hincl; assumption]. }
    split; [right; exact Hlen'|].
    split; [|lia].
    intros x r Hx Hnx Hr.
    assert (Hcases : In x o1 \/ (In x seen /\ ~ In x o)).
    { apply Hseen' in Hx. destruct Hx as [Hx|Hx].
      - destruct (in_dec string_dec (fst x) (map fst o)) as [Hkey|Hkey].
        + left. apply Hin1. right. apply in_map_iff in Hkey.
          destruct Hkey as ([k' v'] & Hk' & Hin). simpl in Hk'. subst k'.
          destruct x as [kx vx]. simpl in *.
          rewrite (keys_functional seen kx vx v' Hnds Hx (Hincl _ Hin)).
          exact Hin.
        + right. split; [exact Hx|]. intros Hxo. apply Hkey.
          apply in_map. exact Hxo.
      - left. apply Hin1. left. exact Hx. }
    destruct Hcases as [Hxo1|Hxs].
    + apply Hrecent; assumption.
    + 
      destruct Hxs as [Hxs Hxo].
      pose proof (Hsub r Hr) as Hr1. apply Hin1 in Hr1.
      destruct Hr1 as [Hrnew|Hro].
      * apply Hin1 in Hy. destruct Hy as [Hynew|Hyo].
        { exfalso. apply Hny. rewrite Hynew, <- Hrnew. exact Hr. }
        { apply Z.le_trans with (ts y).
          - apply Hold; assumption.
          - apply Hrecent; [apply Hin1; right; exact Hyo | exact Hny | exact Hr]. }
      * apply Hold; assumption.
Qed.

Lemma addLog_all_cons message level category details rest w :
  addLog_all ((message, level, category, details) :: rest) w
  = (fst (addLog message level category details w)
       :: fst (addLog_all rest
                 (snd (addLog message level category details w))),
     snd (addLog_all rest (snd (addLog message level category details w)))).
Proof.
  simpl. destruct (addLog message level category details w) as [r w1].
  simpl. destruct (addLog_all rest w1); reflexivity.
Qed.

Lemma addLog_all_invariant calls : forall w seen,
  NoDup (map fst seen ++ map LogEntry.id (built calls w))%list ->
  NoDup (map fst (_logs w)) ->
  incl (_logs w) seen ->
  Permutation (_logs w) seen \/ List.length (_logs w) = MAX_LOGS ->
  (forall x r, In x seen -> ~ In x (_logs w) -> In r (_logs w) ->
     ts x <= ts r) ->
  let w' := snd (addLog_all calls w) in
  let seen' :=
    (seen ++ map (fun e => (LogEntry.id e, e)) (built calls w))%list in
  NoDup (map fst (_logs w'))
  /\ incl (_logs w') seen'
  /\ (Permutation (_logs w') seen' \/ List.length (_logs w') = MAX_LOGS)
  /\ (forall x r, In x seen' -> ~ In x (_logs w') -> In r (_logs w') ->
        ts x <= ts r)
  /\ (calls = [] \/ (List.length (_logs w') <= MAX_LOGS)%nat).
Proof.
  induction calls as [|c calls IH]; intros w seen Hfresh Hnd Hincl Hfull Hold.
  - simpl. rewrite app_nil_r. repeat split; try assumption. left; reflexivity.
  - destruct c as [[[message level] category] details].
    rewrite addLog_all_cons. cbv zeta. simpl snd.
    set (c := (message, level, category, details)) in *.
    set (w1 := snd (addLog message level category details w)).
    assert (Hw1 : _logs w1
                  = trimmed (obj_set (LogEntry.id (entry_built c w))
                               (entry_built c w) (_logs w))).
    { unfold w1. rewrite addLog_insert, insert_logs. reflexivity. }
    assert (Henv : built calls w1 = built calls (advance 2 1 w)).
    { unfold w1. rewrite addLog_insert.
      destruct (insert_env (entry_built c w) (advance 2 1 w))
        as (H1 & H2 & H3 & H4).
      apply built_env; assumption. }
    simpl built in Hfresh |- *. rewrite <- Henv in Hfresh |- *.
    simpl map in Hfresh |- *.
    set (e := entry_built c w) in *.
    assert (Hk : ~ In (LogEntry.id e) (map fst seen)).
    { apply NoDup_remove_2 in Hfresh. intros Hin. apply Hfresh.
      apply in_or_app. left; exact Hin. }
    assert (Hnds : NoDup (map fst seen)).
    { apply NoDup_app_remove_r in Hfresh. exact Hfresh. }
    destruct (insertion_step (_logs w) seen (LogEntry.id e) e
                Hk Hnds Hnd Hincl Hfull Hold)
      as (Hnd1 & Hincl1 & Hfull1 & Hold1 & Hlen1).
    rewrite <- Hw1 in Hnd1, Hincl1, Hfull1, Hold1, Hlen1.
    assert (Hfresh1 :
              NoDup (map fst (seen ++ [(LogEntry.id e, e)])
                       ++ map LogEntry.id (built calls w1))%list).
    { rewrite map_app. simpl. rewrite <- app_assoc. simpl.
      eapply Permutation_NoDup; [|exact Hfresh].
      apply Permutation_sym. apply Permutation_refl. }
    destruct (IH w1 (seen ++ [(LogEntry.id e, e)])%list
                Hfresh1 Hnd1 Hincl1 Hfull1 Hold1)
      as (Hnd2 & Hincl2 & Hfull2 & Hold2 & Hlen2).
    rewrite <- app_assoc in Hincl2, Hfull2, Hold2. simpl in Hincl2, Hfull2, Hold2.
    repeat split; try assumption.
    right. destruct Hlen2 as [->|Hlen2]; [exact Hlen1 | exact Hlen2].
Qed.

Lemma distinct_NoDup l : distinct l = true -> NoDup l.
Proof.
  induction l as [|x l IH]; simpl; intros H; [constructor|].
  apply andb_true_iff in H. destruct H as [Hx Hl].
  constructor; [|apply IH, Hl].
  intros Hin. apply negb_true_iff in Hx.
  assert (Hex : existsb (String.eqb x) l = true).
  { apply existsb_exists. exists x. split; [exact Hin | apply String.eqb_refl]. }
  congruence.
Qed.

(** C1, as the code has it. The ids are built from the clock and from
    [Math.random] and nothing checks that they are new, so the statement is
    about calls whose ids are. After more than 1000 calls of [addLog] whose
    generated ids differ from one another and from the keys of the map, the
    map holds exactly 1000 entries; they are entries of the initial map or
    entries the calls built, and every such entry that is no longer
    resident is at most as recent as every resident one. And after any
    single call that takes the map beyond 1000 entries, the map is cut back
    to 1000 entries of it, every dropped one at most as recent as every
    kept one. *)
Theorem capacity_invariant :
  (forall (calls : list call) (w : World),
      (1000 < List.length calls)%nat ->
      NoDup (map fst (_logs w) ++ map LogEntry.id (built calls w))%list ->
      let w' := snd (addLog_all calls w) in
      let all := (map snd (_logs w) ++ built calls w)%list in
      List.length (_logs w') = 1000%nat
      /\ (forall r, In r (map snd (_logs w')) -> In r all)
      /\ (forall e r,
            In e all -> ~ In e (map snd (_logs w')) ->
            In r (map snd (_logs w')) ->
            LogEntry.timestamp e <= LogEntry.timestamp r))
  /\ (forall message level category details (w : World),
        NoDup (map fst (_logs w)) ->
        let e := entry_built (message, level, category, details) w in
        let inserted := obj_set (LogEntry.id e) e (_logs w) in
        let w' := snd (addLog message level category details w) in
        (1000 < List.length inserted)%nat ->
        List.length (_logs w') = 1000%nat
        /\ (forall x, In x (_logs w') -> In x inserted)
        /\ (forall x r,
              In x inserted -> ~ In x (_logs w') -> In r (_logs w') ->
              LogEntry.timestamp (snd x) <= LogEntry.timestamp (snd r))).
Proof.
  change 1000%nat with MAX_LOGS.
  split.
  - intros calls w Hmany Hfresh w' all.
    assert (Hnd : NoDup (map fst (_logs w)))
      by (apply NoDup_app_remove_r in Hfresh; exact Hfresh).
    destruct (addLog_all_invariant calls w (_logs w) Hfresh Hnd
                (incl_refl _) (or_introl (Permutation_refl _)))
      as (_ & Hincl & Hfull & Hold & Hlen).
    { intros x r Hx Hnx. contradiction. }
    fold w' in Hincl, Hfull, Hold, Hlen.
    set (seen := (_logs w ++ map (fun e => (LogEntry.id e, e))
                               (built calls w))%list) in *.
    assert (Hvalues : map snd seen = all).
    { unfold seen, all. rewrite map_app, map_map. simpl.
      rewrite map_id. reflexivity. }
    assert (Hseen_len : List.length seen
                        = (List.length (_logs w) + List.length calls)%nat).
    { unfold seen. rewrite length_app, length_map. f_equal.
      clear. generalize w. induction calls as [|c calls IH]; simpl; intros w0;
        [reflexivity | rewrite IH; reflexivity]. }
    split.
    { destruct Hfull as [Hperm|Hlen']; [|exact Hlen'].
      apply Permutation_length in Hperm.
      destruct Hlen as [->|Hlen]; [simpl in Hmany; lia | lia]. }
    split.
    { intros r Hr. apply in_map_iff in Hr.
      destruct Hr as (x & <- & Hx). rewrite <- Hvalues.
      apply in_map, Hincl, Hx. }
    intros e r He Hne Hr. rewrite <- Hvalues in He.
    apply in_map_iff in He. destruct He as (x & <- & Hx).
    apply in_map_iff in Hr.
    destruct Hr as (y & <- & Hy).
    apply (Hold x y Hx); [|exact Hy].
    intros Hxo. apply Hne. apply in_map, Hxo.
  - intros message level category details w Hnd e inserted w' Hlarge.
    assert (Hw' : _logs w' = trimmed inserted).
    { unfold w'. rewrite addLog_insert, insert_logs. reflexivity. }
    rewrite Hw'.
    destruct (trimmed_large inserted (obj_set_NoDup _ _ _ Hnd) Hlarge)
      as (Hlen & _ & Hsub & _ & Hrecent).
    split; [exact Hlen|]. split; [exact Hsub | exact Hrecent].
Qed.

Lemma capacity_invariant_witness :
  (1000 < List.length burst)%nat
  /\ NoDup (map fst (_logs session)
              ++ map LogEntry.id (built burst session))%list
  /\ List.length (_logs (snd (addLog_all burst session))) = 1000%nat
  /\ NoDup (map fst (_logs crowded))
  /\ (1000
      < List.length
          (obj_set
             (LogEntry.id (entry_built ("event", None, None, None) crowded))
             (entry_built ("event", None, None, None) crowded)
             (_logs crowded)))%nat
  /\ List.length (_logs (snd (addLog "event" None None None crowded)))
     = 1000%nat.
Proof.
  assert (H1 : (1000 < List.length burst)%nat)
    by (apply Nat.ltb_lt; vm_compute; reflexivity).
  assert (H2 : NoDup (map fst (_logs session)
                        ++ map LogEntry.id (built burst session))%list)
    by (apply distinct_NoDup; vm_compute; reflexivity).
  assert (H3 : NoDup (map fst (_logs crowded)))
    by (apply distinct_NoDup; vm_compute; reflexivity).
  assert (H4 : (1000
      < List.length
          (obj_set
             (LogEntry.id (entry_built ("event", None, None, None) crowded))
             (entry_built ("event", None, None, None) crowded)
             (_logs crowded)))%nat)
    by (apply Nat.ltb_lt; vm_compute; reflexivity).
  split; [exact H1|]. split; [exact H2|].
  split; [exact (proj1 (proj1 capacity_invariant burst session H1 H2))|].
  split; [exact H3|]. split; [exact H4|].
  exact (proj1 (proj2 capacity_invariant "event" None None None crowded
                  H3 H4)).
Defined.

(** C1 as stated fails. With a clock that stands still and a random source
    that repeats, the 1001 calls of the burst generate one and the same id:
    each call replaces the entry of the call before, and the map holds one
    entry afterwards, not 1000. *)
Lemma repeated_id_keeps_one_entry :
  (1000 < List.length burst)%nat
  /\ List.length (_logs (snd (addLog_all burst frozen))) = 1%nat
  /\ List.length (_logs (snd (addLog_all burst frozen))) <> 1000%nat.
Proof.
  assert (Hone : List.length (_logs (snd (addLog_all burst frozen))) = 1%nat)
    by (vm_compute; reflexivity).
  split; [apply Nat.ltb_lt; vm_compute; reflexivity|].
  split; [exact Hone|]. rewrite Hone. discriminate.
Qed.

(** ** Loading *)

Lemma new_LogStore_run w :
  new_LogStore w = _loadLogs (with_showLogs true (with_logs [] w)).
Proof. reflexivity. Qed.

Lemma _loadLogs_run w :
  _loadLogs w
  = if falsy_string (cookie w) then (Return Typed, w)
    else
      match JSON_parse (default "" (cookie w)) with
      | Return parsedLogs =>
          match logs_of_value parsedLogs with
          | Some logs => (Return Typed, with_logs logs w)
          | None => (Return (Foreign parsedLogs), w)
          end
      | Throw error =>
          (Return Typed,
           with_diagnostics
             (diagnostics w ++ [("Failed to parse logs from cookies:", error)])
             w)
      end.
Proof.
  unfold _loadLogs.
  rewrite (bind_Return Cookies_get _ w (cookie w) w eq_refl).
  destruct (falsy_string (cookie w)); [reflexivity|].
  unfold try_catch, bind, lift.
  destruct (JSON_parse _) as [parsedLogs|error]; [|reflexivity].
  destruct (logs_of_value parsedLogs); reflexivity.
Qed.

(** C7. Constructing the store never throws, whatever the cookie holds.
    When the cookie is absent, or holds a blob that [JSON.parse] rejects, the
    store starts with an empty map; and the rejection of a blob that was
    handed to [JSON.parse] (any but the empty string, which counts as no
    cookie) is reported through [logger.error] and goes no further. *)
Theorem constructor_recovers (w : World) :
  exists (h : held) (w' : World),
    new_LogStore w = (Return h, w')
    /\ (cookie w = None ->
          h = Typed /\ _logs w' = [] /\ diagnostics w' = diagnostics w)
    /\ (forall blob err,
          cookie w = Some blob -> JSON_parse blob = Throw err ->
          h = Typed /\ _logs w' = []
          /\ (blob <> "" ->
                diagnostics w'
                = (diagnostics w
                     ++ [("Failed to parse logs from cookies:", err)])%list)).
Proof.
  rewrite new_LogStore_run, _loadLogs_run.
  change (cookie (with_showLogs true (with_logs [] w))) with (cookie w).
  destruct (cookie w) as [blob|] eqn:Hcookie.
  - destruct blob as [|c blob'] eqn:Hblob.
    + simpl falsy_string. cbv iota. eexists. eexists.
      split; [reflexivity|]. split; [discriminate|].
      intros blob0 err Hb _. inversion Hb; subst blob0.
      repeat split. intros Hne. congruence.
    + simpl falsy_string. cbv iota. simpl default.
      destruct (JSON_parse (String c blob')) as [parsedLogs|error] eqn:Hparse.
      * destruct (logs_of_value parsedLogs) as [logs|];
          eexists; eexists; (split; [reflexivity|]);
          (split; [discriminate|]);
          intros blob0 err Hb Herr; inversion Hb; subst blob0; congruence.
      * eexists. eexists. split; [reflexivity|]. split; [discriminate|].
        intros blob0 err Hb Herr. inversion Hb; subst blob0.
        assert (err = error) by congruence. subst err.
        repeat split.
  - simpl falsy_string. cbv iota. eexists. eexists.
    split; [reflexivity|]. split; [intros _; repeat split|].
    intros blob err Hb. discriminate.
Qed.

Lemma constructor_recovers_witness :
  cookie corrupted = Some "{oops"
  /\ JSON_parse "{oops" = Throw (SyntaxError "Unexpected token in JSON")
  /\ exists w' : World,
       new_LogStore corrupted = (Return Typed, w')
       /\ _logs w' = []
       /\ diagnostics w'
          = [("Failed to parse logs from cookies:",
              SyntaxError "Unexpected token in JSON")].
Proof.
  assert (Hc : cookie corrupted = Some "{oops") by reflexivity.
  assert (Hp : JSON_parse "{oops"
               = Throw (SyntaxError "Unexpected token in JSON"))
    by (vm_compute; reflexivity).
  split; [exact Hc|]. split; [exact Hp|].
  destruct (constructor_recovers corrupted) as (h & w' & Hrun & _ & Hbad).
  destruct (Hbad _ _ Hc Hp) as (Hh & Hlogs & Hdiag).
  exists w'. subst h. split; [exact Hrun|]. split; [exact Hlogs|].
  rewrite Hdiag by discriminate. reflexivity.
Defined.


(** ** Dates *)

Lemma append_assoc (a b c : string) : ((a ++ b) ++ c = a ++ b ++ c)%string.
Proof. induction a as [|x a IH]; simpl; [reflexivity | rewrite IH; reflexivity]. Qed.

Lemma append_nil_r (a : string) : (a ++ "" = a)%string.
Proof. induction a as [|x a IH]; simpl; [reflexivity | rewrite IH; reflexivity]. Qed.

Lemma append_length (a b : string) :
  String.length (a ++ b) = (String.length a + String.length b)%nat.
Proof. induction a as [|x a IH]; simpl; [reflexivity | rewrite IH; reflexivity]. Qed.

Lemma yoe_bounds doe : 0 <= doe < 146097 ->
  let yoe := (doe - doe / 1460 + doe / 36524 - doe / 146096) / 365 in
  0 <= yoe <= 399 /\ 0 <= doe - (365 * yoe + yoe / 4 - yoe / 100) <= 365.
Proof.
  intros H. cbv zeta.
  Z.div_mod_to_equations; lia.
Qed.

Lemma month_day_bounds doy : 0 <= doy <= 365 ->
  let mp := (5 * doy + 2) / 153 in
  let d := doy - (153 * mp + 2) / 5 + 1 in
  0 <= mp <= 11 /\ 1 <= d <= 31
  /\ (153 * mp + 2) / 5 + d - 1 = doy.
Proof.
  intros H. cbv zeta. Z.div_mod_to_equations. lia.
Qed.

Lemma civil_roundtrip z :
  let '(y, m, d) := civil_from_days z in
  days_from_civil y m d = z /\ 1 <= m <= 12 /\ 1 <= d <= 31.
Proof.
  unfold civil_from_days. cbv zeta.
  remember (z + 719468) as z' eqn:Hz'.
  remember (z' / 146097) as era eqn:Hera.
  remember (z' mod 146097) as doe eqn:Hdoe'.
  assert (Hdoe : 0 <= doe < 146097) by (subst doe; apply Z.mod_pos_bound; lia).
  assert (Hz : z' = 146097 * era + doe) by (subst era doe; apply Z.div_mod; lia).
  pose proof (yoe_bounds doe Hdoe) as Hy. cbv zeta in Hy.
  remember ((doe - doe / 1460 + doe / 36524 - doe / 146096) / 365)
    as yoe eqn:Hyoe'.
  destruct Hy as [Hyoe Hdoy].
  remember (doe - (365 * yoe + yoe / 4 - yoe / 100)) as doy eqn:Hdoy'.
  pose proof (month_day_bounds doy Hdoy) as Hm. cbv zeta in Hm.
  remember ((5 * doy + 2) / 153) as mp eqn:Hmp'.
  remember (doy - (153 * mp + 2) / 5 + 1) as d eqn:Hd'.
  destruct Hm as (Hmp & Hd & Hback).
  remember (if mp <? 10 then mp + 3 else mp - 9) as m eqn:Hm'.
  assert (Hmrange : 1 <= m <= 12).
  { subst m. destruct (Z.ltb_spec mp 10); lia. }
  assert (Hmpm : (if 2 <? m then m - 3 else m + 9) = mp).
  { subst m. destruct (Z.ltb_spec mp 10).
    - destruct (Z.ltb_spec 2 (mp + 3)); lia.
    - destruct (Z.ltb_spec 2 (mp - 9)); lia. }
  split; [|split; assumption].
  unfold days_from_civil. cbv zeta. rewrite Hmpm.
  replace (yoe + era * 400 + (if m <=? 2 then 1 else 0)
           - (if m <=? 2 then 1 else 0)) with (yoe + era * 400)
    by (destruct (m <=? 2); lia).
  clear Hera Hdoe' Hyoe' Hmp' Hd' Hm'.
  replace ((yoe + era * 400) / 400) with era
    by (apply Z.div_unique with yoe; lia).
  replace ((yoe + era * 400) mod 400) with yoe
    by (apply Z.mod_unique with era; lia).
  rewrite Hback. lia.
Qed.

Lemma digit_elim (P : Z -> Prop) :
  Forall P [0; 1; 2; 3; 4; 5; 6; 7; 8; 9] -> forall n, 0 <= n <= 9 -> P n.
Proof.
  intros HP n Hn. rewrite Forall_forall in HP. apply HP. simpl. lia.
Qed.

Lemma char_digit_digit_char n :
  0 <= n <= 9 -> char_digit (digit_char n) = Some n.
Proof.
  apply (digit_elim (fun n => char_digit (digit_char n) = Some n)).
  repeat constructor.
Qed.

Lemma read_digits_fixed w : forall n acc rest k,
  0 <= n < 10 ^ Z.of_nat w ->
  read_digits (w + k) acc (fixed w n ++ rest)
  = read_digits k (acc * 10 ^ Z.of_nat w + n) rest.
Proof.
  induction w as [|w IH]; intros n acc rest k Hn.
  - simpl in *. replace (acc * 1 + n) with acc by lia. reflexivity.
  - rewrite Nat2Z.inj_succ, Z.pow_succ_r in Hn by lia.
    cbn [fixed]. rewrite append_assoc. cbn [append].
    replace (S w + k)%nat with (w + S k)%nat by lia.
    rewrite IH by (Z.div_mod_to_equations; lia).
    cbn [read_digits].
    rewrite char_digit_digit_char by (Z.div_mod_to_equations; lia).
    cbn [obind]. f_equal.
    rewrite Nat2Z.inj_succ, Z.pow_succ_r by lia.
    Z.div_mod_to_equations; lia.
Qed.

Lemma read_fixed w n rest :
  0 <= n < 10 ^ Z.of_nat w ->
  read_digits w 0 (fixed w n ++ rest) = Some (n, rest).
Proof.
  intros Hn. replace w with (w + 0)%nat at 1 by lia.
  rewrite read_digits_fixed by exact Hn. reflexivity.
Qed.

Lemma digit_char_not_sign n c :
  0 <= n <= 9 -> c = "+"%char \/ c = "-"%char ->
  Ascii.eqb (digit_char n) c = false.
Proof.
  intros Hn Hc. revert n Hn.
  apply (digit_elim (fun n => Ascii.eqb (digit_char n) c = false)).
  destruct Hc as [-> | ->]; repeat constructor.
Qed.

Lemma read_year_text y rest :
  -999999 <= y <= 999999 ->
  read_year (year_text y ++ rest) = Some (y, rest).
Proof.
  intros Hy. unfold year_text.
  destruct (Z.leb_spec 0 y) as [Hpos|Hneg]; cbn [andb].
  - destruct (Z.leb_spec y 9999) as [Hsmall|Hbig].
    + pose proof (read_fixed 4 y rest) as Hread.
      cbn [fixed append] in Hread |- *. unfold read_year.
      rewrite !digit_char_not_sign
        by (first [Z.div_mod_to_equations; lia | tauto]).
      apply Hread. simpl. lia.
    + destruct (Z.ltb_spec y 0); [lia|].
      unfold read_year. cbn [append]. simpl Ascii.eqb. cbv iota.
      apply read_fixed. simpl. lia.
  - destruct (Z.ltb_spec y 0); [|lia].
    unfold read_year. cbn [append]. simpl Ascii.eqb. cbv iota.
    rewrite read_fixed by (simpl; lia). cbn [obind fst snd].
    f_equal. f_equal. lia.
Qed.

Lemma civil_year_bounds days :
  -100000000 <= days <= 100000000 ->
  let '(y, m, d) := civil_from_days days in -999999 <= y <= 999999.
Proof.
  intros Hd. unfold civil_from_days. cbv zeta.
  remember (days + 719468) as z' eqn:Hz'.
  remember (z' / 146097) as era eqn:Hera.
  remember (z' mod 146097) as doe eqn:Hdoe'.
  assert (Hdoe : 0 <= doe < 146097) by (subst doe; apply Z.mod_pos_bound; lia).
  assert (Hz : z' = 146097 * era + doe) by (subst era doe; apply Z.div_mod; lia).
  pose proof (yoe_bounds doe Hdoe) as Hy. cbv zeta in Hy.
  remember ((doe - doe / 1460 + doe / 36524 - doe / 146096) / 365)
    as yoe eqn:Hyoe'.
  destruct Hy as [Hyoe _].
  clear Hera Hdoe' Hyoe'.
  match goal with |- context [if ?c then 1 else 0] => destruct c end; lia.
Qed.

Lemma Date_parse_text t s :
  -8640000000000000 <= t <= 8640000000000000 ->
  s = toISOString t -> Date_parse s = Some t.
Proof.
  intros Ht Hs. unfold Date_parse. rewrite Hs at 1.
  unfold toISOString at 1.
  assert (Hdays : -100000000 <= t / msPerDay <= 100000000)
    by (unfold msPerDay; Z.div_mod_to_equations; lia).
  pose proof (civil_roundtrip (t / msPerDay)) as Hround.
  pose proof (civil_year_bounds (t / msPerDay) Hdays) as Hyear.
  destruct (civil_from_days (t / msPerDay)) as [[y m] d].
  destruct Hround as (Hback & Hm & Hd).
  remember (t mod msPerDay) as ms eqn:Hms.
  assert (Hmsr : 0 <= ms < 86400000)
    by (subst ms; apply Z.mod_pos_bound; reflexivity).
  rewrite read_year_text by exact Hyear. cbn [obind append expect].
  simpl Ascii.eqb. cbv iota. cbn [obind].
  rewrite (read_fixed 2 m) by (simpl; lia). cbn [obind append expect].
  simpl Ascii.eqb. cbv iota. cbn [obind].
  rewrite (read_fixed 2 d) by (simpl; lia). cbn [obind append expect].
  simpl Ascii.eqb. cbv iota. cbn [obind].
  rewrite (read_fixed 2 (ms / 3600000))
    by (simpl; Z.div_mod_to_equations; lia).
  cbn [obind append expect]. simpl Ascii.eqb. cbv iota. cbn [obind].
  rewrite (read_fixed 2 (ms / 60000 mod 60))
    by (simpl; Z.div_mod_to_equations; lia).
  cbn [obind append expect]. simpl Ascii.eqb. cbv iota. cbn [obind].
  rewrite (read_fixed 2 (ms / 1000 mod 60))
    by (simpl; Z.div_mod_to_equations; lia).
  cbn [obind append expect]. simpl Ascii.eqb. cbv iota. cbn [obind].
  rewrite (read_fixed 3 (ms mod 1000))
    by (simpl; Z.div_mod_to_equations; lia).
  cbn [obind append expect]. simpl Ascii.eqb. cbv iota. cbn [obind].
  rewrite Hback.
  replace (t / msPerDay * msPerDay + ms / 3600000 * 3600000
           + ms / 60000 mod 60 * 60000 + ms / 1000 mod 60 * 1000
           + ms mod 1000) with t
    by (subst ms; unfold msPerDay; Z.div_mod_to_equations; lia).
  rewrite Hs, String.eqb_refl. reflexivity.
Qed.

Lemma Date_parse_toISOString t :
  -8640000000000000 <= t <= 8640000000000000 ->
  Date_parse (toISOString t) = Some t.
Proof. intros Ht. apply Date_parse_text; [exact Ht | reflexivity]. Qed.

(** ** JSON texts: strings and numbers *)

Lemma parse_string_unit c tail :
  parse_string (quote_unit c ++ tail)
  = obind (parse_string tail) (fun '(t, rest) => Some (String c t, rest)).
Proof.
  destruct c as [b0 b1 b2 b3 b4 b5 b6 b7].
  destruct b0, b1, b2, b3, b4, b5, b6, b7; reflexivity.
Qed.

Lemma parse_string_quoted s rest :
  parse_string (quote_units s ++ String quotation_mark rest) = Some (s, rest).
Proof.
  induction s as [|c s IH]; simpl.
  - reflexivity.
  - rewrite append_assoc, parse_string_unit, IH. reflexivity.
Qed.

Lemma QuoteJSONString_app s rest :
  QuoteJSONString s ++ rest
  = String quotation_mark (quote_units s ++ String quotation_mark rest).
Proof.
  unfold QuoteJSONString. simpl. rewrite append_assoc. reflexivity.
Qed.

Lemma to_uint_head p :
  exists l, Pos.to_uint p = l /\ l <> Decimal.Nil
            /\ forall l', l <> Decimal.D0 l'.
Proof.
  exists (Pos.to_uint p). split; [reflexivity|].
  split; [apply DecimalPos.Unsigned.to_uint_nonnil|].
  intros l' Hl.
  pose proof (DecimalPos.Unsigned.to_of (Pos.to_uint p)) as Hnorm.
  rewrite DecimalPos.Unsigned.of_to in Hnorm. simpl in Hnorm.
  unfold Decimal.unorm in Hnorm.
  destruct (Decimal.nzhead (Pos.to_uint p)) eqn:Hnz;
    try (rewrite Hl in Hnorm; discriminate).
  - apply (DecimalPos.Unsigned.to_uint_nonzero p). exact Hnorm.
  - apply (DecimalFacts.nzhead_nonzero (Pos.to_uint p) u). exact Hnz.
Qed.

Lemma string_of_uint_pos p :
  NilZero.string_of_uint (Pos.to_uint p)
  = NilEmpty.string_of_uint (Pos.to_uint p).
Proof.
  unfold NilZero.string_of_uint.
  destruct (Pos.to_uint p) eqn:H; try reflexivity.
  exfalso. apply (DecimalPos.Unsigned.to_uint_nonnil p H).
Qed.

Lemma read_numeral_digits ds : forall acc rest,
  all_digits ds = true -> starts_with_digit rest = false ->
  read_numeral acc (ds ++ rest) = (value_of_digits acc ds, rest).
Proof.
  induction ds as [|c ds IH]; intros acc rest Hds Hrest; simpl in *.
  - destruct rest as [|c r]; [reflexivity|]. simpl in Hrest |- *.
    destruct (char_digit c); [discriminate | reflexivity].
  - destruct (char_digit c); [|discriminate]. apply IH; assumption.
Qed.

Lemma read_fraction_digits ds : forall acc count rest,
  all_digits ds = true -> starts_with_digit rest = false ->
  read_fraction acc count (ds ++ rest)
  = (value_of_digits acc ds, (count + String.length ds)%nat, rest).
Proof.
  induction ds as [|c ds IH]; intros acc count rest Hds Hrest; simpl in *.
  - rewrite Nat.add_0_r. destruct rest as [|c r]; [reflexivity|].
    simpl in Hrest |- *.
    destruct (char_digit c); [discriminate | reflexivity].
  - destruct (char_digit c); [|discriminate].
    rewrite IH by assumption. rewrite Nat.add_succ_r. reflexivity.
Qed.

Lemma value_of_digits_app a : forall acc b,
  all_digits a = true ->
  value_of_digits acc (a ++ b) = value_of_digits (value_of_digits acc a) b.
Proof.
  induction a as [|c a IH]; intros acc b Ha; simpl in *; [reflexivity|].
  destruct (char_digit c); [|discriminate]. apply IH, Ha.
Qed.

Lemma all_digits_app a b :
  all_digits (a ++ b) = all_digits a && all_digits b.
Proof.
  induction a as [|c a IH]; simpl; [reflexivity|].
  destruct (char_digit c); [exact IH | reflexivity].
Qed.

Lemma value_of_digits_shift ds : forall acc,
  all_digits ds = true ->
  value_of_digits acc ds
  = acc * 10 ^ Z.of_nat (String.length ds) + value_of_digits 0 ds.
Proof.
  induction ds as [|c ds IH]; intros acc Hds; simpl String.length.
  - simpl. lia.
  - cbn [value_of_digits all_digits] in Hds |- *.
    destruct (char_digit c) as [d|]; [|discriminate].
    rewrite (IH (10 * acc + d) Hds), (IH (10 * 0 + d) Hds).
    rewrite Nat2Z.inj_succ, Z.pow_succ_r by lia. ring.
Qed.

Lemma zeros_digits n : all_digits (zeros n) = true.
Proof. induction n; [reflexivity | exact IHn]. Qed.

Lemma zeros_length n : String.length (zeros n) = n.
Proof. induction n; simpl; [reflexivity | rewrite IHn; reflexivity]. Qed.

Lemma value_of_zeros n : forall acc,
  value_of_digits acc (zeros n) = acc * 10 ^ Z.of_nat n.
Proof.
  intros acc. rewrite value_of_digits_shift by apply zeros_digits.
  rewrite zeros_length.
  assert (H : forall k, value_of_digits 0 (zeros k) = 0)
    by (induction k; [reflexivity | exact IHk]).
  rewrite H. lia.
Qed.

Lemma take_drop n : forall s, (take n s ++ drop n s)%string = s.
Proof.
  induction n as [|n IH]; intros [|c r]; simpl; try reflexivity.
  rewrite IH. reflexivity.
Qed.

Lemma take_length n : forall s,
  (n <= String.length s)%nat -> String.length (take n s) = n.
Proof.
  induction n as [|n IH]; intros [|c r] H; simpl in *; try reflexivity; try lia.
  rewrite IH by lia. reflexivity.
Qed.

Lemma significant_zeros s :
  exists z, s = (significant s ++ zeros z)%string
            /\ String.length s = (String.length (significant s) + z)%nat.
Proof.
  induction s as [|c s (z & Hs & Hlen)]; simpl.
  - exists 0%nat. split; reflexivity.
  - destruct (significant s) as [|c' r'] eqn:Hsig.
    + destruct (Ascii.eqb_spec c "0"%char) as [->|Hc].
      * exists (S z). simpl in *. rewrite <- Hs. split; [reflexivity | lia].
      * exists z. simpl in *. rewrite <- Hs. split; [reflexivity | lia].
    + exists z. simpl in *. rewrite <- Hs. split; [reflexivity | lia].
Qed.

Lemma significant_digits s :
  all_digits s = true -> all_digits (significant s) = true.
Proof.
  induction s as [|c s IH]; simpl; [reflexivity|].
  destruct (char_digit c) eqn:Hc; [|discriminate]. intros Hs.
  specialize (IH Hs).
  destruct (significant s) as [|c' r']; simpl in *.
  - destruct (Ascii.eqb c "0"); simpl; [reflexivity | rewrite Hc; reflexivity].
  - rewrite Hc. exact IH.
Qed.

Lemma significant_head c r :
  Ascii.eqb c "0" = false ->
  exists r', significant (String c r) = String c r'.
Proof.
  intros Hc. simpl. destruct (significant r) as [|c' r'];
    [rewrite Hc|]; eexists; reflexivity.
Qed.

Lemma uint_digits l : all_digits (NilEmpty.string_of_uint l) = true.
Proof. induction l; simpl; try reflexivity; exact IHl. Qed.

Lemma uint_value l : forall a,
  value_of_digits (Zpos a) (NilEmpty.string_of_uint l)
  = Zpos (Pos.of_uint_acc l a).
Proof.
  induction l; intros a;
    cbn [NilEmpty.string_of_uint value_of_digits Pos.of_uint_acc];
    [ reflexivity | .. ];
    match goal with
    | |- context [char_digit ?c] =>
        let v := eval vm_compute in (char_digit c) in
        change (char_digit c) with v
    end;
    cbv iota beta;
    match goal with
    | |- value_of_digits ?z _ = Z.pos (Pos.of_uint_acc _ ?q) =>
        replace z with (Z.pos q) by lia
    end;
    apply IHl.
Qed.

Lemma integer_text_pos p :
  exists d r,
    integer_text (Zpos p) = String d r
    /\ Ascii.eqb d "0" = false
    /\ all_digits (String d r) = true
    /\ value_of_digits 0 (String d r) = Zpos p.
Proof.
  unfold integer_text.
  change (NilZero.string_of_int (Z.to_int (Z.pos p)))
    with (NilZero.string_of_uint (Pos.to_uint p)).
  rewrite string_of_uint_pos.
  destruct (to_uint_head p) as (l & Hl & Hnil & Hzero).
  pose proof (DecimalPos.Unsigned.of_to p) as Hback.
  pose proof (uint_digits (Pos.to_uint p)) as Hdigits.
  rewrite Hl in Hback, Hdigits |- *.
  destruct l; try congruence; try (exfalso; eapply Hzero; reflexivity);
    cbn [NilEmpty.string_of_uint] in Hdigits |- *;
    (eexists; eexists; split; [reflexivity|]; split; [reflexivity|];
     split; [exact Hdigits|]);
    cbn [value_of_digits];
    match goal with
    | |- context [char_digit ?c] =>
        let v := eval vm_compute in (char_digit c) in
        change (char_digit c) with v
    end;
    cbv iota beta; simpl Z.add;
    rewrite uint_value; simpl in Hback; congruence.
Qed.

(** The numeral of a natural number. *)
Lemma integer_text_natural v :
  0 <= v ->
  all_digits (integer_text v) = true
  /\ starts_with_digit (integer_text v) = true
  /\ value_of_digits 0 (integer_text v) = v.
Proof.
  intros Hv. destruct v as [|p|p]; [repeat split | | lia].
  destruct (integer_text_pos p) as (d & r & -> & Hd & Hdigits & Hvalue).
  split; [exact Hdigits|]. split; [|exact Hvalue].
  simpl in Hdigits |- *. destruct (char_digit d); [reflexivity | discriminate].
Qed.

Lemma integer_text_neg p :
  integer_text (Zneg p) = String "-" (integer_text (Zpos p)).
Proof. reflexivity. Qed.

Lemma char_digit_zero c : char_digit c = Some 0 -> c = "0"%char.
Proof.
  unfold char_digit. intros H.
  destruct ((48 <=? N_of_ascii c) && (N_of_ascii c <=? 57))%N; [|discriminate].
  inversion H as [Hn].
  assert (Hc : N_of_ascii c = 48%N) by lia.
  rewrite <- (ascii_N_embedding c), Hc. reflexivity.
Qed.

Lemma stops_no_digit rest :
  numeral_stops rest = true -> starts_with_digit rest = false.
Proof.
  destruct rest as [|c r]; [reflexivity|]. unfold numeral_stops.
  destruct (starts_with_digit (String c r)); [discriminate | reflexivity].
Qed.

Lemma parse_int_digits d r rest :
  Ascii.eqb d "0" = false -> all_digits (String d r) = true ->
  starts_with_digit rest = false ->
  parse_int (String d r ++ rest)
  = Some (value_of_digits 0 (String d r), rest).
Proof.
  intros Hd Hdigits Hrest. cbn [append parse_int all_digits value_of_digits] in *.
  destruct (char_digit d) as [d'|] eqn:Hd'; [|discriminate].
  destruct (Z.eqb_spec d' 0) as [->|Hne].
  - apply char_digit_zero in Hd'. subst d. discriminate.
  - rewrite (read_numeral_digits r d' rest Hdigits Hrest). reflexivity.
Qed.

Lemma parse_exp_text n rest :
  starts_with_digit rest = false ->
  parse_exp (String "e" ((if 0 <=? n then "+" else "-")
                           ++ integer_text (Z.abs n) ++ rest))
  = Some (n, rest).
Proof.
  intros Hrest.
  destruct (integer_text_natural (Z.abs n) (Z.abs_nonneg n))
    as (Hdigits & Hstart & Hvalue).
  assert (Hstart' : starts_with_digit (integer_text (Z.abs n) ++ rest) = true).
  { destruct (integer_text (Z.abs n)); [discriminate | exact Hstart]. }
  destruct (Z.leb_spec 0 n); cbn [append parse_exp Ascii.eqb Bool.eqb orb andb];
    rewrite Hstart', (read_numeral_digits _ 0 rest Hdigits Hrest), Hvalue;
    f_equal; f_equal; lia.
Qed.

Lemma parse_exp_none rest :
  numeral_stops rest = true -> parse_exp rest = Some (0, rest).
Proof.
  destruct rest as [|c r]; [reflexivity|]. unfold numeral_stops, parse_exp.
  destruct (Ascii.eqb c "e"), (Ascii.eqb c "E");
    rewrite ?orb_true_r; simpl; try discriminate. reflexivity.
Qed.

Lemma parse_frac_none int rest :
  numeral_stops rest = true -> parse_frac int rest = Some (int, 0%nat, rest).
Proof.
  destruct rest as [|c r]; [reflexivity|]. unfold numeral_stops, parse_frac.
  destruct (Ascii.eqb c "."); rewrite ?orb_true_r; simpl; try discriminate.
  reflexivity.
Qed.

Lemma parse_int_head d d' x :
  Ascii.eqb d "0" = false -> char_digit d = Some d' ->
  starts_with_digit x = false ->
  parse_int (String d x) = Some (d', x).
Proof.
  intros Hd Hd' Hx. unfold parse_int. rewrite Hd'.
  destruct (Z.eqb_spec d' 0) as [->|Hne].
  - apply char_digit_zero in Hd'. subst d. discriminate.
  - pose proof (read_numeral_digits "" d' x eq_refl Hx) as Hread.
    cbn [append value_of_digits] in Hread. rewrite Hread. reflexivity.
Qed.

(** Reading a numeral in exponent notation. *)
Lemma parse_exponent_text negative d r n rest :
  Ascii.eqb d "0" = false -> all_digits (String d r) = true ->
  starts_with_digit rest = false ->
  parse_unsigned negative (exponent_text (String d r) n ++ rest)
  = Some (make_number negative (value_of_digits 0 (String d r))
            (String.length r) (n - 1), rest).
Proof.
  intros Hd Hdigits Hrest. unfold parse_unsigned, exponent_text.
  cbn [all_digits value_of_digits] in Hdigits |- *.
  destruct (char_digit d) as [d'|] eqn:Hd'; [|discriminate].
  rewrite !append_assoc.
  destruct r as [|c r]; cbn [append].
  - rewrite (parse_int_head d d') by (try assumption; reflexivity).
    cbn [obind].
    cbn [parse_frac Ascii.eqb Bool.eqb andb]. cbn [obind].
    rewrite (parse_exp_text (n - 1) rest Hrest). reflexivity.
  - rewrite (parse_int_head d d') by (try assumption; reflexivity).
    cbn [obind].
    cbn [parse_frac Ascii.eqb Bool.eqb andb].
    assert (Hstart : forall x, starts_with_digit (String c x) = true).
    { intros x. simpl in Hdigits |- *.
      destruct (char_digit c); [reflexivity | discriminate]. }
    rewrite Hstart.
    change (String c (r ++ String "e" ?x)) with (String c r ++ String "e" x)%string.
    rewrite (read_fraction_digits (String c r)) by (assumption || reflexivity).
    cbn [obind]. rewrite (parse_exp_text (n - 1) rest Hrest). cbn [obind].
    reflexivity.
Qed.

Lemma digit_not_minus c d : char_digit c = Some d -> Ascii.eqb c "-" = false.
Proof.
  intros H. destruct (Ascii.eqb_spec c "-"%char) as [->|]; [discriminate|].
  reflexivity.
Qed.

Lemma make_number_integer negative m f e :
  0 < m -> 0 <= e - Z.of_nat f ->
  make_number negative m f e
  = Int ((if negative then - m else m) * 10 ^ (e - Z.of_nat f)).
Proof.
  intros Hm Hx. unfold make_number.
  destruct (Z.eqb_spec m 0); [lia|].
  destruct (Z.leb_spec 0 (e - Z.of_nat f)); [reflexivity | lia].
Qed.

Lemma make_number_fraction negative m f e (places : positive) :
  0 < m -> m mod 10 <> 0 -> e - Z.of_nat f = - Zpos places ->
  make_number negative m f e
  = Frac (if negative then - m else m) places.
Proof.
  intros Hm Hten Hx. unfold make_number.
  destruct (Z.eqb_spec m 0); [lia|].
  rewrite Hx. destruct (Z.leb_spec 0 (- Z.pos places)); [lia|].
  rewrite Z.opp_involutive.
  change (Z.to_nat (Z.pos places)) with (Pos.to_nat places).
  destruct (Pos2Nat.is_succ places) as [k Hk]. rewrite Hk.
  cbn [reduce].
  assert (Hten' : (if negative then - m else m) mod 10 <> 0).
  { destruct negative; [|exact Hten]. intros Hdiv. apply Hten.
    apply Z.mod_divide in Hdiv; [|lia]. apply Z.mod_divide; [lia|].
    destruct Hdiv as [q Hq]. exists (- q). lia. }
  destruct (Z.eqb_spec ((if negative then - m else m) mod 10) 0); [contradiction|].
  f_equal. apply Pos2Nat.inj. rewrite SuccNat2Pos.id_succ. symmetry. exact Hk.
Qed.

Lemma all_digits_take_drop n s :
  all_digits s = true ->
  all_digits (take n s) = true /\ all_digits (drop n s) = true.
Proof.
  intros Hs. rewrite <- (take_drop n s), all_digits_app in Hs.
  apply andb_true_iff in Hs. exact Hs.
Qed.

Lemma drop_length n : forall s,
  String.length (drop n s) = (String.length s - n)%nat.
Proof.
  induction n as [|n IH]; intros [|c r]; simpl; try reflexivity; try lia.
  apply IH.
Qed.

Lemma digits_start s :
  all_digits s = true -> (0 < String.length s)%nat ->
  forall rest, starts_with_digit (s ++ rest) = true.
Proof.
  destruct s as [|c r]; simpl; intros Hs Hlen rest; [lia|].
  destruct (char_digit c); [reflexivity | discriminate].
Qed.

(** The numeral of a number that spells one is read back as that number. *)
Lemma parse_number_toString x rest :
  json_number x -> numeral_stops rest = true ->
  parse_number (Number_toString x ++ rest) = Some (x, rest).
Proof.
  intros Hx Hrest. pose proof (stops_no_digit rest Hrest) as Hnodigit.
  assert (Hplain : forall negative d r,
            Ascii.eqb d "0" = false -> all_digits (String d r) = true ->
            parse_unsigned negative (String d r ++ rest)
            = Some (make_number negative (value_of_digits 0 (String d r))
                      0 0, rest)).
  { intros negative d r Hd Hdigits. unfold parse_unsigned.
    rewrite (parse_int_digits d r rest Hd Hdigits Hnodigit). cbn [obind].
    rewrite (parse_frac_none _ rest Hrest). cbn [obind].
    rewrite (parse_exp_none rest Hrest). reflexivity. }
  assert (Hsigned : forall (negative : bool) d r text,
            all_digits (String d r) = true ->
            parse_number ((if negative then "-" else "")
                            ++ String d text)
            = parse_unsigned negative (String d text)).
  { intros negative d r text Hdigits. destruct negative; [reflexivity|].
    simpl in Hdigits |- *. destruct (char_digit d) eqn:Hd; [|discriminate].
    rewrite (digit_not_minus d _ Hd). reflexivity. }
  destruct x as [n|m f| | |]; try contradiction.
  - (* an integer *)
    unfold Number_toString.
    destruct (Z.ltb_spec (Z.abs n) 1000000000000000000000) as [Hsmall|Hbig].
    + destruct n as [|p|p].
      * unfold parse_number, parse_unsigned. cbn.
        rewrite (parse_frac_none _ rest Hrest). cbn [obind].
        rewrite (parse_exp_none rest Hrest). reflexivity.
      * destruct (integer_text_pos p) as (d & r & -> & Hd & Hdigits & Hvalue).
        change (String d r ++ rest)%string
          with ("" ++ String d (r ++ rest))%string.
        rewrite (Hsigned false d r (r ++ rest)%string Hdigits).
        change (String d (r ++ rest)) with (String d r ++ rest)%string.
        rewrite (Hplain false d r Hd Hdigits), Hvalue.
        rewrite make_number_integer by (cbn; lia).
        change (0 - Z.of_nat 0) with 0. rewrite Z.pow_0_r, Z.mul_1_r.
        reflexivity.
      * rewrite integer_text_neg.
        destruct (integer_text_pos p) as (d & r & -> & Hd & Hdigits & Hvalue).
        change (String "-" (String d r) ++ rest)%string
          with ("-" ++ String d (r ++ rest))%string.
        rewrite (Hsigned true d r (r ++ rest)%string Hdigits).
        change (String d (r ++ rest)) with (String d r ++ rest)%string.
        rewrite (Hplain true d r Hd Hdigits), Hvalue.
        rewrite make_number_integer by (cbn; lia).
        change (0 - Z.of_nat 0) with 0. rewrite Z.pow_0_r, Z.mul_1_r.
        reflexivity.
    + assert (Hn : n <> 0 -> exists p, Z.abs n = Zpos p)
        by (destruct n; [congruence | eexists; reflexivity ..]).
      assert (Hne : n <> 0) by lia.
      destruct (Hn Hne) as [p Hp]. rewrite Hp. cbv zeta.
      destruct (integer_text_pos p) as (d & r & Htext & Hd & Hdigits & Hvalue).
      rewrite Htext.
      destruct (significant_head d r Hd) as [r' Hsig].
      destruct (significant_zeros (String d r)) as (z & Hsplit & Hlen).
      pose proof (significant_digits _ Hdigits) as Hsigdigits.
      rewrite Hsig in Hsplit, Hlen, Hsigdigits |- *.
      rewrite append_assoc.
      assert (Hshape : exists text,
                 (exponent_text (String d r')
                    (Z.of_nat (String.length (String d r))) ++ rest)%string
                 = String d text).
      { unfold exponent_text. cbn [append]. eexists. reflexivity. }
      destruct Hshape as [text Hshape]. rewrite Hshape.
      rewrite (Hsigned (n <? 0) d r' text Hsigdigits), <- Hshape.
      rewrite (parse_exponent_text _ d r' _ rest Hd Hsigdigits Hnodigit).
      assert (Hwhole : value_of_digits 0 (String d r')
                       * 10 ^ Z.of_nat z = Zpos p).
      { rewrite <- Hvalue. rewrite Hsplit.
        rewrite value_of_digits_app, value_of_zeros by exact Hsigdigits.
        reflexivity. }
      assert (Hpos : 0 < value_of_digits 0 (String d r')) by nia.
      rewrite make_number_integer.
      * replace (Z.of_nat (String.length (String d r)) - 1
                 - Z.of_nat (String.length r')) with (Z.of_nat z)
          by (simpl String.length in Hlen |- *; lia).
        replace ((if n <? 0 then - value_of_digits 0 (String d r')
                  else value_of_digits 0 (String d r')) * 10 ^ Z.of_nat z)
          with n; [reflexivity|].
        destruct (Z.ltb_spec n 0); lia.
      * exact Hpos.
      * simpl String.length in Hlen |- *. lia.
  - (* a fraction *)
    simpl in Hx. unfold Number_toString. cbv zeta.
    assert (Hm : m <> 0) by (intros ->; apply Hx; reflexivity).
    assert (Hp : exists p, Z.abs m = Zpos p)
      by (destruct m; [congruence | eexists; reflexivity ..]).
    destruct Hp as [p Hp]. rewrite Hp.
    assert (Hten : Zpos p mod 10 <> 0).
    { rewrite <- Hp. intros Hdiv. apply Hx.
      apply Z.mod_divide in Hdiv; [|lia]. apply Z.mod_divide; [lia|].
      destruct Hdiv as [q Hq]. destruct (Z.abs_spec m) as [[_ Ha]|[_ Ha]];
        [exists q | exists (- q)]; lia. }
    assert (Hsign : (if m <? 0 then - Zpos p else Zpos p) = m)
      by (destruct (Z.ltb_spec m 0); lia).
    destruct (integer_text_pos p) as (d & r & Htext & Hd & Hdigits & Hvalue).
    rewrite Htext.
    set (k := String.length (String d r)).
    assert (Hk : (0 < k)%nat) by (unfold k; simpl; lia).
    rewrite append_assoc.
    assert (Hexp : forall n,
               Z.of_nat k - Zpos f = n ->
               parse_number ((if m <? 0 then "-" else "")
                               ++ exponent_text (String d r) n ++ rest)
               = Some (Frac m f, rest)).
    { intros n Hnk.
      assert (Hshape : exists text,
                 (exponent_text (String d r) n ++ rest)%string
                 = String d text).
      { unfold exponent_text. cbn [append]. eexists. reflexivity. }
      destruct Hshape as [text Hshape]. rewrite Hshape.
      rewrite (Hsigned (m <? 0) d r text Hdigits), <- Hshape.
      rewrite (parse_exponent_text _ d r _ rest Hd Hdigits Hnodigit).
      rewrite Hvalue.
      rewrite (make_number_fraction _ _ _ _ f); [rewrite Hsign; reflexivity |lia|exact Hten|].
      unfold k in Hnk. simpl String.length in Hnk. lia. }
    destruct (Z.ltb_spec 21 (Z.of_nat k - Zpos f)) as [Hbig|Hsmall];
      [apply Hexp; reflexivity|].
    destruct (Z.ltb_spec 0 (Z.of_nat k - Zpos f)) as [Hinside|Hleft].
    + (* the point lies inside the digits *)
      set (n := Z.to_nat (Z.of_nat k - Zpos f)).
      assert (Hn : (0 < n < k)%nat) by (unfold n; lia).
      destruct (all_digits_take_drop n _ Hdigits) as [Htake Hdrop].
      assert (Htaken : exists t, take n (String d r) = String d t).
      { destruct n as [|n']; [lia|]. eexists. reflexivity. }
      destruct Htaken as [t Htaken]. rewrite Htaken in Htake |- *.
      rewrite !append_assoc. cbn [append].
      rewrite (Hsigned (m <? 0) d t _ Htake).
      unfold parse_unsigned.
      change (String d (t ++ String "." (drop n (String d r) ++ rest)))
        with (String d t ++ String "." (drop n (String d r) ++ rest))%string.
      rewrite (parse_int_digits d t) by (assumption || reflexivity).
      cbn [obind].
      cbn [parse_frac Ascii.eqb Bool.eqb andb].
      assert (Hdroplen : String.length (drop n (String d r)) = (k - n)%nat)
        by apply drop_length.
      rewrite (digits_start _ Hdrop) by lia.
      rewrite (read_fraction_digits _ _ 0%nat rest Hdrop Hnodigit).
      cbn [obind]. rewrite (parse_exp_none rest Hrest). cbn [obind].
      rewrite <- value_of_digits_app by exact Htake.
      rewrite <- Htaken, take_drop, Hvalue.
      rewrite (make_number_fraction _ _ _ _ f);
        [rewrite Hsign; reflexivity | lia | exact Hten |].
      rewrite Hdroplen. unfold n. lia.
    + destruct (Z.ltb_spec (-6) (Z.of_nat k - Zpos f)) as [Hnear|Hfar];
        [|apply Hexp; reflexivity].
      (* zeros between the point and the digits *)
      set (z := Z.to_nat (- (Z.of_nat k - Zpos f))).
      assert (Hzero : parse_number ((if m <? 0 then "-" else "")
                                      ++ String "0" (String "." (zeros z ++ String d r ++ rest)))
                      = parse_unsigned (m <? 0)
                          (String "0" (String "." (zeros z ++ String d r ++ rest))))
        by (destruct (m <? 0); reflexivity).
      cbn [append]. rewrite append_assoc. rewrite Hzero.
      unfold parse_unsigned. cbn [parse_int char_digit].
      change (char_digit "0") with (Some 0). cbv iota. cbn [Z.eqb obind].
      cbn [parse_frac Ascii.eqb Bool.eqb andb].
      rewrite <- append_assoc.
      assert (Hall : all_digits (zeros z ++ String d r) = true)
        by (rewrite all_digits_app, zeros_digits, Hdigits; reflexivity).
      rewrite (digits_start _ Hall)
        by (rewrite append_length; fold k; lia).
      rewrite (read_fraction_digits _ _ 0%nat rest Hall Hnodigit).
      cbn [obind]. rewrite (parse_exp_none rest Hrest). cbn [obind].
      rewrite value_of_digits_app, value_of_zeros by apply zeros_digits.
      rewrite Z.mul_0_l, Hvalue.
      rewrite (make_number_fraction _ _ _ _ f);
        [rewrite Hsign; reflexivity | lia | exact Hten |].
      rewrite append_length, zeros_length. fold k. unfold z. lia.
Qed.

Lemma value_end_stops rest : value_end rest -> numeral_stops rest = true.
Proof.
  destruct rest as [|c r]; [reflexivity|]. simpl.
  intros [-> | [-> | ->]]; reflexivity.
Qed.

(** ** JSON texts: values *)

Lemma value_induction (P : value -> Prop) :
  P VUndefined -> P VNull -> (forall b, P (VBool b)) -> (forall n, P (VNum n)) ->
  (forall n, P (VBigInt n)) -> (forall s, P (VStr s)) ->
  (forall l, Forall P l -> P (VArr l)) ->
  (forall ps, Forall (fun kv => P (snd kv)) ps -> P (VObj ps)) ->
  forall v, P v.
Proof.
  intros Hu Hn Hb Hnum Hbig Hs Harr Hobj.
  fix IH 1. intros v. destruct v as [| |b|n|n|s|l|ps].
  - exact Hu.
  - exact Hn.
  - apply Hb.
  - apply Hnum.
  - apply Hbig.
  - apply Hs.
  - apply Harr. induction l as [|x l IHl]; constructor; [apply IH | exact IHl].
  - apply Hobj. induction ps as [|[k x] ps IHps]; constructor;
      [apply IH | exact IHps].
Qed.

Lemma serialize_array l :
  SerializeJSONProperty (VArr l)
  = match serialize_items l with
    | Throw e => Throw e
    | Return parts => Return (Some ("[" ++ String.concat "," parts ++ "]"))
    end.
Proof.
  simpl.
  match goal with |- match ?a with _ => _ end = match ?b with _ => _ end =>
    replace a with b; [reflexivity|] end.
  induction l as [|x l IH]; simpl; [reflexivity|].
  destruct (SerializeJSONProperty x); [|reflexivity].
  rewrite IH. reflexivity.
Qed.

Lemma serialize_object ps :
  SerializeJSONProperty (VObj ps)
  = match serialize_members ps with
    | Throw e => Throw e
    | Return parts => Return (Some ("{" ++ String.concat "," parts ++ "}"))
    end.
Proof.
  simpl.
  match goal with |- match ?a with _ => _ end = match ?b with _ => _ end =>
    replace a with b; [reflexivity|] end.
  induction ps as [|[k x] ps IH]; simpl; [reflexivity|].
  destruct (SerializeJSONProperty x); [|reflexivity].
  rewrite IH. reflexivity.
Qed.

Lemma json_value_array l :
  json_value (VArr l) <-> Forall json_value l.
Proof.
  simpl. induction l as [|x l IH]; split; intros H.
  - constructor.
  - exact I.
  - destruct H as [Hx Hl]. constructor; [exact Hx | apply IH, Hl].
  - inversion H; subst. split; [assumption | apply IH; assumption].
Qed.

Lemma json_value_object ps :
  json_value (VObj ps)
  <-> obj_define [] ps = ps /\ Forall (fun kv => json_value (snd kv)) ps.
Proof.
  simpl. apply and_iff_compat_l.
  induction ps as [|[k x] ps IH]; split; intros H.
  - constructor.
  - exact I.
  - destruct H as [Hx Hl]. constructor; [exact Hx | apply IH, Hl].
  - inversion H; subst. split; [assumption | apply IH; assumption].
Qed.

Lemma serialize_json_value v :
  json_value v -> SerializeJSONProperty v = Return (Some (print v)).
Proof.
  induction v as [| |b|n|n|s|l IH|ps IH] using value_induction; intros Hv;
    try (simpl in Hv; contradiction); try reflexivity.
  - destruct b; reflexivity.
  - destruct n; simpl in Hv; try contradiction; reflexivity.
  - apply json_value_array in Hv. rewrite serialize_array.
    assert (Hitems : serialize_items l = Return (map print l)).
    { induction l as [|x l IHl]; [reflexivity|].
      inversion IH; subst. inversion Hv; subst. simpl.
      rewrite H1 by assumption. rewrite IHl by assumption. reflexivity. }
    rewrite Hitems. reflexivity.
  - apply json_value_object in Hv. destruct Hv as [_ Hv].
    rewrite serialize_object.
    assert (Hmembers :
              serialize_members ps
              = Return (map (fun kv => QuoteJSONString (fst kv) ++ ":"
                                         ++ print (snd kv)) ps)).
    { induction ps as [|[k x] ps IHps]; [reflexivity|].
      inversion IH; subst. inversion Hv; subst. simpl in *.
      rewrite H1 by assumption. rewrite IHps by assumption. reflexivity. }
    rewrite Hmembers. reflexivity.
Qed.

(** ** JSON texts: parsing what was printed *)

Lemma number_start_dispatch c :
  number_start c ->
  is_ws c = false
  /\ (N_of_ascii c =? 110)%N = false /\ (N_of_ascii c =? 116)%N = false
  /\ (N_of_ascii c =? 102)%N = false /\ (N_of_ascii c =? 34)%N = false
  /\ (N_of_ascii c =? 91)%N = false /\ (N_of_ascii c =? 123)%N = false
  /\ (N_of_ascii c =? 93)%N = false /\ (N_of_ascii c =? 125)%N = false.
Proof.
  destruct c as [b0 b1 b2 b3 b4 b5 b6 b7].
  destruct b0, b1, b2, b3, b4, b5, b6, b7;
    intros [H|H]; try discriminate H;
    try (exfalso; apply H; reflexivity);
    repeat split.
Qed.

Lemma digit_start c d : char_digit c = Some d -> number_start c.
Proof. intros H. right. congruence. Qed.

Lemma Number_toString_start x rest :
  json_number x ->
  exists c r, (Number_toString x ++ rest)%string = String c r
              /\ number_start c.
Proof.
  intros Hx.
  assert (Hdigit : forall p, exists d r,
             integer_text (Zpos p) = String d r /\ number_start d).
  { intros p.
    destruct (integer_text_pos p) as (d & r & Htext & _ & Hdigits & _).
    exists d, r. split; [exact Htext|]. simpl in Hdigits.
    destruct (char_digit d) eqn:Hd; [|discriminate].
    eapply digit_start, Hd. }
  assert (Hsigned : forall (negative : bool) d text,
             number_start d ->
             exists c r,
               ((if negative then "-" else "") ++ String d text)%string
               = String c r /\ number_start c).
  { intros negative d text Hd. destruct negative; eexists; eexists;
      (split; [reflexivity|]); [left; reflexivity | exact Hd]. }
  destruct x as [n|m f| | |]; try contradiction; unfold Number_toString.
  - destruct (Z.ltb_spec (Z.abs n) 1000000000000000000000) as [Hsmall|Hbig].
    + destruct n as [|p|p].
      * eexists; eexists; split; [reflexivity|]. right; discriminate.
      * destruct (Hdigit p) as (d & r & -> & Hd).
        exists d, (r ++ rest)%string. split; [reflexivity | exact Hd].
      * eexists; eexists; split; [reflexivity|]. left; reflexivity.
    + cbv zeta. destruct n as [|p|p].
      * simpl in Hbig. lia.
      * destruct (integer_text_pos p) as (d & r & Htext & Hd & Hdigits & _).
        change (Z.abs (Z.pos p)) with (Z.pos p). rewrite Htext.
        destruct (significant_head d r Hd) as [r' ->].
        eexists; eexists; split; [reflexivity|]. simpl in Hdigits.
        destruct (char_digit d) eqn:Hc; [|discriminate].
        eapply digit_start, Hc.
      * eexists; eexists; split; [reflexivity|]. left; reflexivity.
  - cbv zeta. simpl in Hx.
    assert (Hp : exists p, Z.abs m = Zpos p)
      by (destruct m; [exfalso; apply Hx; reflexivity
                      | eexists; reflexivity ..]).
    destruct Hp as [p ->].
    destruct (integer_text_pos p) as (d & r & Htext & Hd & Hdigits & _).
    rewrite Htext.
    assert (Hstart : number_start d).
    { simpl in Hdigits. destruct (char_digit d) eqn:Hc; [|discriminate].
      eapply digit_start, Hc. }
    destruct (m <? 0);
      [eexists; eexists; split; [reflexivity | left; reflexivity]|].
    cbn [append].
    destruct (21 <? _);
      [eexists; eexists; split; [reflexivity | exact Hstart]|].
    destruct (Z.ltb_spec 0 (Z.of_nat (String.length (String d r)) - Z.pos f))
      as [Hin|Hout].
    + destruct (Z.to_nat (Z.of_nat (String.length (String d r)) - Z.pos f))
        as [|n] eqn:Hn; [lia|].
      eexists; eexists; split; [reflexivity | exact Hstart].
    + destruct (-6 <? _); eexists; eexists;
        (split; [reflexivity|]); [right; discriminate | exact Hstart].
Qed.

Lemma parse_value_other f c r :
  is_ws c = false ->
  (N_of_ascii c =? 110)%N = false -> (N_of_ascii c =? 116)%N = false ->
  (N_of_ascii c =? 102)%N = false -> (N_of_ascii c =? 34)%N = false ->
  (N_of_ascii c =? 91)%N = false -> (N_of_ascii c =? 123)%N = false ->
  parse_value (S f) (String c r)
  = obind (parse_number (String c r)) (fun '(z, rest) => Some (VNum z, rest)).
Proof.
  intros Hws H1 H2 H3 H4 H5 H6. cbn [parse_value skip_ws].
  rewrite Hws, H1, H2, H3, H4, H5, H6. reflexivity.
Qed.

Lemma parse_value_number f x rest :
  json_number x -> value_end rest ->
  parse_value (S f) (Number_toString x ++ rest) = Some (VNum x, rest).
Proof.
  intros Hx Hrest.
  destruct (Number_toString_start x rest Hx) as (c & r & Htext & Hc).
  destruct (number_start_dispatch c Hc)
    as (Hws & H1 & H2 & H3 & H4 & H5 & H6 & _).
  rewrite Htext, parse_value_other by assumption.
  rewrite <- Htext, parse_number_toString
    by (try exact Hx; apply value_end_stops, Hrest).
  reflexivity.
Qed.

Lemma parse_value_string f s rest :
  parse_value (S f) (QuoteJSONString s ++ rest) = Some (VStr s, rest).
Proof.
  rewrite QuoteJSONString_app.
  change (parse_value (S f)
            (String quotation_mark
               (quote_units s ++ String quotation_mark rest)))
    with (obind (parse_string (quote_units s ++ String quotation_mark rest))
            (fun '(t, rest) => Some (VStr t, rest))).
  rewrite parse_string_quoted. reflexivity.
Qed.

Lemma parse_value_array f r :
  parse_value (S f) (String "[" r)
  = match skip_ws r with
    | String c' r' =>
        if (N_of_ascii c' =? 93)%N then Some (VArr [], r')
        else obind (parse_elements f r)
               (fun '(vs, rest) => Some (VArr vs, rest))
    | EmptyString => None
    end.
Proof. reflexivity. Qed.

Lemma parse_value_object f r :
  parse_value (S f) (String "{" r)
  = match skip_ws r with
    | String c' r' =>
        if (N_of_ascii c' =? 125)%N then Some (VObj [], r')
        else obind (parse_members f r)
               (fun '(ms, rest) => Some (VObj (obj_define [] ms), rest))
    | EmptyString => None
    end.
Proof. reflexivity. Qed.

Lemma parse_elements_S f s :
  parse_elements (S f) s
  = obind (parse_value f s) (fun '(v, r) =>
      match skip_ws r with
      | EmptyString => None
      | String c r' =>
          let n := N_of_ascii c in
          if (n =? 44)%N then
            obind (parse_elements f r')
              (fun '(vs, rest) => Some (v :: vs, rest))
          else if (n =? 93)%N then Some ([v], r')
          else None
      end).
Proof. reflexivity. Qed.

Lemma parse_members_quoted f k tail :
  parse_members (S f) (QuoteJSONString k ++ ":" ++ tail)
  = obind (parse_value f tail) (fun '(v, r3) =>
      match skip_ws r3 with
      | EmptyString => None
      | String c r4 =>
          let n := N_of_ascii c in
          if (n =? 44)%N then
            obind (parse_members f r4)
              (fun '(ms, rest) => Some ((k, v) :: ms, rest))
          else if (n =? 125)%N then Some ([(k, v)], r4)
          else None
      end).
Proof.
  rewrite QuoteJSONString_app.
  change (parse_members (S f)
            (String quotation_mark
               (quote_units k ++ String quotation_mark (":" ++ tail))))
    with (obind (parse_string
                   (quote_units k ++ String quotation_mark (":" ++ tail)))
            (fun '(k, r1) =>
               match skip_ws r1 with
               | EmptyString => None
               | String colon r2 =>
                   if (N_of_ascii colon =? 58)%N then
                     obind (parse_value f r2) (fun '(v, r3) =>
                       match skip_ws r3 with
                       | EmptyString => None
                       | String c r4 =>
                           let n := N_of_ascii c in
                           if (n =? 44)%N then
                             obind (parse_members f r4)
                               (fun '(ms, rest) => Some ((k, v) :: ms, rest))
                           else if (n =? 125)%N then Some ([(k, v)], r4)
                           else None
                       end)
                   else None
               end)).
  rewrite parse_string_quoted. reflexivity.
Qed.

Lemma print_start v rest :
  json_value v ->
  exists c r, (print v ++ rest)%string = String c r
              /\ is_ws c = false
              /\ (N_of_ascii c =? 93)%N = false
              /\ (N_of_ascii c =? 125)%N = false.
Proof.
  destruct v as [| |b|n|n|s|l|ps]; simpl; intros Hv; try contradiction;
    try (eexists; eexists; split; [reflexivity | repeat split]).
  - destruct b; eexists; eexists; (split; [reflexivity | repeat split]).
  - destruct (Number_toString_start n rest Hv) as (c & r & Htext & Hc).
    destruct (number_start_dispatch c Hc)
      as (Hws & _ & _ & _ & _ & _ & _ & H7 & H8).
    exists c, r. repeat split; assumption.
Qed.

Lemma skip_ws_start c r : is_ws c = false -> skip_ws (String c r) = String c r.
Proof. intros H. simpl. rewrite H. reflexivity. Qed.

Lemma parse_elements_print l :
  Forall parses_back l -> Forall json_value l -> l <> [] ->
  forall fuel rest,
    (list_sum (map (fun x => S (size x)) l) < fuel)%nat ->
    parse_elements fuel (String.concat "," (map print l) ++ "]" ++ rest)
    = Some (l, rest).
Proof.
  induction l as [|x l IH]; intros Hback Hjson Hne fuel rest Hfuel;
    [congruence|].
  inversion Hback as [|? ? Hx Hl]; subst.
  inversion Hjson as [|? ? Hjx Hjl]; subst.
  destruct fuel as [|f]; [simpl in Hfuel; lia|].
  simpl in Hfuel. rewrite parse_elements_S.
  destruct l as [|y l].
  - cbn [map String.concat].
    rewrite (Hx Hjx f ("]" ++ rest)) by (try lia; simpl; tauto).
    reflexivity.
  - change (String.concat "," (map print (x :: y :: l)))
      with (print x ++ "," ++ String.concat "," (map print (y :: l)))%string.
    rewrite (append_assoc (print x)), (append_assoc ",").
    rewrite (Hx Hjx f) by (try (simpl in *; lia); simpl; tauto).
    change (String.append "," ?t) with (String "," t).
    cbn [obind]. rewrite skip_ws_start by reflexivity.
    change (N_of_ascii "," =? 44)%N with true. cbv iota zeta.
    rewrite IH; try assumption; try discriminate; [reflexivity|].
    simpl in *. lia.
Qed.

Lemma parse_members_print ps :
  Forall (fun kv => parses_back (snd kv)) ps ->
  Forall (fun kv => json_value (snd kv)) ps -> ps <> [] ->
  forall fuel rest,
    (list_sum (map (fun kv => S (size (snd kv))) ps) < fuel)%nat ->
    parse_members fuel
      (String.concat ","
         (map (fun kv => QuoteJSONString (fst kv) ++ ":" ++ print (snd kv)) ps)
         ++ "}" ++ rest)
    = Some (ps, rest).
Proof.
  induction ps as [|[k x] ps IH]; intros Hback Hjson Hne fuel rest Hfuel;
    [congruence|].
  inversion Hback as [|? ? Hx Hl]; subst.
  inversion Hjson as [|? ? Hjx Hjl]; subst.
  destruct fuel as [|f]; [simpl in Hfuel; lia|].
  simpl in Hfuel, Hx, Hjx.
  destruct ps as [|[k' y] ps].
  - cbn [map String.concat fst snd].
    rewrite (append_assoc (QuoteJSONString k)), (append_assoc ":").
    rewrite parse_members_quoted.
    rewrite (Hx Hjx f ("}" ++ rest)) by (try lia; simpl; tauto).
    reflexivity.
  - set (member := fun kv : string * value =>
                      (QuoteJSONString (fst kv) ++ ":" ++ print (snd kv))%string)
      in *.
    change (String.concat "," (map member ((k, x) :: (k', y) :: ps)))
      with ((QuoteJSONString k ++ ":" ++ print x) ++ ","
              ++ String.concat "," (map member ((k', y) :: ps)))%string.
    rewrite (append_assoc (QuoteJSONString k ++ ":" ++ print x)),
      (append_assoc (QuoteJSONString k)), (append_assoc ":"),
      (append_assoc ",").
    rewrite parse_members_quoted.
    rewrite (Hx Hjx f) by (try (simpl in *; lia); simpl; tauto).
    change (String.append "," ?t) with (String "," t).
    cbn [obind]. rewrite skip_ws_start by reflexivity.
    change (N_of_ascii "," =? 44)%N with true. cbv iota zeta.
    rewrite IH; try assumption; try discriminate; [reflexivity|].
    simpl in *. lia.
Qed.

Lemma append_String c a b : (String c a ++ b)%string = String c (a ++ b).
Proof. reflexivity. Qed.

Lemma print_object ps :
  print (VObj ps)
  = String "{"
      (String.concat ","
         (map (fun kv => QuoteJSONString (fst kv) ++ ":" ++ print (snd kv)) ps)
         ++ "}").
Proof. reflexivity. Qed.

Lemma parse_print v : parses_back v.
Proof.
  induction v as [| |b|n|n|s|l IH|ps IH] using value_induction;
    intros Hv fuel rest Hfuel Hrest;
    try (simpl in Hv; contradiction);
    (destruct fuel as [|f]; [simpl in Hfuel; lia|]).
  - reflexivity.
  - destruct b; reflexivity.
  - apply parse_value_number; [exact Hv | exact Hrest].
  - apply parse_value_string.
  - apply json_value_array in Hv.
    cbn [print append]. rewrite parse_value_array.
    destruct l as [|x l].
    + reflexivity.
    + assert (Hx : json_value x) by (inversion Hv; assumption).
      rewrite !append_assoc.
      destruct (print_start x
                  (match l with
                   | [] => ""
                   | _ :: _ => "," ++ String.concat "," (map print l)
                   end ++ "]" ++ rest) Hx)
        as (c & r & Htext & Hws & Hclose & _).
      assert (Hshape :
                (String.concat "," (map print (x :: l)) ++ "]" ++ rest)%string
                = String c r).
      { rewrite <- Htext. destruct l; cbn [map String.concat];
          rewrite ?append_assoc; reflexivity. }
      rewrite Hshape, skip_ws_start, Hclose by exact Hws.
      rewrite <- Hshape.
      rewrite parse_elements_print; try assumption; try discriminate;
        [reflexivity|].
      simpl in Hfuel. simpl. lia.
  - apply json_value_object in Hv. destruct Hv as [Hcanon Hv].
    rewrite print_object, append_String, parse_value_object.
    destruct ps as [|[k x] ps].
    + reflexivity.
    + rewrite (append_assoc (String.concat "," _) "}" rest).
      set (text := (String.concat ","
                      (map (fun kv => QuoteJSONString (fst kv) ++ ":"
                                        ++ print (snd kv)) ((k, x) :: ps))
                      ++ "}" ++ rest)%string).
      assert (Hshape : exists r, text = String quotation_mark r).
      { unfold text. destruct ps; cbn [map String.concat fst snd];
          rewrite ?append_assoc, QuoteJSONString_app; eexists; reflexivity. }
      destruct Hshape as (r & Hshape).
      rewrite Hshape, skip_ws_start by reflexivity.
      change (N_of_ascii quotation_mark =? 125)%N with false. cbv iota.
      rewrite <- Hshape. unfold text.
      rewrite parse_members_print; try assumption; try discriminate.
      * cbn [obind]. rewrite Hcanon. reflexivity.
      * simpl in Hfuel. simpl. lia.
Qed.

Lemma concat_length_items l :
  Forall (fun v => (size v <= String.length (print v))%nat) l ->
  (list_sum (map (fun x => S (size x)) l)
   <= S (String.length (String.concat "," (map print l))))%nat.
Proof.
  induction l as [|x l IH]; intros Hl; [simpl; lia|].
  inversion Hl as [|? ? Hx Hl']; subst. specialize (IH Hl').
  destruct l as [|y l].
  - simpl. lia.
  - change (String.concat "," (map print (x :: y :: l)))
      with (print x ++ "," ++ String.concat "," (map print (y :: l)))%string.
    change (list_sum (map (fun x => S (size x)) (x :: y :: l)))
      with (S (size x) + list_sum (map (fun x => S (size x)) (y :: l)))%nat.
    rewrite !append_length. change (String.length ",") with 1%nat. lia.
Qed.

Lemma concat_length_members ps :
  Forall (fun kv => (size (snd kv) <= String.length (print (snd kv)))%nat) ps ->
  (list_sum (map (fun kv => S (size (snd kv))) ps)
   <= S (String.length
           (String.concat ","
              (map (fun kv => QuoteJSONString (fst kv) ++ ":"
                                ++ print (snd kv)) ps))))%nat.
Proof.
  set (member := fun kv : string * value =>
                   (QuoteJSONString (fst kv) ++ ":" ++ print (snd kv))%string).
  assert (Hmember : forall kv,
             (S (String.length (print (snd kv)))
              <= String.length (member kv))%nat).
  { intros kv. unfold member. rewrite !append_length. simpl. lia. }
  induction ps as [|x ps IH]; intros Hl; [simpl; lia|].
  inversion Hl as [|? ? Hx Hl']; subst. specialize (IH Hl').
  specialize (Hmember x).
  destruct ps as [|y ps].
  - change (String.concat "," (map member [x])) with (member x).
    simpl list_sum. lia.
  - change (String.concat "," (map member (x :: y :: ps)))
      with (member x ++ "," ++ String.concat "," (map member (y :: ps)))%string.
    change (list_sum (map (fun kv => S (size (snd kv))) (x :: y :: ps)))
      with (S (size (snd x))
            + list_sum (map (fun kv => S (size (snd kv))) (y :: ps)))%nat.
    rewrite !append_length. change (String.length ",") with 1%nat. lia.
Qed.

Lemma print_array l :
  print (VArr l) = String "[" (String.concat "," (map print l) ++ "]").
Proof. reflexivity. Qed.

Lemma size_le_length v :
  json_value v -> (size v <= String.length (print v))%nat.
Proof.
  induction v as [| |b|n|n|s|l IH|ps IH] using value_induction; intros Hv;
    try (simpl in Hv; contradiction).
  - simpl. lia.
  - destruct b; simpl; lia.
  - destruct (Number_toString_start n "" Hv) as (c & r & Htext & _).
    rewrite append_nil_r in Htext. simpl. rewrite Htext. simpl. lia.
  - simpl. lia.
  - apply json_value_array in Hv.
    assert (Hall : Forall (fun v => (size v <= String.length (print v))%nat) l).
    { rewrite Forall_forall in *. intros x Hx. apply IH; auto. }
    pose proof (concat_length_items l Hall) as Hlen.
    rewrite print_array. cbn [size String.length].
    rewrite append_length. change (String.length "]") with 1%nat. lia.
  - apply json_value_object in Hv. destruct Hv as [_ Hv].
    assert (Hall : Forall (fun kv => (size (snd kv)
                                      <= String.length (print (snd kv)))%nat) ps).
    { rewrite Forall_forall in *. intros x Hx. apply IH; auto. }
    pose proof (concat_length_members ps Hall) as Hlen.
    rewrite print_object. cbn [size String.length].
    rewrite append_length. change (String.length "}") with 1%nat. lia.
Qed.

Lemma JSON_parse_print v : json_value v -> JSON_parse (print v) = Return v.
Proof.
  intros Hv. unfold JSON_parse.
  pose proof (parse_print v Hv (S (String.length (print v))) "") as Hparse.
  rewrite append_nil_r in Hparse. rewrite Hparse.
  - reflexivity.
  - pose proof (size_le_length v Hv). lia.
  - exact I.
Qed.

(** ** The blob of the map *)

Lemma serialize_members_defined ps :
  serialize_members ps
  = serialize_members (filter (fun kv => defined (snd kv)) ps).
Proof.
  induction ps as [|[k x] ps IH]; [reflexivity|].
  cbn [filter snd]. destruct (defined x) eqn:Hx.
  - cbn [serialize_members]. rewrite IH. reflexivity.
  - destruct x; try discriminate Hx. cbn [serialize_members].
    change (SerializeJSONProperty VUndefined) with (@Return (option string) None).
    cbv iota. rewrite <- IH. destruct (serialize_members ps); reflexivity.
Qed.

Lemma serialize_entry e :
  SerializeJSONProperty (value_of_entry e)
  = SerializeJSONProperty (stored_entry e).
Proof.
  unfold stored_entry, value_of_entry.
  rewrite !serialize_object, <- serialize_members_defined. reflexivity.
Qed.

Lemma serialize_logs logs :
  SerializeJSONProperty (value_of_logs logs)
  = SerializeJSONProperty (stored_logs logs).
Proof.
  unfold value_of_logs, stored_logs. rewrite !serialize_object.
  assert (Hmembers :
            serialize_members
              (map (fun kv => (fst kv, value_of_entry (snd kv))) logs)
            = serialize_members
                (map (fun kv => (fst kv, stored_entry (snd kv))) logs)).
  { induction logs as [|[k e] logs IH]; [reflexivity|].
    cbn [map fst snd serialize_members].
    rewrite serialize_entry, IH. reflexivity. }
  rewrite Hmembers. reflexivity.
Qed.

Section MapValues.
Context {A B : Type} (g : A -> B).

Lemma obj_get_map k (o : list (string * A)) :
  obj_get k (map (fun kv => (fst kv, g (snd kv))) o)
  = option_map g (obj_get k o).
Proof.
  induction o as [|[k0 v0] o IH]; simpl; [reflexivity|].
  destruct (k =? k0)%string; [reflexivity | exact IH].
Qed.

Lemma obj_set_map k v (o : list (string * A)) :
  obj_set k (g v) (map (fun kv => (fst kv, g (snd kv))) o)
  = map (fun kv => (fst kv, g (snd kv))) (obj_set k v o).
Proof.
  unfold obj_set, obj_has. rewrite obj_get_map.
  destruct (obj_get k o); simpl.
  - induction o as [|[k0 v0] o IH]; simpl; [reflexivity|].
    destruct (k =? k0)%string; simpl; [reflexivity|].
    rewrite IH. reflexivity.
  - induction o as [|[k0 v0] o IH]; simpl; [reflexivity|].
    destruct (enumerated_before k k0); simpl; [reflexivity|].
    rewrite IH. reflexivity.
Qed.

Lemma obj_define_map (l : list (string * A)) : forall o,
  obj_define (map (fun kv => (fst kv, g (snd kv))) o)
    (map (fun kv => (fst kv, g (snd kv))) l)
  = map (fun kv => (fst kv, g (snd kv))) (obj_define o l).
Proof.
  unfold obj_define.
  induction l as [|[k v] l IH]; intros o; simpl; [reflexivity|].
  rewrite obj_set_map. apply IH.
Qed.
End MapValues.

Lemma stored_entry_json e :
  storable_entry e -> json_value (stored_entry e).
Proof.
  intros (_ & Hdetails & Hduration & Hstatus).
  destruct e as [i t l m d c sc du st].
  simpl in Hdetails, Hduration, Hstatus.
  unfold stored_entry, value_of_entry. cbn [LogEntry.id LogEntry.timestamp
    LogEntry.level LogEntry.message LogEntry.details LogEntry.category
    LogEntry.subCategory LogEntry.duration LogEntry.statusCode].
  generalize (toISOString t) as text. intros text.
  apply json_value_object.
  destruct d as [d|], sc as [sc|], du as [du|], st as [st|];
    cbn [optional filter snd defined];
    (split;
     [ reflexivity
     | repeat (first [apply Forall_nil | apply Forall_cons]);
       first [exact I | exact Hdetails | exact Hduration | exact Hstatus] ]).
Qed.

Lemma stored_logs_json logs :
  storable logs -> json_value (stored_logs logs).
Proof.
  intros [Hcanon Hentries]. unfold stored_logs. apply json_value_object.
  split.
  - pose proof (obj_define_map stored_entry logs []) as Hmap.
    simpl map at 1 in Hmap. rewrite Hcanon in Hmap. exact Hmap.
  - rewrite Forall_forall in *. intros kv Hkv. apply in_map_iff in Hkv.
    destruct Hkv as (x & <- & Hx). simpl. apply stored_entry_json.
    apply Hentries, Hx.
Qed.

Lemma level_of_level_name l : level_of_name (level_name l) = Some l.
Proof. destruct l; reflexivity. Qed.

Lemma category_of_category_name c :
  category_of_name (category_name c) = Some c.
Proof. destruct c; reflexivity. Qed.

Lemma entry_of_stored_entry e :
  storable_entry e -> entry_of_value (stored_entry e) = Some e.
Proof.
  intros [Htime _].
  destruct e as [i t l m d c sc du st]. simpl in Htime.
  unfold stored_entry, value_of_entry. cbn [LogEntry.id LogEntry.timestamp
    LogEntry.level LogEntry.message LogEntry.details LogEntry.category
    LogEntry.subCategory LogEntry.duration LogEntry.statusCode].
  pose proof (Date_parse_toISOString t Htime) as Hdate.
  pose proof (level_of_level_name l) as Hlevel.
  pose proof (category_of_category_name c) as Hcategory.
  revert Hdate Hlevel Hcategory.
  generalize (toISOString t) as text.
  generalize (level_name l) as lname.
  generalize (category_name c) as cname.
  intros cname lname text Hdate Hlevel Hcategory.
  destruct d as [d|], sc as [sc|], du as [du|], st as [st|];
    cbn [optional filter snd defined];
    unfold entry_of_value; simpl;
    rewrite Hdate, Hlevel, Hcategory; reflexivity.
Qed.

Lemma logs_of_stored_logs logs :
  Forall (fun kv => storable_entry (snd kv)) logs ->
  logs_of_value (stored_logs logs) = Some logs.
Proof.
  unfold logs_of_value, stored_logs. cbn [as_object obind].
  induction logs as [|[k e] logs IH]; intros Hall; [reflexivity|].
  inversion Hall as [|? ? He Hrest]; subst.
  cbn [map fst snd entries_of_props].
  rewrite entry_of_stored_entry by exact He. cbn [obind].
  rewrite IH by exact Hrest. reflexivity.
Qed.

(** ** Enumeration order *)

Lemma array_index_bound k i : array_index k = Some i -> i < 4294967295.
Proof.
  unfold array_index. destruct (NilZero.uint_of_string k) as [d|]; [|discriminate].
  cbv zeta.
  destruct (integer_text (Z.of_uint d) =? k)%string; [|discriminate].
  destruct (Z.ltb_spec (Z.of_uint d) 4294967295) as [Hlt|]; [|discriminate].
  simpl. intros Heq. inversion Heq; subst. exact Hlt.
Qed.

Lemma enumerated_before_rank k1 k2 :
  enumerated_before k1 k2 = (key_rank k1 <? key_rank k2).
Proof.
  unfold enumerated_before, key_rank.
  destruct (array_index k1) as [i|] eqn:H1, (array_index k2) as [j|] eqn:H2.
  - reflexivity.
  - apply array_index_bound in H1. symmetry. apply Z.ltb_lt. exact H1.
  - apply array_index_bound in H2. symmetry. apply Z.ltb_ge. lia.
  - reflexivity.
Qed.

Lemma obj_replace_in {A : Type} (k : string) (v : A) o x :
  In x (obj_replace k v o) -> fst x = k \/ In x o.
Proof.
  induction o as [|[k0 v0] o IH]; simpl; [tauto|].
  destruct (String.eqb_spec k k0) as [->|Hne]; simpl.
  - intros [<-|H]; [left; reflexivity | right; right; exact H].
  - intros [<-|H]; [right; left; reflexivity|].
    destruct (IH H); [left | right; right]; assumption.
Qed.

Lemma obj_replace_sorted {A : Type} (k : string) (v : A) o :
  StronglySorted (fun a b => key_rank (fst a) <= key_rank (fst b)) o ->
  StronglySorted (fun a b => key_rank (fst a) <= key_rank (fst b))
    (obj_replace k v o).
Proof.
  induction 1 as [|[k0 v0] o Hs IH Hall]; simpl; [constructor|].
  destruct (String.eqb_spec k k0) as [->|Hne].
  - constructor; assumption.
  - constructor; [exact IH|].
    rewrite Forall_forall in *. intros x Hx.
    destruct (obj_replace_in _ _ _ _ Hx) as [Hk|Hin].
    + assert (Hmem : In k (map fst o)).
      { assert (Hkeys : In (fst x) (map fst (obj_replace k v o)))
          by (apply in_map, Hx).
        rewrite obj_replace_keys, Hk in Hkeys. exact Hkeys. }
      apply in_map_iff in Hmem. destruct Hmem as (y & Hy & Hin).
      rewrite Hk, <- Hy. apply (Hall y Hin).
    + apply Hall, Hin.
Qed.

Lemma obj_create_sorted {A : Type} (k : string) (v : A) o :
  StronglySorted (fun a b => key_rank (fst a) <= key_rank (fst b)) o ->
  StronglySorted (fun a b => key_rank (fst a) <= key_rank (fst b))
    (obj_create k v o).
Proof.
  induction 1 as [|[k0 v0] o Hs IH Hall]; simpl.
  - constructor; constructor.
  - rewrite enumerated_before_rank.
    destruct (Z.ltb_spec (key_rank k) (key_rank k0)).
    + constructor; [constructor; assumption|].
      constructor; [simpl; lia|].
      eapply Forall_impl; [|exact Hall]. simpl. intros; lia.
    + constructor; [exact IH|].
      eapply Permutation_Forall;
        [apply Permutation_sym, obj_create_perm|].
      constructor; [simpl; lia | exact Hall].
Qed.

Lemma obj_set_enumerated {A : Type} (k : string) (v : A) o :
  enumerated o -> enumerated (obj_set k v o).
Proof.
  intros [Hnd Hs]. split; [apply obj_set_NoDup, Hnd|].
  unfold obj_set. destruct (obj_has k o);
    [apply obj_replace_sorted | apply obj_create_sorted]; exact Hs.
Qed.

Lemma obj_define_enumerated {A : Type} (l : list (string * A)) : forall o,
  enumerated o -> enumerated (obj_define o l).
Proof.
  unfold obj_define. induction l as [|[k v] l IH]; simpl; intros o Ho;
    [exact Ho | apply IH, obj_set_enumerated, Ho].
Qed.

Lemma obj_create_last {A : Type} (k : string) (v : A) o :
  Forall (fun x => key_rank (fst x) <= key_rank k) o ->
  obj_create k v o = (o ++ [(k, v)])%list.
Proof.
  induction 1 as [|[k0 v0] o Hk0 Ho IH]; simpl; [reflexivity|].
  rewrite enumerated_before_rank.
  destruct (Z.ltb_spec (key_rank k) (key_rank k0)); [simpl in Hk0; lia|].
  rewrite IH. reflexivity.
Qed.

Lemma enumerated_define {A : Type} (l : list (string * A)) : forall o,
  enumerated (o ++ l)%list -> obj_define o l = (o ++ l)%list.
Proof.
  unfold obj_define. induction l as [|[k v] l IH]; simpl; intros o Ho.
  - rewrite List.app_nil_r. reflexivity.
  - assert (Hset : obj_set k v o = (o ++ [(k, v)])%list).
    { destruct Ho as [Hnd Hs]. unfold obj_set, obj_has.
      assert (Hfresh : obj_get k o = None).
      { apply obj_get_None. rewrite map_app in Hnd. simpl in Hnd.
        apply NoDup_remove_2 in Hnd. intros Hin. apply Hnd.
        apply in_or_app. left; exact Hin. }
      rewrite Hfresh. apply obj_create_last.
      rewrite Forall_forall. intros x Hx.
      apply (sorted_app_order _ o ((k, v) :: l) Hs x (k, v) Hx).
      left; reflexivity. }
    rewrite Hset. rewrite IH; rewrite <- app_assoc; [reflexivity | exact Ho].
Qed.

Lemma canonical_enumerated {A : Type} (o : list (string * A)) :
  obj_define [] o = o <-> enumerated o.
Proof.
  split; intros H.
  - rewrite <- H. apply obj_define_enumerated.
    split; constructor.
  - apply (enumerated_define o []). exact H.
Qed.

Lemma obj_set_canonical {A : Type} (k : string) (v : A) o :
  obj_define [] o = o -> obj_define [] (obj_set k v o) = obj_set k v o.
Proof.
  intros H. apply canonical_enumerated, obj_set_enumerated.
  apply canonical_enumerated, H.
Qed.

Lemma Object_fromEntries_canonical {A : Type} (l : list (string * A)) :
  obj_define [] (Object_fromEntries l) = Object_fromEntries l.
Proof.
  apply canonical_enumerated. unfold Object_fromEntries.
  apply obj_define_enumerated. split; constructor.
Qed.

Lemma obj_set_in {A : Type} (k : string) (v : A) o x :
  In x (obj_set k v o) -> x = (k, v) \/ In x o.
Proof.
  unfold obj_set. destruct (obj_has k o).
  - induction o as [|[k0 v0] o IH]; simpl; [tauto|].
    destruct (String.eqb_spec k k0) as [->|Hne]; simpl.
    + intros [<-|H]; [left; reflexivity | right; right; exact H].
    + intros [<-|H]; [right; left; reflexivity|].
      destruct (IH H); [left | right; right]; assumption.
  - intros Hx. apply (Permutation_in _ (obj_create_perm k v o)) in Hx.
    destruct Hx as [<-|Hx]; [left; reflexivity | right; exact Hx].
Qed.

Lemma obj_define_in {A : Type} (l : list (string * A)) : forall o x,
  In x (obj_define o l) -> In x o \/ In x l.
Proof.
  unfold obj_define. induction l as [|[k v] l IH]; simpl; intros o x Hx;
    [left; exact Hx|].
  destruct (IH _ _ Hx) as [Hset|Hl]; [|right; right; exact Hl].
  destruct (obj_set_in _ _ _ _ Hset) as [->|Ho];
    [right; left; reflexivity | left; exact Ho].
Qed.

Lemma trimmed_in o x : In x (trimmed o) -> In x o.
Proof.
  unfold trimmed, Object_entries, Object_fromEntries.
  destruct (MAX_LOGS <? List.length o)%nat; [|tauto].
  intros Hx. destruct (obj_define_in _ _ _ Hx) as [[]|Hx'].
  eapply Permutation_in; [apply Array_sort_perm|].
  rewrite <- (firstn_skipn MAX_LOGS). apply in_or_app. left; exact Hx'.
Qed.

Lemma trimmed_canonical o :
  obj_define [] o = o -> obj_define [] (trimmed o) = trimmed o.
Proof.
  intros H. unfold trimmed, Object_entries.
  destruct (MAX_LOGS <? List.length o)%nat;
    [apply Object_fromEntries_canonical | exact H].
Qed.

Lemma insert_storable e w :
  storable (_logs w) -> storable_entry e ->
  storable (_logs (snd (insert e w))).
Proof.
  intros [Hcanon Hall] He. rewrite insert_logs. split.
  - apply trimmed_canonical, obj_set_canonical, Hcanon.
  - rewrite Forall_forall in *. intros x Hx.
    apply trimmed_in, obj_set_in in Hx.
    destruct Hx as [->|Hx]; [exact He | apply Hall, Hx].
Qed.

Lemma addLog_storable message level category details w :
  storable (_logs w) ->
  -8640000000000000 <= clock w (S (ticks w)) <= 8640000000000000 ->
  match details with Some d => json_value (VObj d) | None => True end ->
  storable (_logs (snd (addLog message level category details w))).
Proof.
  intros Hw Hclock Hdetails. rewrite addLog_insert.
  apply insert_storable; [exact Hw|].
  split; [exact Hclock|]. split; [exact Hdetails|]. split; exact I.
Qed.

(** An object defined from JSON values is a JSON value. *)
Lemma obj_define_json l :
  Forall (fun kv => json_value (snd kv)) l ->
  json_value (VObj (obj_define [] l)).
Proof.
  intros Hl. apply json_value_object. split.
  - apply (Object_fromEntries_canonical l).
  - rewrite Forall_forall in *. intros x Hx.
    apply obj_define_in in Hx. destruct Hx as [[]|Hx]. apply Hl, Hx.
Qed.

Lemma details_json (details : option (list (string * value))) :
  match details with Some d => json_value (VObj d) | None => True end ->
  Forall (fun kv => json_value (snd kv)) (default [] details).
Proof.
  destruct details as [d|]; [|constructor].
  intros Hd. apply json_value_object in Hd. apply Hd.
Qed.

Lemma spread_json details rest :
  match details with Some d => json_value (VObj d) | None => True end ->
  Forall (fun kv => json_value (snd kv)) rest ->
  json_value (VObj (spread details rest)).
Proof.
  intros Hd Hrest. apply obj_define_json, Forall_app.
  split; [apply (details_json details Hd) | exact Hrest].
Qed.

(** What a typed helper inserts, when the caller's values are JSON. *)
Lemma helper_storable message level category details rest w :
  storable (_logs w) ->
  -8640000000000000 <= clock w (S (S (ticks w))) <= 8640000000000000 ->
  match details with Some d => json_value (VObj d) | None => True end ->
  Forall (fun kv => json_value (snd kv)) rest ->
  storable
    (_logs (snd (addLog message level category (Some (spread details rest))
                   (advance 1 0 w)))).
Proof.
  intros Hw Hclock Hdetails Hrest.
  apply addLog_storable; [exact Hw | exact Hclock|].
  apply spread_json; assumption.
Qed.

Lemma print_logs_nonempty logs :
  falsy_string (Some (print (stored_logs logs))) = false.
Proof. reflexivity. Qed.

(** C8, as the code has it. The blob is a JSON text, and what JSON holds
    comes back as it was: null, booleans, finite numbers (NaN and the
    infinities are written as null, -0 as 0), strings, and arrays and
    objects of these ([undefined] is written as null inside an array and
    left out of an object; a BigInt makes the save throw). For a map whose
    entries carry such details, [_saveLogs] writes a blob, and a store
    constructed over that blob holds the same map: the same ids with
    entries equal field by field. The empty map is such a map, and the
    logging API keeps the map such a map when the values it is given are
    such values: [addLog] (so [logSystem], [logProvider], [logUserAction],
    [logWarning] and [logDebug]), [logAPIRequest], [logAuth],
    [logNetworkStatus], [logDatabase] and [logError]. The clock gives time
    values, as that of [Date] does. *)
Theorem save_then_load :
  (forall w : World,
      storable (_logs w) ->
      exists blob : string,
        _saveLogs w = (Return tt, with_cookie (Some blob) w)
        /\ forall fresh : World,
             cookie fresh = Some blob ->
             exists w' : World,
               new_LogStore fresh = (Return Typed, w')
               /\ _logs w' = _logs w)
  /\ storable []
  /\ (forall message level category details (w : World),
        storable (_logs w) ->
        -8640000000000000 <= clock w (S (ticks w)) <= 8640000000000000 ->
        match details with
        | Some d => json_value (VObj d)
        | None => True
        end ->
        storable (_logs (snd (addLog message level category details w))))
  /\ (forall (details : option (list (string * value))) (w : World),
        storable (_logs w) ->
        -8640000000000000 <= clock w (S (S (ticks w))) <= 8640000000000000 ->
        match details with
        | Some d => json_value (VObj d)
        | None => True
        end ->
        (forall endpoint method duration statusCode,
            json_number duration -> json_number statusCode ->
            storable
              (_logs (snd (logAPIRequest endpoint method duration statusCode
                             details w))))
        /\ (forall action success,
              storable (_logs (snd (logAuth action success details w))))
        /\ (forall status,
              storable (_logs (snd (logNetworkStatus status details w))))
        /\ (forall operation success duration,
              json_number duration ->
              storable
                (_logs (snd (logDatabase operation success duration details
                               w)))))
  /\ (forall message error details (w : World),
        storable (_logs w) ->
        -8640000000000000 <= clock w (S (ticks w)) <= 8640000000000000 ->
        match details with
        | Some d => json_value (VObj d)
        | None => True
        end ->
        match error with
        | AnError _ _ stack => stack <> None
        | NotAnError v => json_value v
        end ->
        storable (_logs (snd (logError message error details w)))).
Proof.
  split; [|split; [|split; [|split]]].
  - intros w Hstorable.
    pose proof (stored_logs_json _ Hstorable) as Hjson.
    exists (print (stored_logs (_logs w))). split.
    + rewrite _saveLogs_run. unfold JSON_stringify.
      rewrite serialize_logs, (serialize_json_value _ Hjson). reflexivity.
    + intros fresh Hcookie.
      rewrite new_LogStore_run, _loadLogs_run.
      change (cookie (with_showLogs true (with_logs [] fresh)))
        with (cookie fresh).
      rewrite Hcookie, print_logs_nonempty. cbn [default].
      rewrite (JSON_parse_print _ Hjson).
      rewrite logs_of_stored_logs by (apply Hstorable).
      eexists. split; reflexivity.
  - split; [reflexivity | constructor].
  - intros. apply addLog_storable; assumption.
  - intros details w Hw Hclock Hdetails.
    split; [|split; [|split]].
    + intros endpoint method duration statusCode Hduration Hstatus.
      apply (helper_storable _ _ _ details _ w Hw Hclock Hdetails).
      repeat constructor; assumption.
    + intros action success.
      apply (helper_storable _ _ _ details _ w Hw Hclock Hdetails).
      repeat constructor.
    + intros status.
      apply (helper_storable _ _ _ details _ w Hw Hclock Hdetails).
      repeat constructor.
    + intros operation success duration Hduration.
      apply (helper_storable _ _ _ details _ w Hw Hclock Hdetails).
      repeat constructor; assumption.
  - intros message error details w Hw Hclock Hdetails Herror.
    unfold logError. apply addLog_storable; [exact Hw | exact Hclock|].
    pose proof (details_json details Hdetails) as Hcaller.
    destruct error as [name msg stack|v].
    + destruct stack as [stack|]; [|congruence].
      apply obj_define_json, Forall_app. split; [|exact Hcaller].
      repeat constructor.
    + apply obj_define_json. constructor; [exact Herror | exact Hcaller].
Qed.

Lemma save_then_load_witness :
  storable (_logs session)
  /\ -8640000000000000 <= clock session (S (S (ticks session)))
     <= 8640000000000000
  /\ json_value (VObj tagged)
  /\ json_number (Frac 125 1) /\ json_number (Int 404)
  /\ storable (_logs timed)
  /\ exists blob : string,
       _saveLogs timed = (Return tt, with_cookie (Some blob) timed)
       /\ exists w' : World,
            new_LogStore (with_cookie (Some blob) session) = (Return Typed, w')
            /\ _logs w' = _logs timed.
Proof.
  assert (Hsession : storable (_logs session))
    by exact (proj1 (proj2 save_then_load)).
  assert (Hclock : -8640000000000000 <= clock session (S (S (ticks session)))
                   <= 8640000000000000) by (simpl; lia).
  assert (Htagged : json_value (VObj tagged)).
  { simpl. repeat split; discriminate. }
  assert (Hduration : json_number (Frac 125 1)) by (simpl; discriminate).
  assert (Hstatus : json_number (Int 404)) by exact I.
  assert (Hstorable : storable (_logs timed)).
  { exact (proj1 (proj1 (proj2 (proj2 (proj2 save_then_load)))
                    (Some tagged) session Hsession Hclock Htagged)
             ("/users/zo" ++ utf8 235)%string "GET" (Frac 125 1) (Int 404)
             Hduration Hstatus). }
  split; [exact Hsession|]. split; [exact Hclock|]. split; [exact Htagged|].
  split; [exact Hduration|]. split; [exact Hstatus|].
  split; [exact Hstorable|].
  destruct (proj1 save_then_load timed Hstorable)
    as (blob & Hsave & Hload).
  exists blob. split; [exact Hsave|].
  apply Hload. reflexivity.
Defined.

(** C8 as stated fails: an entry logged through [addLog] with details
    [{ sizes: [undefined] }] is saved (the call returns), and the store
    constructed over the saved blob holds [{ sizes: [null] }] in its
    place. *)
Lemma round_trip_changes_undefined_item :
  exists (key blob : string) (w' : World) (e e' : LogEntry),
    fst (addLog "sizes" None None (Some [("sizes", VArr [VUndefined])])
           session) = Return key
    /\ cookie measured = Some blob
    /\ new_LogStore (with_cookie (Some blob) session) = (Return Typed, w')
    /\ obj_get key (_logs measured) = Some e
    /\ obj_get key (_logs w') = Some e'
    /\ LogEntry.details e = Some [("sizes", VArr [VUndefined])]
    /\ LogEntry.details e' = Some [("sizes", VArr [VNull])]
    /\ _logs w' <> _logs measured.
Proof.
  eexists. eexists. eexists. eexists. eexists.
  split; [vm_compute; reflexivity|].
  split; [vm_compute; reflexivity|].
  split; [vm_compute; reflexivity|].
  split; [vm_compute; reflexivity|].
  split; [vm_compute; reflexivity|].
  split; [reflexivity|].
  split; [reflexivity|].
  vm_compute. discriminate.
Qed.

(** The other values that do not come back as they were: NaN (and the
    infinities) come back as null, -0 as 0, and a property whose value is
    [undefined] does not come back at all. *)
Lemma round_trip_changes_other_values :
  (exists (blob : string) (w' : World),
      cookie rated = Some blob
      /\ new_LogStore (with_cookie (Some blob) session) = (Return Typed, w')
      /\ map (fun kv => LogEntry.details (snd kv)) (_logs rated)
         = [Some [("rate", VNum NaN)]]
      /\ map (fun kv => LogEntry.details (snd kv)) (_logs w')
         = [Some [("rate", VNull)]])
  /\ (exists (blob : string) (w' : World),
        cookie settled = Some blob
        /\ new_LogStore (with_cookie (Some blob) session) = (Return Typed, w')
        /\ map (fun kv => LogEntry.details (snd kv)) (_logs settled)
           = [Some [("delta", VNum NegZero)]]
        /\ map (fun kv => LogEntry.details (snd kv)) (_logs w')
           = [Some [("delta", VNum (Int 0))]])
  /\ (exists (blob : string) (w' : World),
        cookie noted = Some blob
        /\ new_LogStore (with_cookie (Some blob) session) = (Return Typed, w')
        /\ map (fun kv => LogEntry.details (snd kv)) (_logs noted)
           = [Some [("note", VUndefined)]]
        /\ map (fun kv => LogEntry.details (snd kv)) (_logs w') = [Some []]).
Proof.
  split; [|split]; eexists; eexists;
    (split; [vm_compute; reflexivity|]);
    (split; [vm_compute; reflexivity|]);
    split; vm_compute; reflexivity.
Qed.

(** ** When the operations throw *)

Lemma addLog_throws_with_save message level category details w err :
  let e := entry_built (message, level, category, details) w in
  JSON_stringify
    (value_of_logs (trimmed (obj_set (LogEntry.id e) e (_logs w))))
  = Throw err ->
  fst (addLog message level category details w) = Throw err.
Proof.
  intros e Hsave. rewrite addLog_insert, insert_run. cbv zeta.
  change (_logs (with_logs ?l ?w0)) with l. fold e.
  change (_logs (advance 2 1 w)) with (_logs w).
  rewrite Hsave. reflexivity.
Qed.

Lemma Array_filter_throws {A : Type} (f : A -> outcome bool) l x err :
  In x l -> f x = Throw err -> exists err', Array_filter f l = Throw err'.
Proof.
  induction l as [|y l IH]; simpl; intros Hin Hx; [contradiction|].
  destruct (f y) as [keep|err'] eqn:Hy; [|exists err'; reflexivity].
  destruct Hin as [->|Hin]; [congruence|].
  destruct (IH Hin Hx) as (err' & ->). exists err'. reflexivity.
Qed.

Lemma matches_throws_without_details level category q (e : LogEntry) :
  q <> "" ->
  LogEntry.details e = None ->
  includes (toLowerCase (LogEntry.message e)) (toLowerCase q) = false ->
  matches level category (Some q) e
  = Throw (TypeError
             "Cannot read properties of undefined (reading 'toLowerCase')").
Proof.
  intros Hq Hdetails Hmessage. unfold matches.
  destruct q as [|c q]; [congruence|].
  cbn [falsy_string default]. rewrite Hmessage, Hdetails. reflexivity.
Qed.

Lemma getFilteredLogs_throws level category q w (e : LogEntry) :
  In e (Object_values (_logs w)) ->
  q <> "" ->
  LogEntry.details e = None ->
  includes (toLowerCase (LogEntry.message e)) (toLowerCase q) = false ->
  exists err, fst (getFilteredLogs level category (Some q) w) = Throw err.
Proof.
  intros Hin Hq Hdetails Hmessage. rewrite getFilteredLogs_run. simpl fst.
  eapply Array_filter_throws.
  - eapply Permutation_in; [apply Permutation_sym, Array_sort_perm | exact Hin].
  - apply matches_throws_without_details; assumption.
Qed.

Lemma Array_filter_total {A : Type} (p : A -> bool) (f : A -> outcome bool) l :
  (forall x, In x l -> f x = Return (p x)) ->
  Array_filter f l = Return (filter p l).
Proof.
  induction l as [|x l IH]; simpl; intros Hall; [reflexivity|].
  rewrite (Hall x) by (left; reflexivity).
  rewrite IH by (intros y Hy; apply Hall; right; exact Hy).
  reflexivity.
Qed.

Lemma getFilteredLogs_with_details l c q w (text : LogEntry -> string) :
  (forall e, In e (Object_values (_logs w)) ->
     JSON_stringify (optional VObj (LogEntry.details e))
     = Return (Some (text e))) ->
  getFilteredLogs (Some l) (Some c) (Some q) w
  = (Return
       (filter
          (fun e =>
             (level_eqb l LDebug || level_eqb (LogEntry.level e) l)
             && category_eqb (LogEntry.category e) c
             && (falsy_string (Some q)
                 || includes (toLowerCase (LogEntry.message e)) (toLowerCase q)
                 || includes (toLowerCase (text e)) (toLowerCase q)))
          (Array_sort by_timestamp_desc (Object_values (_logs w)))),
     w).
Proof.
  intros Htext. rewrite getFilteredLogs_run. f_equal.
  apply Array_filter_total. intros e He.
  assert (Hin : In e (Object_values (_logs w))).
  { eapply Permutation_in; [apply Array_sort_perm | exact He]. }
  unfold matches. rewrite (Htext e Hin).
  destruct (falsy_string (Some q)); [rewrite !andb_true_r; reflexivity|].
  cbn [default orb].
  destruct (includes (toLowerCase (LogEntry.message e)) (toLowerCase q));
    reflexivity.
Qed.

(** * Further properties *)

(** ** Clearing *)

Lemma clearLogs_run w :
  clearLogs w = (Return tt, with_cookie (Some "{}") (with_logs [] w)).
Proof. reflexivity. Qed.

(** X1. [clearLogs] never throws: it leaves the empty map and the cookie
    "{}", whatever the map held (entries that cannot be serialized
    included); a second [clearLogs] changes nothing; and a store
    constructed over that cookie starts with the empty map and no
    diagnostic. *)
Theorem clearLogs_empties (w : World) :
  clearLogs w = (Return tt, snd (clearLogs w))
  /\ _logs (snd (clearLogs w)) = []
  /\ cookie (snd (clearLogs w)) = Some "{}"
  /\ clearLogs (snd (clearLogs w)) = (Return tt, snd (clearLogs w))
  /\ fst (getLogs (snd (clearLogs w))) = Return []
  /\ forall fresh : World,
       cookie fresh = cookie (snd (clearLogs w)) ->
       new_LogStore fresh
       = (Return Typed, with_showLogs true (with_logs [] fresh)).
Proof.
  rewrite clearLogs_run. cbn [snd].
  repeat split.
  intros fresh Hcookie. cbn [cookie with_cookie] in Hcookie.
  rewrite new_LogStore_run, _loadLogs_run.
  change (cookie (with_showLogs true (with_logs [] fresh)))
    with (cookie fresh).
  rewrite Hcookie. reflexivity.
Qed.

(** ** The other typed helpers *)

(** X2. [logAuth] inserts an entry with the message
    "Auth {action} - Success" or "Auth {action} - Failed", level info on
    success and error otherwise, category auth. Its details hold action,
    success and a timestamp (these three win over a caller's property of
    the same name) and, under every other key, what the caller's details
    hold under it. The caller's details are an object: no key occurs twice
    among its properties. *)
Theorem logAuth_entry (action : AuthAction) (success : bool)
  (details : option (list (string * value))) (w : World) :
  match details with
  | Some caller => NoDup (map fst caller)
  | None => True
  end ->
  exists (e : LogEntry) (w1 : World) (d : list (string * value)),
    logAuth action success details w = insert e w1
    /\ LogEntry.message e
       = "Auth " ++ action_name action ++ " - "
           ++ (if success then "Success" else "Failed")
    /\ LogEntry.level e = (if success then LInfo else LError)
    /\ LogEntry.category e = CAuth
    /\ LogEntry.details e = Some d
    /\ obj_get "action" d = Some (VStr (action_name action))
    /\ obj_get "success" d = Some (VBool success)
    /\ obj_get "timestamp" d = Some (VStr (toISOString (clock w (ticks w))))
    /\ (forall k,
          ~ In k ["action"; "success"; "timestamp"] ->
          obj_get k d
          = match details with
            | Some caller => obj_get k caller
            | None => None
            end).
Proof.
  intros Hobject.
  eexists. exists (advance 3 1 w). eexists.
  split; [unfold logAuth; rewrite bind_unfold; simpl;
          rewrite addLog_insert; reflexivity|].
  simpl LogEntry.message; simpl LogEntry.level; simpl LogEntry.category;
    simpl LogEntry.details.
  repeat (split; [reflexivity|]).
  split; [get_defined|]. split; [get_defined|]. split; [get_defined|].
  intros k Hk. get_caller k details Hobject.
Qed.

Lemma logAuth_entry_witness :
  NoDup (map fst [("user", VStr "ada"); ("success", VStr "maybe")])
  /\ exists (e : LogEntry) (w1 : World) (d : list (string * value)),
       logAuth login false
         (Some [("user", VStr "ada"); ("success", VStr "maybe")]) session
       = insert e w1
       /\ LogEntry.level e = LError
       /\ LogEntry.details e = Some d
       /\ obj_get "success" d = Some (VBool false)
       /\ obj_get "user" d = Some (VStr "ada").
Proof.
  assert (Hobject : NoDup (map fst [("user", VStr "ada");
                                    ("success", VStr "maybe")])).
  { repeat constructor; simpl; intuition discriminate. }
  split; [exact Hobject|].
  destruct (logAuth_entry login false
              (Some [("user", VStr "ada"); ("success", VStr "maybe")])
              session Hobject)
    as (e & w1 & d & Hrun & _ & Hlevel & _ & Hdetails & _ & Hsuccess & _
        & Hcaller).
  exists e, w1, d. split; [exact Hrun|]. split; [exact Hlevel|].
  split; [exact Hdetails|]. split; [exact Hsuccess|].
  rewrite (Hcaller "user"); [reflexivity|].
  simpl. intuition discriminate.
Defined.

(** X3. [logNetworkStatus] inserts an entry with the message
    "Network {status}", level error for offline, warning for reconnecting
    and info for online and connected, category network. Its details hold
    status and a timestamp and, under every other key, what the caller's
    details hold under it. The caller's details are an object: no key
    occurs twice among its properties. *)
Theorem logNetworkStatus_entry (status : NetworkStatus)
  (details : option (list (string * value))) (w : World) :
  match details with
  | Some caller => NoDup (map fst caller)
  | None => True
  end ->
  exists (e : LogEntry) (w1 : World) (d : list (string * value)),
    logNetworkStatus status details w = insert e w1
    /\ LogEntry.message e = "Network " ++ status_name status
    /\ (LogEntry.level e = LError <-> status = offline)
    /\ (LogEntry.level e = LWarning <-> status = reconnecting)
    /\ (LogEntry.level e = LInfo <-> status = online \/ status = connected)
    /\ LogEntry.category e = CNetwork
    /\ LogEntry.details e = Some d
    /\ obj_get "status" d = Some (VStr (status_name status))
    /\ obj_get "timestamp" d = Some (VStr (toISOString (clock w (ticks w))))
    /\ (forall k,
          ~ In k ["status"; "timestamp"] ->
          obj_get k d
          = match details with
            | Some caller => obj_get k caller
            | None => None
            end).
Proof.
  intros Hobject.
  eexists. exists (advance 3 1 w). eexists.
  split; [unfold logNetworkStatus; rewrite bind_unfold; simpl;
          rewrite addLog_insert; reflexivity|].
  simpl LogEntry.message; simpl LogEntry.level; simpl LogEntry.category;
    simpl LogEntry.details.
  split; [reflexivity|].
  split; [destruct status; split; intros H; congruence|].
  split; [destruct status; split; intros H; congruence|].
  split; [destruct status; split;
          [auto | intros [H|H]; congruence | intros H; congruence
          | intros [H|H]; congruence | intros H; congruence
          | intros [H|H]; congruence | auto | intros; reflexivity]|].
  repeat (split; [reflexivity|]).
  split; [get_defined|]. split; [get_defined|].
  intros k Hk. get_caller k details Hobject.
Qed.

Lemma logNetworkStatus_entry_witness :
  NoDup (map fst [("ssid", VStr "lab"); ("retries", VNum (Int 3))])
  /\ exists (e : LogEntry) (w1 : World) (d : list (string * value)),
       logNetworkStatus reconnecting
         (Some [("ssid", VStr "lab"); ("retries", VNum (Int 3))]) session
       = insert e w1
       /\ LogEntry.level e = LWarning
       /\ LogEntry.details e = Some d
       /\ obj_get "status" d = Some (VStr "reconnecting")
       /\ obj_get "ssid" d = Some (VStr "lab")
       /\ obj_get "retries" d = Some (VNum (Int 3)).
Proof.
  assert (Hobject : NoDup (map fst [("ssid", VStr "lab");
                                    ("retries", VNum (Int 3))])).
  { repeat constructor; simpl; intuition discriminate. }
  split; [exact Hobject|].
  destruct (logNetworkStatus_entry reconnecting
              (Some [("ssid", VStr "lab"); ("retries", VNum (Int 3))])
              session Hobject)
    as (e & w1 & d & Hrun & _ & _ & Hlevel & _ & _ & Hdetails & Hstatus & _
        & Hcaller).
  exists e, w1, d. split; [exact Hrun|].
  split; [apply Hlevel; reflexivity|].
  split; [exact Hdetails|]. split; [exact Hstatus|].
  split; (rewrite Hcaller; [reflexivity | simpl; intuition discriminate]).
Defined.

(** X4. [logDatabase] inserts an entry with the message
    "DB {operation} - Success ({duration}ms)" or "... - Failed (...)", level
    info on success and error otherwise, category database. Its details
    hold operation, success, duration and a timestamp and, under every
    other key, what the caller's details hold under it. The caller's
    details are an object: no key occurs twice among its properties. *)
Theorem logDatabase_entry (operation : string) (success : bool)
  (duration : number)
  (details : option (list (string * value))) (w : World) :
  match details with
  | Some caller => NoDup (map fst caller)
  | None => True
  end ->
  exists (e : LogEntry) (w1 : World) (d : list (string * value)),
    logDatabase operation success duration details w = insert e w1
    /\ LogEntry.message e
       = "DB " ++ operation ++ " - "
           ++ (if success then "Success" else "Failed")
           ++ " (" ++ Number_toString duration ++ "ms)"
    /\ LogEntry.level e = (if success then LInfo else LError)
    /\ LogEntry.category e = CDatabase
    /\ LogEntry.details e = Some d
    /\ obj_get "operation" d = Some (VStr operation)
    /\ obj_get "success" d = Some (VBool success)
    /\ obj_get "duration" d = Some (VNum duration)
    /\ obj_get "timestamp" d = Some (VStr (toISOString (clock w (ticks w))))
    /\ (forall k,
          ~ In k ["operation"; "success"; "duration"; "timestamp"] ->
          obj_get k d
          = match details with
            | Some caller => obj_get k caller
            | None => None
            end).
Proof.
  intros Hobject.
  eexists. exists (advance 3 1 w). eexists.
  split; [unfold logDatabase; rewrite bind_unfold; simpl;
          rewrite addLog_insert; reflexivity|].
  simpl LogEntry.message; simpl LogEntry.level; simpl LogEntry.category;
    simpl LogEntry.details.
  repeat (split; [reflexivity|]).
  split; [get_defined|]. split; [get_defined|]. split; [get_defined|].
  split; [get_defined|].
  intros k Hk. get_caller k details Hobject.
Qed.

Lemma logDatabase_entry_witness :
  NoDup (map fst [("table", VStr "logs"); ("rows", VNum (Int 12))])
  /\ exists (e : LogEntry) (w1 : World) (d : list (string * value)),
       logDatabase "insert" true (Int 35)
         (Some [("table", VStr "logs"); ("rows", VNum (Int 12))]) session
       = insert e w1
       /\ LogEntry.message e = "DB insert - Success (35ms)"
       /\ LogEntry.details e = Some d
       /\ obj_get "duration" d = Some (VNum (Int 35))
       /\ obj_get "table" d = Some (VStr "logs")
       /\ obj_get "rows" d = Some (VNum (Int 12)).
Proof.
  assert (Hobject : NoDup (map fst [("table", VStr "logs");
                                    ("rows", VNum (Int 12))])).
  { repeat constructor; simpl; intuition discriminate. }
  split; [exact Hobject|].
  destruct (logDatabase_entry "insert" true (Int 35)
              (Some [("table", VStr "logs"); ("rows", VNum (Int 12))])
              session Hobject)
    as (e & w1 & d & Hrun & Hmessage & _ & _ & Hdetails & _ & _ & Hduration
        & _ & Hcaller).
  exists e, w1, d. split; [exact Hrun|]. split; [exact Hmessage|].
  split; [exact Hdetails|]. split; [exact Hduration|].
  split; (rewrite Hcaller; [reflexivity | simpl; intuition discriminate]).
Defined.

(** X5. [logError] inserts an entry of level error and category error with
    the given message. For an [Error] object its details are name, message
    and stack with the caller's details defined on top, so that a caller's
    property named name, message or stack replaces the error's; for any
    other value they are that value under the key error, again with the
    caller's details on top. *)
Theorem logError_entry (message : string) (error : caught)
  (details : option (list (string * value))) (w : World) :
  exists (e : LogEntry) (d : list (string * value)),
    logError message error details w = insert e (advance 2 1 w)
    /\ LogEntry.message e = message
    /\ LogEntry.level e = LError
    /\ LogEntry.category e = CError
    /\ LogEntry.details e = Some d
    /\ forall k,
         obj_get k d
         = match obj_get k (spread details []) with
           | Some v => Some v
           | None =>
               match error with
               | AnError name msg stack =>
                   obj_get k [ ("name", VStr name); ("message", VStr msg);
                               ("stack", optional VStr stack) ]
               | NotAnError v => obj_get k [("error", v)]
               end
           end.
Proof.
  eexists. eexists.
  split; [unfold logError; rewrite addLog_insert; reflexivity|].
  simpl LogEntry.message; simpl LogEntry.level; simpl LogEntry.category;
    simpl LogEntry.details.
  repeat (split; [reflexivity|]).
  intros k. unfold spread. rewrite List.app_nil_r.
  destruct error as [name msg stack|v].
  - change (obj_get k
              (obj_define []
                 ([ ("name", VStr name); ("message", VStr msg);
                    ("stack", optional VStr stack) ]
                    ++ default [] details))
            = match
                obj_get k
                  (obj_define [] match details with
                                 | Some d => d
                                 | None => []
                                 end)
              with
              | Some v => Some v
              | None =>
                  obj_get k [ ("name", VStr name); ("message", VStr msg);
                              ("stack", optional VStr stack) ]
              end).
    rewrite obj_define_app, obj_get_define.
    destruct details; reflexivity.
  - change (obj_get k
              (obj_define [] ([("error", v)] ++ default [] details))
            = match
                obj_get k
                  (obj_define [] match details with
                                 | Some d => d
                                 | None => []
                                 end)
              with
              | Some v0 => Some v0
              | None => obj_get k [("error", v)]
              end).
    rewrite obj_define_app, obj_get_define.
    destruct details; reflexivity.
Qed.

(** ** The size of the map *)

Lemma obj_replace_length {A : Type} (k : string) (v : A) o :
  List.length (obj_replace k v o) = List.length o.
Proof.
  induction o as [|[k0 v0] o IH]; simpl; [reflexivity|].
  destruct (k =? k0)%string; simpl; [reflexivity | rewrite IH; reflexivity].
Qed.

Lemma obj_set_length {A : Type} (k : string) (v : A) o :
  List.length (obj_set k v o)
  = if obj_has k o then List.length o else S (List.length o).
Proof.
  unfold obj_set. destruct (obj_has k o).
  - apply obj_replace_length.
  - apply (Permutation_length (obj_create_perm k v o)).
Qed.

Lemma obj_define_length {A : Type} (l : list (string * A)) : forall o,
  (List.length (obj_define o l) <= List.length o + List.length l)%nat.
Proof.
  unfold obj_define. induction l as [|[k v] l IH]; intros o; simpl; [lia|].
  eapply Nat.le_trans; [apply IH|]. rewrite obj_set_length.
  destruct (obj_has k o); lia.
Qed.

Lemma trimmed_length o : (List.length (trimmed o) <= MAX_LOGS)%nat.
Proof.
  unfold trimmed, Object_entries, Object_fromEntries.
  destruct (Nat.ltb_spec MAX_LOGS (List.length o)); [|assumption].
  eapply Nat.le_trans; [apply obj_define_length|].
  rewrite length_firstn. simpl List.length. lia.
Qed.

(** X6. [_trimLogs] always leaves at most [MAX_LOGS] entries, so after
    every [addLog] the map holds at most 1000 entries, whatever it held
    before (a map loaded from a larger blob included) and whether or not
    the call throws; and trimming a second time changes nothing. *)
Theorem addLog_within_capacity :
  (forall message level category details (w : World),
      (List.length (_logs (snd (addLog message level category details w)))
       <= MAX_LOGS)%nat)
  /\ (forall w : World,
        (List.length (_logs (snd (_trimLogs w))) <= MAX_LOGS)%nat
        /\ _trimLogs (snd (_trimLogs w)) = (Return tt, snd (_trimLogs w))).
Proof.
  split.
  - intros. rewrite addLog_insert, insert_logs. apply trimmed_length.
  - intros w. rewrite _trimLogs_run. cbn [snd]. split.
    + apply trimmed_length.
    + rewrite _trimLogs_run. cbn [_logs with_logs].
      rewrite (trimmed_small (trimmed (_logs w))) by apply trimmed_length.
      reflexivity.
Qed.

(** ** Insertion with room *)

Lemma getLogs_contains w e :
  In e (Object_values (_logs w)) ->
  exists l, fst (getLogs w) = Return l /\ In e l.
Proof.
  intros He. rewrite getLogs_run. eexists. split; [reflexivity|].
  eapply Permutation_in; [apply Permutation_sym, Array_sort_perm | exact He].
Qed.

Lemma obj_get_in {A : Type} (k : string) (v : A) o :
  obj_get k o = Some v -> In (k, v) o.
Proof.
  induction o as [|[k0 v0] o IH]; simpl; [discriminate|].
  destruct (String.eqb_spec k k0) as [->|Hne].
  - intros H. inversion H; subst. left; reflexivity.
  - intros H. right. apply IH, H.
Qed.

Lemma addLog_logs_with_room message level category details (w : World) :
  (List.length (_logs w) < MAX_LOGS)%nat ->
  _logs (snd (addLog message level category details w))
  = obj_set (LogEntry.id (entry_built (message, level, category, details) w))
      (entry_built (message, level, category, details) w) (_logs w).
Proof.
  intros Hroom. rewrite addLog_insert, insert_logs.
  change (_logs (advance 2 1 w)) with (_logs w).
  apply trimmed_small. rewrite obj_set_length.
  destruct (obj_has _ (_logs w)); lia.
Qed.

(** X7. In a map with fewer than [MAX_LOGS] entries [addLog] keeps what it
    inserts: afterwards the entry it built is found under the id the call
    generates, every other key holds what it held before, [getLogs] lists
    the entry, and the map has grown by one entry, or kept its size when
    the id was already a key (the entry under it is then replaced). *)
Theorem addLog_with_room message level category details (w : World) :
  (List.length (_logs w) < MAX_LOGS)%nat ->
  let e := entry_built (message, level, category, details) w in
  let w' := snd (addLog message level category details w) in
  obj_get (LogEntry.id e) (_logs w') = Some e
  /\ (forall k, k <> LogEntry.id e -> obj_get k (_logs w') = obj_get k (_logs w))
  /\ (exists l, fst (getLogs w') = Return l /\ In e l)
  /\ List.length (_logs w')
     = (if obj_has (LogEntry.id e) (_logs w) then List.length (_logs w)
        else S (List.length (_logs w))).
Proof.
  intros Hroom e w'.
  assert (Hlogs : _logs w' = obj_set (LogEntry.id e) e (_logs w))
    by (apply addLog_logs_with_room, Hroom).
  assert (Hfound : obj_get (LogEntry.id e) (_logs w') = Some e)
    by (rewrite Hlogs; apply obj_get_set_same).
  split; [exact Hfound|]. split.
  - intros k Hk. rewrite Hlogs, obj_get_set.
    destruct (String.eqb_spec k (LogEntry.id e)); [contradiction|reflexivity].
  - split.
    + apply getLogs_contains. unfold Object_values.
      apply (in_map snd _ _ (obj_get_in _ _ _ Hfound)).
    + rewrite Hlogs. apply obj_set_length.
Qed.

Lemma addLog_with_room_witness :
  (List.length (_logs session) < MAX_LOGS)%nat
  /\ obj_get "1700000000000-k3x9q2m1z" (_logs greeted)
     = Some (entry_built ("hello", None, None, None) session).
Proof.
  assert (Hroom : (List.length (_logs session) < MAX_LOGS)%nat)
    by (apply Nat.ltb_lt; vm_compute; reflexivity).
  split; [exact Hroom|].
  exact (proj1 (addLog_with_room "hello" None None None session Hroom)).
Defined.

(** ** What a call writes *)

Lemma serialize_object_text ps r :
  SerializeJSONProperty (VObj ps) = Return r -> exists blob, r = Some blob.
Proof.
  rewrite serialize_object. destruct (serialize_members ps); [|discriminate].
  intros H. inversion H. eexists. reflexivity.
Qed.

(** X8. The cookie follows the map. When [addLog] returns, it returns the
    generated id and the cookie holds the JSON text of the map as the call
    left it; when it throws, it throws what serializing that map throws and
    the cookie is the one from before the call, while the map has changed
    all the same. *)
Theorem addLog_cookie message level category details (w : World) :
  let e := entry_built (message, level, category, details) w in
  let w' := snd (addLog message level category details w) in
  _logs w' = trimmed (obj_set (LogEntry.id e) e (_logs w))
  /\ match fst (addLog message level category details w) with
     | Return key =>
         key = LogEntry.id e
         /\ exists blob,
              cookie w' = Some blob
              /\ JSON_stringify (value_of_logs (_logs w'))
                 = Return (Some blob)
     | Throw err =>
         cookie w' = cookie w
         /\ JSON_stringify (value_of_logs (_logs w')) = Throw err
     end.
Proof.
  intros e w'.
  assert (Hlogs : _logs w' = trimmed (obj_set (LogEntry.id e) e (_logs w))).
  { unfold w'. rewrite addLog_insert, insert_logs. reflexivity. }
  split; [exact Hlogs|].
  rewrite Hlogs. unfold w'. rewrite addLog_insert, insert_run. cbv zeta.
  change (_logs (with_logs ?l ?w0)) with l.
  change (_logs (advance 2 1 w)) with (_logs w). fold e.
  destruct (JSON_stringify
              (value_of_logs (trimmed (obj_set (LogEntry.id e) e (_logs w)))))
    as [r|err] eqn:Hsave; cbn [fst snd].
  - split; [reflexivity|].
    destruct (serialize_object_text _ _ Hsave) as (blob & ->).
    exists blob. split; reflexivity.
  - split; reflexivity.
Qed.

(** X9. [addLog] touches the map and the cookie only: the flag
    [showLogs] and the diagnostic log are as before, whether the call
    returns or throws, and it reads the clock twice and [Math.random]
    once. *)
Theorem addLog_frame message level category details (w : World) :
  let w' := snd (addLog message level category details w) in
  showLogs w' = showLogs w
  /\ diagnostics w' = diagnostics w
  /\ clock w' = clock w /\ ticks w' = (2 + ticks w)%nat
  /\ random w' = random w /\ draws w' = (1 + draws w)%nat.
Proof.
  rewrite addLog_insert, insert_run. cbv zeta.
  destruct (JSON_stringify _); repeat split.
Qed.

(** X10. [new LogStore()] depends on the cookie only: whatever map and
    flag the world held, the store starts from the empty map with
    [showLogs] true; it never writes the cookie and never reads the clock. *)
Theorem new_LogStore_fresh (w : World) :
  let w' := snd (new_LogStore w) in
  (forall logs b,
      new_LogStore (with_logs logs (with_showLogs b w)) = new_LogStore w)
  /\ showLogs w' = true
  /\ cookie w' = cookie w
  /\ ticks w' = ticks w /\ draws w' = draws w.
Proof.
  split; [intros; reflexivity|].
  rewrite new_LogStore_run, _loadLogs_run.
  change (cookie (with_showLogs true (with_logs [] w))) with (cookie w).
  destruct (falsy_string (cookie w)); [repeat split|].
  destruct (JSON_parse _) as [v|err]; [|repeat split].
  destruct (logs_of_value v); repeat split.
Qed.

(** ** Identity of the entries *)

Lemma trimmed_NoDup o :
  NoDup (map fst o) -> NoDup (map fst (trimmed o)).
Proof.
  intros Hnd. unfold trimmed, Object_entries.
  destruct (MAX_LOGS <? List.length o)%nat; [|exact Hnd].
  unfold Object_fromEntries.
  apply (obj_define_enumerated _ []). split; constructor.
Qed.

Lemma keyed_values_NoDup logs :
  keyed_by_id logs -> NoDup (map fst logs) ->
  NoDup (map LogEntry.id (Object_values logs)).
Proof.
  unfold keyed_by_id, Object_values. intros Hkeyed Hnd.
  rewrite map_map.
  replace (map (fun x => LogEntry.id (snd x)) logs) with (map fst logs);
    [exact Hnd|].
  induction Hkeyed as [|kv logs Hkv Hrest IH]; simpl; [reflexivity|].
  inversion Hnd; subst. rewrite Hkv at 1. f_equal. apply IH. assumption.
Qed.

(** X11. Uniqueness of ids. If every key of the map is the id of its entry
    and no key occurs twice, the same holds after [addLog] and after
    [clearLogs]: no two resident entries ever share an id, and [getLogs]
    never lists two entries with the same id. *)
Theorem ids_stay_unique message level category details (w : World) :
  keyed_by_id (_logs w) -> NoDup (map fst (_logs w)) ->
  let w' := snd (addLog message level category details w) in
  keyed_by_id (_logs w')
  /\ NoDup (map fst (_logs w'))
  /\ NoDup (map LogEntry.id (map snd (_logs w')))
  /\ (exists l, fst (getLogs w') = Return l /\ NoDup (map LogEntry.id l))
  /\ keyed_by_id (_logs (snd (clearLogs w')))
  /\ NoDup (map fst (_logs (snd (clearLogs w')))).
Proof.
  intros Hkeyed Hnd w'.
  assert (Hlogs : _logs w'
                  = trimmed (obj_set
                               (LogEntry.id (entry_built (message, level,
                                                          category, details) w))
                               (entry_built (message, level, category,
                                             details) w) (_logs w))).
  { unfold w'. rewrite addLog_insert, insert_logs. reflexivity. }
  assert (Hkeyed' : keyed_by_id (_logs w')).
  { rewrite Hlogs. unfold keyed_by_id in *. rewrite Forall_forall in *.
    intros x Hx. apply trimmed_in, obj_set_in in Hx.
    destruct Hx as [->|Hx]; [reflexivity | apply Hkeyed, Hx]. }
  assert (Hnd' : NoDup (map fst (_logs w'))).
  { rewrite Hlogs. apply trimmed_NoDup, obj_set_NoDup, Hnd. }
  pose proof (keyed_values_NoDup _ Hkeyed' Hnd') as Hids.
  split; [exact Hkeyed'|]. split; [exact Hnd'|]. split; [exact Hids|].
  split.
  - rewrite getLogs_run. eexists. split; [reflexivity|].
    eapply Permutation_NoDup; [|exact Hids].
    apply Permutation_map, Permutation_sym, Array_sort_perm.
  - rewrite clearLogs_run. split; constructor.
Qed.

Lemma ids_stay_unique_witness :
  keyed_by_id (_logs crowded) /\ NoDup (map fst (_logs crowded))
  /\ List.length (_logs (snd (addLog "again" None None None crowded)))
     = 1000%nat
  /\ NoDup (map LogEntry.id
              (map snd (_logs (snd (addLog "again" None None None crowded)))))
  /\ exists l,
       fst (getLogs (snd (addLog "again" None None None crowded))) = Return l
       /\ NoDup (map LogEntry.id l).
Proof.
  assert (H1 : keyed_by_id (_logs crowded)).
  { unfold keyed_by_id, crowded. cbn [_logs with_logs].
    rewrite Forall_forall. intros x Hx. apply in_map_iff in Hx.
    destruct Hx as (e & <- & _). reflexivity. }
  assert (H2 : NoDup (map fst (_logs crowded)))
    by (apply distinct_NoDup; vm_compute; reflexivity).
  assert (H3 : List.length
                 (_logs (snd (addLog "again" None None None crowded)))
               = 1000%nat)
    by (vm_compute; reflexivity).
  split; [exact H1|]. split; [exact H2|]. split; [exact H3|].
  split.
  - exact (proj1 (proj2 (proj2
      (ids_stay_unique "again" None None None crowded H1 H2)))).
  - exact (proj1 (proj2 (proj2 (proj2
      (ids_stay_unique "again" None None None crowded H1 H2))))).
Defined.

(** ** Filtering *)

Lemma level_eqb_eq a b : level_eqb a b = true <-> a = b.
Proof. destruct a, b; split; intros H; try reflexivity; discriminate. Qed.

Lemma category_eqb_eq a b : category_eqb a b = true <-> a = b.
Proof. destruct a, b; split; intros H; try reflexivity; discriminate. Qed.

Lemma matches_passes level category q e b :
  matches level category q e = Return b -> b = true -> passes level category e = true.
Proof.
  unfold matches, passes. intros H Hb. subst b.
  destruct (if falsy_string q then _ else _) as [s|err]; [|discriminate].
  injection H as Hs. apply andb_true_iff in Hs. exact (proj1 Hs).
Qed.

Lemma Array_filter_spec {A : Type} (f : A -> outcome bool) l r :
  Array_filter f l = Return r ->
  r = filter (fun x => match f x with Return b => b | Throw _ => false end) l
  /\ forall x, In x l -> exists b, f x = Return b.
Proof.
  revert r. induction l as [|x l IH]; simpl; intros r H.
  - inversion H. split; [reflexivity | intros x []].
  - destruct (f x) as [keep|err] eqn:Hx; [|discriminate].
    destruct (Array_filter f l) as [r'|err]; [|discriminate].
    destruct (IH r' eq_refl) as [Hr' Hall]. inversion H; subst r. split.
    + destruct keep; rewrite <- Hr'; reflexivity.
    + intros y [<-|Hy]; [exists keep; exact Hx | apply Hall, Hy].
Qed.

Lemma filter_sorted {A : Type} (R : A -> A -> Prop) (p : A -> bool) l :
  StronglySorted R l -> StronglySorted R (filter p l).
Proof.
  induction 1 as [|x l Hl IH Hx]; simpl; [constructor|].
  destruct (p x); [|exact IH]. constructor; [exact IH|].
  rewrite Forall_forall in *. intros y Hy. apply filter_In in Hy.
  apply Hx, Hy.
Qed.

(** X12. Whatever [getFilteredLogs] returns is a selection of what
    [getLogs] returns, in the same order: the most recent first, each entry
    resident, each with the requested level (any level when none or 'debug'
    is requested) and the requested category (any when none is). *)
Theorem getFilteredLogs_sound level category searchQuery (w : World) r :
  fst (getFilteredLogs level category searchQuery w) = Return r ->
  (exists keep : LogEntry -> bool,
      r = filter keep (Array_sort by_timestamp_desc (Object_values (_logs w))))
  /\ StronglySorted
       (fun a b => LogEntry.timestamp b <= LogEntry.timestamp a) r
  /\ forall e, In e r ->
       In e (Object_values (_logs w))
       /\ (level = None \/ level = Some LDebug
           \/ level = Some (LogEntry.level e))
       /\ (category = None \/ category = Some (LogEntry.category e)).
Proof.
  rewrite getFilteredLogs_run. cbn [fst]. intros Hr.
  destruct (Array_filter_spec _ _ _ Hr) as [Hfilter _].
  split; [eexists; exact Hfilter|]. split.
  - rewrite Hfilter. apply filter_sorted.
    apply (Array_sort_descending LogEntry.timestamp). reflexivity.
  - intros e He. rewrite Hfilter in He. apply filter_In in He.
    destruct He as [Hin Hkeep]. split.
    + eapply Permutation_in; [apply Array_sort_perm | exact Hin].
    + destruct (matches level category searchQuery e) as [b|] eqn:Hm;
        [|discriminate].
      pose proof (matches_passes _ _ _ _ _ Hm Hkeep) as Hpass.
      unfold passes in Hpass. apply andb_true_iff in Hpass.
      destruct Hpass as [Hl Hc]. split.
      * destruct level as [l|]; [|left; reflexivity]. right.
        apply orb_true_iff in Hl. destruct Hl as [Hl|Hl].
        -- left. apply level_eqb_eq in Hl. congruence.
        -- right. apply level_eqb_eq in Hl. congruence.
      * destruct category as [c|]; [|left; reflexivity]. right.
        apply category_eqb_eq in Hc. congruence.
Qed.

Lemma getFilteredLogs_sound_witness :
  fst (getFilteredLogs (Some LInfo) (Some CSystem) (Some "HELL") greeted)
  = Return [entry_built ("hello", None, None, None) session]
  /\ StronglySorted
       (fun a b => LogEntry.timestamp b <= LogEntry.timestamp a)
       [entry_built ("hello", None, None, None) session].
Proof.
  assert (H : fst (getFilteredLogs (Some LInfo) (Some CSystem) (Some "HELL")
                     greeted)
              = Return [entry_built ("hello", None, None, None) session])
    by (vm_compute; reflexivity).
  split; [exact H|].
  exact (proj1 (proj2 (getFilteredLogs_sound _ _ _ _ _ H))).
Defined.

Lemma matches_without_search level category q e :
  falsy_string q = true ->
  matches level category q e = Return (passes level category e).
Proof.
  intros Hq. unfold matches, passes. rewrite Hq.
  rewrite andb_true_r. reflexivity.
Qed.

Lemma getFilteredLogs_no_query level category q (w : World) :
  falsy_string q = true ->
  getFilteredLogs level category q w
  = (Return (filter (passes level category)
               (Array_sort by_timestamp_desc (Object_values (_logs w)))), w).
Proof.
  intros Hq. rewrite getFilteredLogs_run. f_equal.
  apply Array_filter_total. intros e _.
  apply matches_without_search, Hq.
Qed.

(** X13. Without a search query ([undefined] or the empty string)
    [getFilteredLogs] never throws, whatever the details of the entries:
    it returns exactly the entries of [getLogs] that have the requested
    level and category; and without any filter it returns what [getLogs]
    returns. *)
Theorem getFilteredLogs_without_search level category (w : World) :
  getFilteredLogs level category None w
  = (Return (filter (passes level category)
               (Array_sort by_timestamp_desc (Object_values (_logs w)))), w)
  /\ getFilteredLogs level category (Some "") w
     = getFilteredLogs level category None w
  /\ getFilteredLogs None None None w = getLogs w.
Proof.
  split; [apply getFilteredLogs_no_query; reflexivity|]. split.
  - rewrite (getFilteredLogs_no_query level category (Some "")),
      (getFilteredLogs_no_query level category None); reflexivity.
  - rewrite getFilteredLogs_run, getLogs_run. f_equal.
    apply Array_filter_all. intros e _. reflexivity.
Qed.

(** X14. An entry whose message contains the query, letter case ignored,
    passes the search without its details being serialized: when that holds
    for every resident entry, [getFilteredLogs] returns the entries with
    the requested level and category and does not throw, entries without
    details or with details that cannot be serialized included. *)
Theorem getFilteredLogs_message_match level category q (w : World) :
  (forall e, In e (Object_values (_logs w)) ->
     includes (toLowerCase (LogEntry.message e)) (toLowerCase q) = true) ->
  getFilteredLogs level category (Some q) w
  = (Return (filter (passes level category)
               (Array_sort by_timestamp_desc (Object_values (_logs w)))), w).
Proof.
  intros Hall. rewrite getFilteredLogs_run. f_equal.
  apply Array_filter_total. intros e He.
  assert (Hin : In e (Object_values (_logs w))).
  { eapply Permutation_in; [apply Array_sort_perm | exact He]. }
  unfold matches, passes. cbn [default].
  rewrite (Hall e Hin).
  destruct (falsy_string (Some q)); rewrite andb_true_r; reflexivity.
Qed.

Lemma getFilteredLogs_message_match_witness :
  (forall e, In e (Object_values (_logs greeted)) ->
     includes (toLowerCase (LogEntry.message e)) (toLowerCase "ELL") = true)
  /\ fst (getFilteredLogs (Some LInfo) None (Some "ELL") greeted)
     = Return (filter (passes (Some LInfo) None)
                 (Array_sort by_timestamp_desc
                    (Object_values (_logs greeted)))).
Proof.
  assert (H : forall e, In e (Object_values (_logs greeted)) ->
            includes (toLowerCase (LogEntry.message e)) (toLowerCase "ELL")
            = true).
  { intros e He. vm_compute in He. destruct He as [<-|[]]. reflexivity. }
  split; [exact H|].
  rewrite (getFilteredLogs_message_match (Some LInfo) None "ELL" greeted H).
  reflexivity.
Defined.

Lemma passes_spec level category e :
  passes level category e = true
  <-> (level = None \/ level = Some LDebug \/ level = Some (LogEntry.level e))
      /\ (category = None \/ category = Some (LogEntry.category e)).
Proof.
  unfold passes. rewrite andb_true_iff.
  assert (Hand : forall A B C D : Prop,
            (A <-> B) -> (C <-> D) -> (A /\ C <-> B /\ D)) by tauto.
  apply Hand.
  - destruct level as [l|]; [|split; [left; reflexivity | reflexivity]].
    rewrite orb_true_iff, !level_eqb_eq. split.
    + intros [->| ->]; [right; left | right; right]; reflexivity.
    + intros [H|[H|H]]; [discriminate | left | right]; congruence.
  - destruct category as [c|]; [|split; [left; reflexivity | reflexivity]].
    rewrite category_eqb_eq. split.
    + intros ->. right; reflexivity.
    + intros [H|H]; [discriminate | congruence].
Qed.

(** X15. Logging, then filtering. In a map with room, the entry [addLog]
    has built is returned by [getFilteredLogs(l, c)] (no search query)
    exactly when [l] is absent, 'debug' or the level of the call (info by
    default) and [c] is absent or the category of the call (system by
    default). So an entry logged by [logSystem], [logProvider],
    [logUserAction], [logWarning] or [logDebug] is found under the level
    and category of that helper. *)
Theorem logged_then_filtered message level category details (w : World) :
  (List.length (_logs w) < MAX_LOGS)%nat ->
  let e := entry_built (message, level, category, details) w in
  let found := fun (w' : World) l c (e : LogEntry) =>
    exists r, fst (getFilteredLogs l c None w') = Return r /\ In e r in
  (forall l c,
      found (snd (addLog message level category details w)) l c e
      <-> (l = None \/ l = Some LDebug \/ l = Some (default LInfo level))
          /\ (c = None \/ c = Some (default CSystem category)))
  /\ found (snd (logSystem message details w)) (Some LInfo) (Some CSystem)
       (entry_built (message, Some LInfo, Some CSystem, details) w)
  /\ found (snd (logProvider message details w)) (Some LInfo) (Some CProvider)
       (entry_built (message, Some LInfo, Some CProvider, details) w)
  /\ found (snd (logUserAction message details w)) (Some LInfo) (Some CUser)
       (entry_built (message, Some LInfo, Some CUser, details) w)
  /\ found (snd (logWarning message details w)) (Some LWarning) (Some CSystem)
       (entry_built (message, Some LWarning, Some CSystem, details) w)
  /\ found (snd (logDebug message details w)) (Some LDebug) (Some CSystem)
       (entry_built (message, Some LDebug, Some CSystem, details) w).
Proof.
  intros Hroom e found.
  assert (Hgeneral : forall lv cat l c,
            found (snd (addLog message lv cat details w)) l c
              (entry_built (message, lv, cat, details) w)
            <-> (l = None \/ l = Some LDebug \/ l = Some (default LInfo lv))
                /\ (c = None \/ c = Some (default CSystem cat))).
  { intros lv cat l c. unfold found.
    assert (Hin : In (entry_built (message, lv, cat, details) w)
                    (Array_sort by_timestamp_desc
                       (Object_values
                          (_logs (snd (addLog message lv cat details w)))))).
    { apply (Permutation_in _ (Permutation_sym (Array_sort_perm _ _))).
      unfold Object_values. rewrite (addLog_logs_with_room _ _ _ _ _ Hroom).
      apply (in_map snd _ _ (obj_get_in _ _ _ (obj_get_set_same _ _ _))). }
    rewrite (getFilteredLogs_no_query l c None
               (snd (addLog message lv cat details w)) eq_refl).
    cbn [fst].
    rewrite <- (passes_spec l c (entry_built (message, lv, cat, details) w)).
    split.
    - intros (r & Hr & He). injection Hr as <-.
      apply filter_In in He. apply He.
    - intros Hpass. eexists. split; [reflexivity|].
      apply filter_In. split; assumption. }
  split; [apply Hgeneral|].
  split; [apply (Hgeneral (Some LInfo) (Some CSystem)); split; right;
          try right; reflexivity|].
  split; [apply (Hgeneral (Some LInfo) (Some CProvider)); split; right;
          try right; reflexivity|].
  split; [apply (Hgeneral (Some LInfo) (Some CUser)); split; right;
          try right; reflexivity|].
  split; [apply (Hgeneral (Some LWarning) (Some CSystem)); split; right;
          try right; reflexivity|].
  apply (Hgeneral (Some LDebug) (Some CSystem)); split; right;
    try right; reflexivity.
Qed.

Lemma logged_then_filtered_witness :
  (List.length (_logs session) < MAX_LOGS)%nat
  /\ exists r,
       fst (getFilteredLogs (Some LWarning) (Some CSystem) None
              (snd (logWarning "slow" None session))) = Return r
       /\ In (entry_built ("slow", Some LWarning, Some CSystem, None) session)
            r.
Proof.
  assert (Hroom : (List.length (_logs session) < MAX_LOGS)%nat)
    by (apply Nat.ltb_lt; vm_compute; reflexivity).
  split; [exact Hroom|].
  exact (proj1 (proj2 (proj2 (proj2 (proj2
    (logged_then_filtered "slow" None None None session Hroom)))))).
Defined.

(** ** Generated ids *)

Lemma uint_of_string_dash a b :
  NilEmpty.uint_of_string (a ++ String "-" b) = None.
Proof.
  induction a as [|c a IH]; simpl.
  - destruct (NilEmpty.uint_of_string b); reflexivity.
  - rewrite IH. reflexivity.
Qed.

Lemma array_index_dash a b : array_index (a ++ "-" ++ b) = None.
Proof.
  unfold array_index, NilZero.uint_of_string.
  change ("-" ++ b)%string with (String "-" b).
  destruct (a ++ String "-" b)%string eqn:Htext; [reflexivity|].
  rewrite <- Htext, uint_of_string_dash. reflexivity.
Qed.

Lemma key_rank_bound k : key_rank k <= 4294967295.
Proof.
  unfold key_rank. destruct (array_index k) as [i|] eqn:Hk; [|lia].
  apply array_index_bound in Hk. lia.
Qed.

Lemma obj_set_appends {A : Type} (k : string) (v : A) o :
  array_index k = None -> obj_has k o = false ->
  obj_set k v o = (o ++ [(k, v)])%list.
Proof.
  intros Hk Hfresh. unfold obj_set. rewrite Hfresh.
  apply obj_create_last. rewrite Forall_forall. intros x _.
  unfold key_rank at 2. rewrite Hk. apply key_rank_bound.
Qed.

Lemma generated_id_inj (a : Z) s (b : Z) t :
  (Number_toString (Int a) ++ "-" ++ s)%string
  = (Number_toString (Int b) ++ "-" ++ t)%string ->
  a = b /\ s = t.
Proof.
  intros H.
  pose proof (parse_number_toString (Int a) (String "-" s) I eq_refl) as Ha.
  pose proof (parse_number_toString (Int b) (String "-" t) I eq_refl) as Hb.
  change ("-" ++ s)%string with (String "-" s) in H.
  change ("-" ++ t)%string with (String "-" t) in H.
  rewrite H in Ha. rewrite Ha in Hb. inversion Hb. split; reflexivity.
Qed.

(** X16. The id [_generateId] builds determines the clock reading and the
    random suffix it was built from: two ids are equal only if both are,
    so ids generated at different readings of the clock differ whatever
    [Math.random] gives. And a generated id is never an array index, so a
    new entry is enumerated after all the others: while there is room, the
    map lists its entries in the order of their insertion. *)
Theorem generated_ids (c c' : call) (w w' : World) :
  (LogEntry.id (entry_built c w) = LogEntry.id (entry_built c' w')
   <-> clock w (ticks w) = clock w' (ticks w')
       /\ random w (draws w) = random w' (draws w'))
  /\ array_index (LogEntry.id (entry_built c w)) = None
  /\ ((List.length (_logs w) < MAX_LOGS)%nat ->
      obj_has (LogEntry.id (entry_built c w)) (_logs w) = false ->
      let '(message, level, category, details) := c in
      _logs (snd (addLog message level category details w))
      = (_logs w ++ [(LogEntry.id (entry_built c w), entry_built c w)])%list).
Proof.
  destruct c as [[[message level] category] details].
  destruct c' as [[[message' level'] category'] details'].
  split; [|split].
  - cbn [entry_built LogEntry.id]. split.
    + apply generated_id_inj.
    + intros [-> ->]. reflexivity.
  - apply array_index_dash.
  - intros Hroom Hfresh.
    rewrite addLog_insert, insert_logs.
    change (_logs (advance 2 1 w)) with (_logs w).
    rewrite obj_set_appends; [|apply array_index_dash | exact Hfresh].
    apply trimmed_small. rewrite length_app. simpl. lia.
Qed.

Lemma generated_ids_witness :
  (List.length (_logs greeted) < MAX_LOGS)%nat
  /\ obj_has (LogEntry.id (entry_built ("again", None, None, None) greeted))
       (_logs greeted) = false
  /\ _logs (snd (addLog "again" None None None greeted))
     = [(LogEntry.id (entry_built ("hello", None, None, None) session),
         entry_built ("hello", None, None, None) session);
        (LogEntry.id (entry_built ("again", None, None, None) greeted),
         entry_built ("again", None, None, None) greeted)].
Proof.
  assert (Hroom : (List.length (_logs greeted) < MAX_LOGS)%nat)
    by (apply Nat.ltb_lt; vm_compute; reflexivity).
  assert (Hfresh :
            obj_has (LogEntry.id (entry_built ("again", None, None, None)
                                    greeted)) (_logs greeted) = false)
    by (vm_compute; reflexivity).
  split; [exact Hroom|]. split; [exact Hfresh|].
  exact (proj2 (proj2 (generated_ids ("again", None, None, None)
                         ("again", None, None, None) greeted greeted))
           Hroom Hfresh).
Defined.

(** ** Reading back in the order of logging *)

Lemma obj_has_false {A : Type} (k : string) (o : list (string * A)) :
  obj_has k o = false <-> ~ In k (map fst o).
Proof.
  rewrite <- obj_get_None. unfold obj_has.
  destruct (obj_get k o); split; congruence.
Qed.

Lemma addLog_all_appends calls : forall w,
  (List.length (_logs w) + List.length calls <= MAX_LOGS)%nat ->
  NoDup (map fst (_logs w) ++ map LogEntry.id (built calls w))%list ->
  _logs (snd (addLog_all calls w))
  = (_logs w ++ map (fun e => (LogEntry.id e, e)) (built calls w))%list.
Proof.
  induction calls as [|c calls IH]; intros w Hroom Hfresh.
  - simpl. rewrite List.app_nil_r. reflexivity.
  - destruct c as [[[message level] category] details].
    rewrite addLog_all_cons. simpl snd.
    set (c := (message, level, category, details)) in *.
    set (w1 := snd (addLog message level category details w)).
    simpl List.length in Hroom.
    assert (Hk : ~ In (LogEntry.id (entry_built c w)) (map fst (_logs w))).
    { simpl built in Hfresh. simpl map in Hfresh.
      apply NoDup_remove_2 in Hfresh. intros Hin. apply Hfresh.
      apply in_or_app. left; exact Hin. }
    assert (Hw1 : _logs w1
                  = (_logs w ++ [(LogEntry.id (entry_built c w),
                                  entry_built c w)])%list).
    { unfold w1. rewrite addLog_insert, insert_logs.
      change (_logs (advance 2 1 w)) with (_logs w).
      rewrite obj_set_appends;
        [|destruct c as [[[? ?] ?] ?]; apply array_index_dash
         |apply obj_has_false, Hk].
      apply trimmed_small. rewrite length_app. simpl. lia. }
    assert (Henv : built calls w1 = built calls (advance 2 1 w)).
    { unfold w1. rewrite addLog_insert.
      destruct (insert_env (entry_built c w) (advance 2 1 w))
        as (H1 & H2 & H3 & H4).
      apply built_env; assumption. }
    rewrite IH.
    + rewrite Hw1, Henv, <- app_assoc. reflexivity.
    + rewrite Hw1, length_app. simpl. lia.
    + rewrite Hw1, Henv, map_app, <- app_assoc. exact Hfresh.
Qed.

(** Every entry of a run is built from two consecutive readings of the
    clock, none earlier than the run. *)
Lemma built_readings calls : forall w e,
  In e (built calls w) ->
  exists n suffix,
    (ticks w <= n)%nat
    /\ LogEntry.id e
       = (Number_toString (Int (clock w n)) ++ "-" ++ suffix)%string
    /\ LogEntry.timestamp e = clock w (S n).
Proof.
  induction calls as [|c calls IH]; simpl; intros w e He; [tauto|].
  destruct He as [<-|He].
  - exists (ticks w), (random w (draws w)).
    destruct c as [[[message level] category] details].
    repeat split. apply Nat.le_refl.
  - destruct (IH _ _ He) as (n & suffix & Hn & Hid & Hts).
    exists n, suffix. simpl in Hn, Hid, Hts. repeat split; [lia | exact Hid | exact Hts].
Qed.

Lemma built_ids_NoDup calls : forall w,
  (forall i j, (i < j)%nat -> clock w i < clock w j) ->
  NoDup (map LogEntry.id (built calls w)).
Proof.
  induction calls as [|c calls IH]; simpl; intros w Hclock; constructor.
  - intros Hin. apply in_map_iff in Hin. destruct Hin as (e & Hid & He).
    destruct (built_readings _ _ _ He) as (n & suffix & Hn & Hidn & _).
    simpl in Hn, Hidn.
    destruct c as [[[message level] category] details].
    cbn [entry_built LogEntry.id] in Hid. rewrite Hidn in Hid.
    apply generated_id_inj in Hid. destruct Hid as [Hid _].
    assert (Hlt : clock w (ticks w) < clock w n) by (apply Hclock; lia).
    lia.
  - apply IH. exact Hclock.
Qed.

Lemma built_ascending calls : forall w,
  (forall i j, (i < j)%nat -> clock w i < clock w j) ->
  StronglySorted
    (fun a b => LogEntry.timestamp a < LogEntry.timestamp b) (built calls w).
Proof.
  induction calls as [|c calls IH]; simpl; intros w Hclock; constructor.
  - apply IH. exact Hclock.
  - rewrite Forall_forall. intros e He.
    destruct (built_readings _ _ _ He) as (n & suffix & Hn & _ & Hts).
    simpl in Hn, Hts. rewrite Hts.
    destruct c as [[[message level] category] details].
    cbn [entry_built LogEntry.timestamp]. apply Hclock. lia.
Qed.

Lemma sort_insert_oldest {A : Type} (cmp : A -> A -> Z) x l :
  Forall (fun y => 0 < cmp x y) l ->
  sort_insert cmp x l = (l ++ [x])%list.
Proof.
  induction 1 as [|y l Hy Hl IH]; simpl; [reflexivity|].
  destruct (Z.ltb_spec 0 (cmp x y)); [|lia]. rewrite IH. reflexivity.
Qed.

Lemma sort_ascending_rev l :
  StronglySorted
    (fun a b => LogEntry.timestamp a < LogEntry.timestamp b) l ->
  Array_sort by_timestamp_desc l = rev l.
Proof.
  induction 1 as [|x l Hl IH Hx]; [reflexivity|].
  change (Array_sort by_timestamp_desc (x :: l))
    with (sort_insert by_timestamp_desc x (Array_sort by_timestamp_desc l)).
  rewrite IH. simpl rev.
  apply sort_insert_oldest. rewrite Forall_forall in *.
  intros y Hy. apply in_rev in Hy. unfold by_timestamp_desc.
  specialize (Hx y Hy). lia.
Qed.

(** X17. In a store that starts empty, under a clock that strictly advances
    from one reading to the next, up to 1000 calls of [addLog] are all kept:
    the map lists the entries in the order they were logged, and [getLogs]
    returns exactly these entries in the reverse order, the last logged
    first. *)
Theorem chronological_read_back (calls : list call) (w : World) :
  _logs w = [] ->
  (List.length calls <= MAX_LOGS)%nat ->
  (forall i j, (i < j)%nat -> clock w i < clock w j) ->
  let w' := snd (addLog_all calls w) in
  _logs w' = map (fun e => (LogEntry.id e, e)) (built calls w)
  /\ getLogs w' = (Return (rev (built calls w)), w').
Proof.
  intros Hempty Hroom Hclock w'.
  assert (Hlogs : _logs w'
                  = map (fun e => (LogEntry.id e, e)) (built calls w)).
  { unfold w'. rewrite addLog_all_appends; rewrite Hempty; simpl.
    - reflexivity.
    - exact Hroom.
    - apply built_ids_NoDup, Hclock. }
  split; [exact Hlogs|].
  rewrite getLogs_run, Hlogs. unfold Object_values.
  rewrite map_map. simpl. rewrite map_id.
  rewrite sort_ascending_rev; [reflexivity|].
  apply built_ascending, Hclock.
Qed.

Lemma chronological_read_back_witness :
  _logs session = []
  /\ (List.length two_events <= MAX_LOGS)%nat
  /\ (forall i j, (i < j)%nat -> clock session i < clock session j)
  /\ getLogs (snd (addLog_all two_events session))
     = (Return (rev (built two_events session)),
        snd (addLog_all two_events session)).
Proof.
  assert (Hroom : (List.length two_events <= MAX_LOGS)%nat)
    by (apply Nat.leb_le; vm_compute; reflexivity).
  assert (Hclock : forall i j, (i < j)%nat -> clock session i < clock session j)
    by (intros i j Hij; simpl; lia).
  split; [reflexivity|]. split; [exact Hroom|]. split; [exact Hclock|].
  exact (proj2 (chronological_read_back two_events session
                  eq_refl Hroom Hclock)).
Defined.

(** ** A full store *)

Lemma sort_insert_before_last {A : Type} (cmp : A -> A -> Z) y x l :
  cmp y x <= 0 ->
  sort_insert cmp y (l ++ [x]) = (sort_insert cmp y l ++ [x])%list.
Proof.
  intros Hyx. induction l as [|z l IH]; simpl.
  - destruct (Z.ltb_spec 0 (cmp y x)); [lia | reflexivity].
  - destruct (0 <? cmp y z); [rewrite IH|]; reflexivity.
Qed.

Lemma sort_keeps_last {A : Type} (cmp : A -> A -> Z) x l :
  Forall (fun y => cmp y x <= 0) l ->
  Array_sort cmp (l ++ [x]) = (Array_sort cmp l ++ [x])%list.
Proof.
  induction 1 as [|y l Hy Hl IH]; [reflexivity|].
  change (Array_sort cmp ((y :: l) ++ [x]))
    with (sort_insert cmp y (Array_sort cmp (l ++ [x]))).
  rewrite IH. apply sort_insert_before_last, Hy.
Qed.

(** X18. The store is full and the new entry is not more recent than any
    stored one (the clock was set back, or the store filled up within one
    millisecond): [addLog] inserts the entry, and [_trimLogs] drops that
    very entry again. The map holds the same entries as before, the id the
    call answers with is the key of none of them, and [getLogs] does not
    list the entry. *)
Theorem full_store_drops_stale_entry message level category details
  (w : World) :
  List.length (_logs w) = MAX_LOGS ->
  NoDup (map fst (_logs w)) ->
  let e := entry_built (message, level, category, details) w in
  obj_has (LogEntry.id e) (_logs w) = false ->
  (forall x, In x (_logs w) -> LogEntry.timestamp e <= ts x) ->
  let w' := snd (addLog message level category details w) in
  obj_get (LogEntry.id e) (_logs w') = None
  /\ Permutation (_logs w') (_logs w)
  /\ (forall r, fst (addLog message level category details w) = Return r ->
        r = LogEntry.id e)
  /\ (keyed_by_id (_logs w) ->
      exists l, getLogs w' = (Return l, w') /\ ~ In e l).
Proof.
  intros Hfull Hnd e Hfresh Hstale w'.
  assert (Hlogs : _logs w'
                  = Object_fromEntries
                      (Array_sort
                         (fun x y => by_timestamp_desc (snd x) (snd y))
                         (_logs w))).
  { unfold w'. rewrite addLog_insert, insert_logs.
    change (_logs (advance 2 1 w)) with (_logs w). fold e.
    rewrite obj_set_appends; [|apply array_index_dash | exact Hfresh].
    unfold trimmed, Object_entries.
    destruct (Nat.ltb_spec MAX_LOGS (List.length (_logs w ++ [(LogEntry.id e, e)])));
      [|rewrite length_app in *; simpl in *; lia].
    rewrite sort_keeps_last.
    - rewrite firstn_app.
      assert (Hlen : List.length
                       (Array_sort
                          (fun x y => by_timestamp_desc (snd x) (snd y))
                          (_logs w)) = MAX_LOGS).
      { rewrite <- Hfull. apply Permutation_length, Array_sort_perm. }
      rewrite Hlen, Nat.sub_diag, <- Hlen, firstn_all. simpl.
      rewrite List.app_nil_r. reflexivity.
    - rewrite Forall_forall. intros y Hy. unfold by_timestamp_desc.
      cbn [snd]. specialize (Hstale y Hy). unfold ts in Hstale. lia. }
  assert (Hperm : Permutation (_logs w') (_logs w)).
  { rewrite Hlogs. unfold Object_fromEntries.
    etransitivity; [apply obj_define_perm|].
    - simpl. eapply Permutation_NoDup; [|exact Hnd].
      apply Permutation_map, Permutation_sym, Array_sort_perm.
    - simpl. apply Array_sort_perm. }
  assert (Habsent : ~ In (LogEntry.id e) (map fst (_logs w'))).
  { intros Hin. apply obj_has_false in Hfresh. apply Hfresh.
    eapply Permutation_in; [|exact Hin]. apply Permutation_map, Hperm. }
  split; [apply obj_get_None, Habsent|]. split; [exact Hperm|]. split.
  - intros r Hr. rewrite addLog_insert, insert_run in Hr. cbv zeta in Hr.
    fold e in Hr.
    destruct (JSON_stringify _); simpl in Hr; [|discriminate].
    inversion Hr. reflexivity.
  - intros Hkeyed. rewrite getLogs_run. eexists. split; [reflexivity|].
    intros Hin. apply Habsent.
    apply (Permutation_in _ (Array_sort_perm _ _)) in Hin.
    unfold Object_values in Hin. apply in_map_iff in Hin.
    destruct Hin as ([k x] & Hx & Hkx). simpl in Hx. subst x.
    assert (Hk : k = LogEntry.id e).
    { unfold keyed_by_id in Hkeyed. rewrite Forall_forall in Hkeyed.
      apply (Hkeyed (k, e)). eapply Permutation_in; [exact Hperm | exact Hkx]. }
    subst k. apply in_map_iff. exists (LogEntry.id e, e). split; [reflexivity | exact Hkx].
Qed.

Lemma full_store_drops_stale_entry_witness :
  List.length (_logs stalled) = MAX_LOGS
  /\ NoDup (map fst (_logs stalled))
  /\ obj_has (LogEntry.id (entry_built ("late", None, None, None) stalled))
       (_logs stalled) = false
  /\ (forall x, In x (_logs stalled) ->
        LogEntry.timestamp (entry_built ("late", None, None, None) stalled)
        <= ts x)
  /\ obj_get (LogEntry.id (entry_built ("late", None, None, None) stalled))
       (_logs (snd (addLog "late" None None None stalled))) = None.
Proof.
  assert (Hfull : List.length (_logs stalled) = MAX_LOGS)
    by (vm_compute; reflexivity).
  assert (Hnd : NoDup (map fst (_logs stalled)))
    by (apply distinct_NoDup; vm_compute; reflexivity).
  assert (Hfresh :
            obj_has (LogEntry.id (entry_built ("late", None, None, None)
                                    stalled)) (_logs stalled) = false)
    by (vm_compute; reflexivity).
  assert (Hstale : forall x, In x (_logs stalled) ->
            LogEntry.timestamp (entry_built ("late", None, None, None) stalled)
            <= ts x).
  { intros x Hx. apply Z.leb_le. revert x Hx. apply forallb_forall.
    vm_compute. reflexivity. }
  split; [exact Hfull|]. split; [exact Hnd|]. split; [exact Hfresh|].
  split; [exact Hstale|].
  exact (proj1 (full_store_drops_stale_entry "late" None None None stalled
                  Hfull Hnd Hfresh Hstale)).
Defined.

(** ** Stability of the sort *)

Lemma sort_insert_filter {A : Type} (cmp : A -> A -> Z) (p : A -> bool) x l :
  (forall a b, p a = true -> p b = true -> cmp a b <= 0) ->
  filter p (sort_insert cmp x l) = filter p (x :: l).
Proof.
  intros Hclass. induction l as [|y l IH]; [reflexivity|].
  cbn [sort_insert]. destruct (Z.ltb_spec 0 (cmp x y)) as [Hlt|Hle];
    [|reflexivity].
  cbn [filter] in *. rewrite IH.
  destruct (p x) eqn:Hx, (p y) eqn:Hy; try reflexivity.
  specialize (Hclass x y Hx Hy). lia.
Qed.

Lemma Array_sort_stable {A : Type} (cmp : A -> A -> Z) (p : A -> bool) l :
  (forall a b, p a = true -> p b = true -> cmp a b <= 0) ->
  filter p (Array_sort cmp l) = filter p l.
Proof.
  intros Hclass. induction l as [|x l IH]; [reflexivity|].
  change (Array_sort cmp (x :: l))
    with (sort_insert cmp x (Array_sort cmp l)).
  rewrite sort_insert_filter by exact Hclass.
  cbn [filter]. rewrite IH. reflexivity.
Qed.

(** X19. [getLogs] breaks ties by the order of the map: the entries that
    carry one and the same timestamp are listed in the order in which the
    map enumerates them, so, among entries of one millisecond whose ids
    are generated ones, the one logged first comes first. *)
Theorem getLogs_stable (w : World) (t : Z) :
  exists l,
    getLogs w = (Return l, w)
    /\ filter (fun e => LogEntry.timestamp e =? t) l
       = filter (fun e => LogEntry.timestamp e =? t) (Object_values (_logs w)).
Proof.
  rewrite getLogs_run. eexists. split; [reflexivity|].
  apply Array_sort_stable. intros a b Ha Hb.
  apply Z.eqb_eq in Ha, Hb. unfold by_timestamp_desc. lia.
Qed.

(** ** The settings window *)

Lemma Array_get_Some {A : Type} (l : list A) (index : Z) :
  (exists x, UsersWindow.Array_get l index = Some x)
  <-> 0 <= index < Z.of_nat (List.length l).
Proof.
  unfold UsersWindow.Array_get. destruct (Z.ltb_spec index 0) as [Hneg|Hpos].
  - split; [intros [x Hx]; discriminate | lia].
  - split.
    + intros [x Hx].
      assert (Hlt : (Z.to_nat index < List.length l)%nat)
        by (apply nth_error_Some; congruence).
      lia.
    + intros Hrange.
      destruct (nth_error l (Z.to_nat index)) as [x|] eqn:Hx;
        [exists x; reflexivity|].
      apply nth_error_None in Hx. lia.
Qed.

(** X20. The tabs the window shows are exactly the tabs of the
    configuration that belong to the user window and are visible, each as
    often as the configuration has it, in ascending order of [order], a
    missing [order] counting as 0; tabs of equal order stay in the order
    of the configuration. *)
Theorem visibleUserTabs_shown (userTabs : list UsersWindow.TabVisibilityConfig) :
  let shown tab :=
    ((UsersWindow.window tab =? "user")%string && UsersWindow.visible tab)%bool in
  Permutation (UsersWindow.visibleUserTabs userTabs) (filter shown userTabs)
  /\ (forall tab,
        In tab (UsersWindow.visibleUserTabs userTabs)
        <-> In tab userTabs /\ UsersWindow.window tab = "user"
            /\ UsersWindow.visible tab = true)
  /\ StronglySorted
       (fun a b => UsersWindow.order_or_zero a <= UsersWindow.order_or_zero b)
       (UsersWindow.visibleUserTabs userTabs)
  /\ (forall n,
        filter (fun tab => UsersWindow.order_or_zero tab =? n)
          (UsersWindow.visibleUserTabs userTabs)
        = filter (fun tab => UsersWindow.order_or_zero tab =? n)
            (filter shown userTabs)).
Proof.
  intros shown.
  assert (Hperm : Permutation (UsersWindow.visibleUserTabs userTabs)
                    (filter shown userTabs))
    by apply Array_sort_perm.
  split; [exact Hperm|]. split; [|split].
  - intros tab. split.
    + intros Hin. apply (Permutation_in _ Hperm), filter_In in Hin.
      destruct Hin as [Hin Hshown]. unfold shown in Hshown.
      apply andb_true_iff in Hshown. destruct Hshown as [Hw Hv].
      apply String.eqb_eq in Hw. auto.
    + intros (Hin & Hw & Hv).
      apply (Permutation_in _ (Permutation_sym Hperm)), filter_In.
      split; [exact Hin|]. unfold shown. rewrite Hw, Hv. reflexivity.
  - pose proof (Array_sort_descending
                  (fun tab => - UsersWindow.order_or_zero tab)
                  (fun a b => UsersWindow.order_or_zero a
                              - UsersWindow.order_or_zero b)
                  ltac:(intros; cbv beta; lia) (filter shown userTabs))
      as Hsorted.
    unfold UsersWindow.visibleUserTabs. fold shown.
    induction Hsorted as [|x l Hl IH Hx]; constructor; [exact IH|].
    eapply Forall_impl; [|exact Hx]. simpl. intros; lia.
  - intros n. apply Array_sort_stable. intros a b Ha Hb.
    apply Z.eqb_eq in Ha, Hb. cbv beta. lia.
Qed.

(** X21. [moveTab] updates two tabs exactly when both indices lie inside
    the list of the shown tabs, and throws a TypeError before any update
    otherwise. The first update is the dragged tab with the order of the
    target, the second the target with the order of the dragged tab, all
    other properties kept. When the two tabs have the same [order], or
    none, both updates leave their tab as it is: the drag has no effect. *)
Theorem moveTab_exchanges_orders (tabs : list UsersWindow.TabVisibilityConfig)
  (dragIndex hoverIndex : Z) :
  let inside i := 0 <= i < Z.of_nat (List.length tabs) in
  (inside dragIndex /\ inside hoverIndex ->
   exists dragged target,
     UsersWindow.Array_get tabs dragIndex = Some dragged
     /\ UsersWindow.Array_get tabs hoverIndex = Some target
     /\ UsersWindow.moveTab tabs dragIndex hoverIndex
        = Return [UsersWindow.with_order dragged (UsersWindow.order target);
                  UsersWindow.with_order target (UsersWindow.order dragged)]
     /\ (UsersWindow.order dragged = UsersWindow.order target ->
         UsersWindow.moveTab tabs dragIndex hoverIndex
         = Return [dragged; target]))
  /\ (~ (inside dragIndex /\ inside hoverIndex) ->
      UsersWindow.moveTab tabs dragIndex hoverIndex
      = Throw (TypeError
                 "Cannot read properties of undefined (reading 'order')")).
Proof.
  intros inside. split.
  - intros [Hd Hh].
    apply Array_get_Some in Hd, Hh.
    destruct Hd as [dragged Hd], Hh as [target Hh].
    exists dragged, target. unfold UsersWindow.moveTab. rewrite Hd, Hh.
    repeat split. intros Hsame.
    destruct dragged, target. unfold UsersWindow.with_order. simpl in *.
    subst. reflexivity.
  - intros Hout. unfold UsersWindow.moveTab.
    destruct (UsersWindow.Array_get tabs hoverIndex) as [target|] eqn:Hh;
      [|reflexivity].
    destruct (UsersWindow.Array_get tabs dragIndex) as [dragged|] eqn:Hd;
      [|reflexivity].
    exfalso. apply Hout. split; apply Array_get_Some; eauto.
Qed.

Lemma moveTab_exchanges_orders_witness :
  (0 <= 0 < Z.of_nat (List.length three_tabs)
   /\ 0 <= 2 < Z.of_nat (List.length three_tabs))
  /\ exists dragged target,
       UsersWindow.Array_get three_tabs 0 = Some dragged
       /\ UsersWindow.Array_get three_tabs 2 = Some target
       /\ UsersWindow.moveTab three_tabs 0 2
          = Return [UsersWindow.with_order dragged (UsersWindow.order target);
                    UsersWindow.with_order target (UsersWindow.order dragged)]
       /\ (UsersWindow.order dragged = UsersWindow.order target ->
           UsersWindow.moveTab three_tabs 0 2 = Return [dragged; target]).
Proof.
  assert (Hinside : 0 <= 0 < Z.of_nat (List.length three_tabs)
                    /\ 0 <= 2 < Z.of_nat (List.length three_tabs))
    by (simpl; lia).
  split; [exact Hinside|].
  exact (proj1 (moveTab_exchanges_orders three_tabs 0 2) Hinside).
Defined.

(** X22. While an item is dragged over one tile, the tabs are exchanged
    once: a [hover] over the tile the item already sits on updates
    nothing, and after a [hover] that returned, the item sits on the tile,
    so every further [hover] over that tile updates nothing, whatever the
    list of tabs has become. A [hover] that throws leaves the item where
    it was. *)
Theorem hover_once (tabs tabs' : list UsersWindow.TabVisibilityConfig)
  (index item_index : Z) :
  UsersWindow.hover tabs index index = (Return [], index)
  /\ (forall updates item_index',
        UsersWindow.hover tabs index item_index
        = (Return updates, item_index') ->
        item_index' = index
        /\ UsersWindow.hover tabs' index item_index' = (Return [], index))
  /\ (forall e item_index',
        UsersWindow.hover tabs index item_index = (Throw e, item_index') ->
        item_index' = item_index /\ item_index <> index).
Proof.
  assert (Hsame : forall l, UsersWindow.hover l index index = (Return [], index)).
  { intros l. unfold UsersWindow.hover. rewrite Z.eqb_refl. reflexivity. }
  split; [apply Hsame|]. split.
  - intros updates item_index' Hrun.
    assert (Hitem : item_index' = index).
    { unfold UsersWindow.hover in Hrun.
      destruct (Z.eqb_spec item_index index) as [Heq|Hne].
      - inversion Hrun. congruence.
      - destruct (UsersWindow.moveTab tabs item_index index);
          inversion Hrun; reflexivity. }
    split; [exact Hitem|]. rewrite Hitem. apply Hsame.
  - intros e item_index' Hrun. unfold UsersWindow.hover in Hrun.
    destruct (Z.eqb_spec item_index index) as [Heq|Hne]; [discriminate|].
    destruct (UsersWindow.moveTab tabs item_index index);
      inversion Hrun; subst; split; [reflexivity | assumption].
Qed.

Lemma hover_once_witness :
  UsersWindow.hover three_tabs 2 0
  = (Return [UsersWindow.with_order profile_tab (Some 3);
             UsersWindow.with_order data_tab (Some 1)], 2)
  /\ 2 = 2
  /\ UsersWindow.hover [] 2 2 = (Return [], 2).
Proof.
  assert (Hrun : UsersWindow.hover three_tabs 2 0
                 = (Return [UsersWindow.with_order profile_tab (Some 3);
                            UsersWindow.with_order data_tab (Some 1)], 2))
    by reflexivity.
  split; [exact Hrun|].
  exact (proj1 (proj2 (hover_once three_tabs [] 2 0)) _ _ Hrun).
Defined.
